(** * vgc_bench.scrape_teams: a shallow embedding and its verified properties

    The module scrapes tournament teams from a spreadsheet, normalises
    their text, filters and deduplicates them, and stores the survivors
    under [data/teams/reg<x>/<event>/<placement>.txt].

    Python strings are sequences of Unicode code points; they are modelled
    as lists of [N].  The parts of the Python standard library the module
    calls ([str] methods, [re], [unicodedata], [datetime.strptime]) are
    modelled next to the functions that use them.  Whatever needs the
    Unicode character database beyond ASCII is read from a record of tables
    ([unicode_tables]); on ASCII text every definition computes. *)

From Stdlib Require Import NArith List String Ascii Bool Lia DecimalString.
From stdpp Require Import base option list gmap.

Abbreviation str := (list N).

(** ** Code points and ASCII literals *)

Definition u (s : string) : str :=
  map N_of_ascii (list_ascii_of_string s).

Definition in_range (lo hi c : N) : bool := ((lo <=? c) && (c <=? hi))%N.

Definition is_ascii (c : N) : bool := (c <? 128)%N.

Definition ascii_lower (c : N) : N :=
  if in_range 65 90 c then (c + 32)%N else c.

Definition ascii_upper (c : N) : N :=
  if in_range 97 122 c then (c - 32)%N else c.

Definition ascii_digit (c : N) : bool := in_range 48 57 c.

Definition ascii_alpha (c : N) : bool := in_range 65 90 c || in_range 97 122 c.

(** [str.isspace] and the [\s] class of [re] on [str] patterns: the same
    25 code points. *)
Definition isspace (c : N) : bool :=
  in_range 0x09 0x0d c || in_range 0x1c 0x20 c || (c =? 0x85)%N
  || (c =? 0xa0)%N || (c =? 0x1680)%N || in_range 0x2000 0x200a c
  || in_range 0x2028 0x2029 c || (c =? 0x202f)%N || (c =? 0x205f)%N
  || (c =? 0x3000)%N.

(** The line boundaries of [str.splitlines]. *)
Definition is_linebreak (c : N) : bool :=
  in_range 0x0a 0x0d c || in_range 0x1c 0x1e c || (c =? 0x85)%N
  || in_range 0x2028 0x2029 c.

(** ** Unicode tables

    What the program reads from the Unicode character database for code
    points outside ASCII.  ASCII behaviour is written out in the
    definitions that follow and does not depend on the tables. *)
Record unicode_tables := {
  (** NFKD of a maximal run of non-ASCII code points. *)
  nfkd_nonascii : str -> str;
  (** [str.lower] of one non-ASCII code point, given the text before it
      (latest first) and after it (the final-sigma rule reads both). *)
  lower_nonascii : str -> N -> str -> str;
  (** [str.upper] of one non-ASCII code point. *)
  upper_nonascii : N -> str;
  (** [str.isalnum] of a non-ASCII code point. *)
  isalnum_nonascii : N -> bool;
  (** the value of a non-ASCII decimal digit (category Nd). *)
  decimal_nonascii : N -> option N;
  (** [str.isdigit] of a non-ASCII code point. *)
  isdigit_nonascii : N -> bool
}.

(** ** [str] methods *)

Fixpoint lstrip_by (p : N -> bool) (s : str) : str :=
  match s with
  | c :: t => if p c then lstrip_by p t else s
  | [] => []
  end.

Fixpoint rstrip_by (p : N -> bool) (s : str) : str :=
  match s with
  | [] => []
  | c :: t =>
      match rstrip_by p t with
      | [] => if p c then [] else [c]
      | r => c :: r
      end
  end.

Definition strip_by (p : N -> bool) (s : str) : str := lstrip_by p (rstrip_by p s).

Definition rstrip : str -> str := rstrip_by isspace.
Definition strip : str -> str := strip_by isspace.

Fixpoint prefixb (p s : str) : bool :=
  match p, s with
  | [], _ => true
  | a :: p', b :: s' => (a =? b)%N && prefixb p' s'
  | _ :: _, [] => false
  end.

(** [needle in hay] *)
Fixpoint infixb (needle hay : str) : bool :=
  prefixb needle hay ||
  match hay with
  | [] => false
  | _ :: t => infixb needle t
  end.

Definition str_eqb (a b : str) : bool := bool_decide (a = b).

(** [s.replace(old, new)] for a non-empty [old]: [skip] counts the
    characters of a replaced occurrence still to be passed over. *)
Fixpoint replace_go (old new s : str) (skip : nat) : str :=
  match s with
  | [] => []
  | c :: t =>
      match skip with
      | S k => replace_go old new t k
      | O =>
          if prefixb old s then new ++ replace_go old new t (length old - 1)
          else c :: replace_go old new t 0
      end
  end.

Definition replace (old new s : str) : str := replace_go old new s 0.

(** [s.split(sep)] for a one-character separator. *)
Fixpoint split_on (sep : N) (s : str) : list str :=
  match s with
  | [] => [[]]
  | c :: t =>
      if (c =? sep)%N then [] :: split_on sep t
      else match split_on sep t with
           | l :: ls => (c :: l) :: ls
           | [] => [[c]]
           end
  end.

(** [s.splitlines()]: a line ends at a line boundary, [\r\n] counts as one
    boundary, and a final boundary opens no further line. *)
Fixpoint splitlines (s : str) : list str :=
  match s with
  | [] => []
  | c :: t =>
      if is_linebreak c then
        match c, t with
        | 13%N, 10%N :: t' => [] :: splitlines t'
        | _, _ => [] :: splitlines t
        end
      else match splitlines t with
           | l :: ls => (c :: l) :: ls
           | [] => [[c]]
           end
  end.

(** [sep.join(parts)] *)
Fixpoint join (sep : str) (parts : list str) : str :=
  match parts with
  | [] => []
  | [p] => p
  | p :: ps => p ++ sep ++ join sep ps
  end.

Section Unicode.

Variable U : unicode_tables.

(** [str.lower]: per code point, ASCII written out. *)
Fixpoint lower_go (before s : str) : str :=
  match s with
  | [] => []
  | c :: t =>
      (if is_ascii c then [ascii_lower c] else lower_nonascii U before c t)
        ++ lower_go (c :: before) t
  end.

Definition lower (s : str) : str := lower_go [] s.

Definition upper (s : str) : str :=
  flat_map (fun c => if is_ascii c then [ascii_upper c] else upper_nonascii U c) s.

(** [unicodedata.normalize("NFKD", s)]: ASCII code points have no
    decomposition and combining class 0, so they stay in place and the
    runs between them are normalised on their own. *)
Fixpoint nfkd_go (run s : str) : str :=
  match s with
  | [] => match run with [] => [] | _ => nfkd_nonascii U (rev run) end
  | c :: t =>
      if is_ascii c then
        match run with [] => [] | _ => nfkd_nonascii U (rev run) end
          ++ c :: nfkd_go [] t
      else nfkd_go (c :: run) t
  end.

Definition nfkd (s : str) : str := nfkd_go [] s.

(** [s.encode("ascii", "ignore").decode("ascii")] *)
Definition ascii_ignore (s : str) : str := filter (fun c => is_ascii c = true) s.

(** The [\w] and [\d] classes of [re] on [str] patterns. *)
Definition isword (c : N) : bool :=
  if is_ascii c then ascii_alpha c || ascii_digit c || (c =? 95)%N
  else isalnum_nonascii U c.

Definition decimal_value (c : N) : option N :=
  if is_ascii c then (if ascii_digit c then Some (c - 48)%N else None)
  else decimal_nonascii U c.

Definition isdecimal (c : N) : bool :=
  match decimal_value c with Some _ => true | None => false end.

(** [str.isdigit] of one character. *)
Definition isdigit (c : N) : bool :=
  if is_ascii c then ascii_digit c else isdigit_nonascii U c.

(** [str.isalnum] of one character. *)
Definition isalnum (c : N) : bool :=
  if is_ascii c then ascii_alpha c || ascii_digit c else isalnum_nonascii U c.

End Unicode.

(** ** Regular expressions

    A backtracking matcher with the priorities of Python's [re]: the
    first alternative first, greedy repetition longest first, lazy
    repetition shortest first.  A matcher state holds the text before the
    position (latest character first), the text after it, and the groups
    captured so far (latest first). *)

Inductive re : Type :=
| Eps
| Chr (p : N -> bool)
| Seq (r1 r2 : re)
| Alt (r1 r2 : re)
| Star (r : re)
| LazyStar (r : re)
| Group (i : nat) (r : re)
| Assert (p : str -> str -> bool).

Record mstate := {
  ms_before : str;
  ms_rest : str;
  ms_groups : list (nat * str)
}.

Definition advance (c : N) (s : mstate) : mstate :=
  {| ms_before := c :: ms_before s;
     ms_rest := tail (ms_rest s);
     ms_groups := ms_groups s |}.

Definition consumed (s s' : mstate) : str :=
  take (length (ms_rest s) - length (ms_rest s')) (ms_rest s).

Definition capture (i : nat) (s s' : mstate) : mstate :=
  {| ms_before := ms_before s';
     ms_rest := ms_rest s';
     ms_groups := (i, consumed s s') :: ms_groups s' |}.

Definition progress (s s' : mstate) : bool :=
  length (ms_rest s') <? length (ms_rest s).

Section Matcher.

Context {A : Type}.

Definition cont := mstate -> option A.

Definition or_else (x y : option A) : option A :=
  match x with Some _ => x | None => y end.

(** Greedy repetition: one more round of [body] before the rest of the
    pattern is tried.  A round that consumes nothing ends the loop. *)
Fixpoint star_loop (body : mstate -> cont -> option A) (fuel : nat)
    (s : mstate) (k : cont) : option A :=
  match fuel with
  | O => k s
  | S f =>
      or_else
        (body s (fun s' => if progress s s' then star_loop body f s' k else None))
        (k s)
  end.

Fixpoint lazy_loop (body : mstate -> cont -> option A) (fuel : nat)
    (s : mstate) (k : cont) : option A :=
  match fuel with
  | O => k s
  | S f =>
      or_else
        (k s)
        (body s (fun s' => if progress s s' then lazy_loop body f s' k else None))
  end.

Fixpoint mk (r : re) (s : mstate) (k : cont) : option A :=
  match r with
  | Eps => k s
  | Chr p =>
      match ms_rest s with
      | c :: _ => if p c then k (advance c s) else None
      | [] => None
      end
  | Seq r1 r2 => mk r1 s (fun s' => mk r2 s' k)
  | Alt r1 r2 => or_else (mk r1 s k) (mk r2 s k)
  | Star r1 => star_loop (mk r1) (length (ms_rest s)) s k
  | LazyStar r1 => lazy_loop (mk r1) (length (ms_rest s)) s k
  | Group i r1 => mk r1 s (fun s' => k (capture i s s'))
  | Assert p => if p (ms_before s) (ms_rest s) then k s else None
  end.

End Matcher.

Definition Plus (r : re) : re := Seq r (Star r).
Definition Opt (r : re) : re := Alt r Eps.

Fixpoint times (n : nat) (r : re) : re :=
  match n with
  | O => Eps
  | S n' => Seq r (times n' r)
  end.

(** [r{0,n}], greedy *)
Fixpoint upto (n : nat) (r : re) : re :=
  match n with
  | O => Eps
  | S n' => Opt (Seq r (upto n' r))
  end.

(** [r{m,n}] *)
Definition between (m n : nat) (r : re) : re := Seq (times m r) (upto (n - m) r).

Fixpoint seqs (rs : list re) : re :=
  match rs with
  | [] => Eps
  | [r] => r
  | r :: rs' => Seq r (seqs rs')
  end.

Definition chr_is (c : N) : re := Chr (N.eqb c).

(** A literal. *)
Definition lit (s : str) : re := seqs (map chr_is s).

(** What an ASCII pattern character matches under [re.IGNORECASE]: both
    cases of a letter, and the four non-ASCII letters that fold to [i],
    [s] and [k]. *)
Definition ci_eq (p c : N) : bool :=
  let lp := ascii_lower p in
  (ascii_lower c =? lp)%N
  || ((lp =? 105)%N && ((c =? 0x130)%N || (c =? 0x131)%N))
  || ((lp =? 115)%N && (c =? 0x17f)%N)
  || ((lp =? 107)%N && (c =? 0x212a)%N).

Definition lit_ci (s : str) : re := seqs (map (fun p => Chr (ci_eq p)) s).

(** Zero-width assertions. *)
Definition bol : re := Assert (fun before _ => bool_decide (before = [])).
Definition bol_multiline : re :=
  Assert (fun before _ => match before with [] => true | c :: _ => (c =? 10)%N end).
(** [$] without MULTILINE: at the end, or before a final newline. *)
Definition eol : re :=
  Assert (fun _ rest => match rest with [] => true | [c] => (c =? 10)%N | _ => false end).
Definition eol_multiline : re :=
  Assert (fun _ rest => match rest with [] => true | c :: _ => (c =? 10)%N end).

Definition word_boundary (w : N -> bool) : re :=
  Assert (fun before rest =>
    xorb (match before with c :: _ => w c | [] => false end)
         (match rest with c :: _ => w c | [] => false end)).

(** [.] without DOTALL *)
Definition dot : re := Chr (fun c => negb (c =? 10)%N).

Definition start_state (before rest : str) : mstate :=
  {| ms_before := before; ms_rest := rest; ms_groups := [] |}.

Definition match_here (r : re) (before rest : str) : option mstate :=
  mk r (start_state before rest) Some.

(** A match: where it starts, the text it covers and its groups. *)
Record rmatch := {
  m_before : str;
  m_text : str;
  m_after : str;
  m_groups : list (nat * str)
}.

Definition make_match (before rest : str) (e : mstate) : rmatch :=
  {| m_before := before;
     m_text := take (length rest - length (ms_rest e)) rest;
     m_after := ms_rest e;
     m_groups := ms_groups e |}.

Fixpoint lookup_group (i : nat) (gs : list (nat * str)) : option str :=
  match gs with
  | [] => None
  | (j, t) :: gs' => if Nat.eqb i j then Some t else lookup_group i gs'
  end.

(** [m.group(i)] for a group that took part in the match. *)
Definition group (i : nat) (m : rmatch) : str :=
  match i with
  | O => m_text m
  | _ => default [] (lookup_group i (m_groups m))
  end.

(** Whether a search or match returned a match object. *)
Definition found {A : Type} (o : option A) : bool :=
  match o with Some _ => true | None => false end.

(** [re.match] *)
Definition re_match (r : re) (s : str) : option rmatch :=
  make_match [] s <$> match_here r [] s.

(** [re.search]: the first position, from the left, with a match. *)
Fixpoint search_go (r : re) (before rest : str) : option rmatch :=
  match match_here r before rest with
  | Some e => Some (make_match before rest e)
  | None =>
      match rest with
      | [] => None
      | c :: t => search_go r (c :: before) t
      end
  end.

Definition re_search (r : re) (s : str) : option rmatch := search_go r [] s.

(** [re.sub] with a literal replacement, for patterns that match at least
    one character (every pattern this program substitutes does): a
    position where the pattern matches nothing is passed over. *)
Fixpoint sub_go (r : re) (repl : str) (fuel : nat) (before rest : str) : str :=
  match fuel with
  | O => rest
  | S f =>
      match rest with
      | [] => []
      | c :: t =>
          match match_here r before rest with
          | Some e =>
              if length (ms_rest e) <? length rest
              then repl ++ sub_go r repl f (ms_before e) (ms_rest e)
              else c :: sub_go r repl f (c :: before) t
          | None => c :: sub_go r repl f (c :: before) t
          end
      end
  end.

Definition re_sub (r : re) (repl s : str) : str := sub_go r repl (length s) [] s.

(** [re.findall] for a pattern with one group: the group of every match,
    left to right, matches not overlapping. *)
Fixpoint findall_go (r : re) (fuel : nat) (before rest : str) : list str :=
  match fuel with
  | O => []
  | S f =>
      match rest with
      | [] => []
      | c :: t =>
          match match_here r before rest with
          | Some e =>
              if length (ms_rest e) <? length rest
              then default [] (lookup_group 1 (ms_groups e))
                     :: findall_go r f (ms_before e) (ms_rest e)
              else findall_go r f (c :: before) t
          | None => findall_go r f (c :: before) t
          end
      end
  end.

Definition re_findall (r : re) (s : str) : list str := findall_go r (length s) [] s.

(** ** [int] and decimal text *)

Definition str_of_N (n : N) : str :=
  u (NilEmpty.string_of_uint (N.to_uint n)).

Section Program.

Variable U : unicode_tables.

Definition ws : re := Chr isspace.
Definition digit : re := Chr (isdecimal U).
Definition wordb : re := word_boundary (isword U).
Definition chr_ci (a : ascii) : re := Chr (ci_eq (N_of_ascii a)).

(** [int(s)] for the digit strings the date parser converts (surrounding
    whitespace is ignored by [int]). *)
Definition py_int (s : str) : option N :=
  match strip s with
  | [] => None
  | ds =>
      foldl (fun acc c =>
               match acc, decimal_value U c with
               | Some n, Some d => Some (10 * n + d)%N
               | _, _ => None
               end) (Some 0%N) ds
  end.

(** [x or y] on strings *)
Definition str_or (x y : str) : str :=
  match x with [] => y | _ => x end.

(** ** slugify *)

Definition not_slug_char (c : N) : bool :=
  negb (in_range 97 122 c || in_range 48 57 c).

Definition slugify (text : str) : str :=
  let text := nfkd U text in
  let text := ascii_ignore text in
  let text := lower U text in
  let text := re_sub (Plus (Chr not_slug_char)) (u "_") text in
  strip_by (N.eqb 95) (re_sub (Plus (chr_is 95)) (u "_") text).

(** ** normalize_event_name *)

Definition regional_championships : re :=
  seqs [wordb; lit_ci (u "regional"); Plus ws; lit_ci (u "championship");
        Opt (chr_ci "s"); wordb].

Definition regionals : re :=
  seqs [wordb; lit_ci (u "regional"); Opt (chr_ci "s"); wordb].

Definition normalize_event_name (event_name : str) : str :=
  let name := strip event_name in
  let name := re_sub regional_championships [] name in
  let name := re_sub regionals [] name in
  strip (re_sub (Plus ws) (u " ") name).

(** ** placement_to_filename *)

Definition placement_to_filename (placement : str) : str :=
  let normalized := slugify (strip placement) in
  if str_eqb normalized (u "champion") || str_eqb normalized (u "winner")
  then u "1st"
  else if str_eqb normalized (u "runner_up") then u "2nd"
  else str_or normalized (u "unknown_placement").

(** ** datetime.strptime

    The directives the program uses, in the C locale.  [strptime] turns
    the format into a regular expression (compiled with IGNORECASE),
    matches it at the start of the text, requires the match to cover the
    whole text, and builds the date, which must exist.  [None] stands for
    the [ValueError] it raises otherwise. *)

Record date := { year : N; month : N; day : N }.

Definition month_abbr : list string :=
  ["jan"; "feb"; "mar"; "apr"; "may"; "jun";
   "jul"; "aug"; "sep"; "oct"; "nov"; "dec"]%string.

Definition month_name : list string :=
  ["january"; "february"; "march"; "april"; "may"; "june"; "july";
   "august"; "september"; "october"; "november"; "december"]%string.

(** The names as alternatives, longest first (a stable sort by length). *)
Definition month_name_by_length : list string :=
  ["september"; "february"; "november"; "december"; "january"; "october";
   "august"; "march"; "april"; "june"; "july"; "may"]%string.

Fixpoint alts (rs : list re) : re :=
  match rs with
  | [] => Assert (fun _ _ => false)
  | [r] => r
  | r :: rs' => Alt r (alts rs')
  end.

Definition names_re (names : list string) : re :=
  alts (map (fun n => lit_ci (u n)) names).

(** Groups: 1 is [%d], 2 is [%b], 3 is [%B], 4 is [%Y]. *)
Definition directive_re (c : N) : option re :=
  if (c =? 100)%N then
    Some (Group 1 (alts [Seq (chr_is 51) (Chr (in_range 48 49));
                          Seq (Chr (in_range 49 50)) digit;
                          Seq (chr_is 48) (Chr (in_range 49 57));
                          Chr (in_range 49 57);
                          Seq (chr_is 32) (Chr (in_range 49 57))]))
  else if (c =? 98)%N then Some (Group 2 (names_re month_abbr))
  else if (c =? 66)%N then Some (Group 3 (names_re month_name_by_length))
  else if (c =? 89)%N then Some (Group 4 (times 4 digit))
  else None.

(** The regular expression of a format: a directive after [%], [\s+] for
    a run of whitespace, the character itself otherwise. *)
Fixpoint format_re (fmt : str) (in_space : bool) : option re :=
  match fmt with
  | [] => Some Eps
  | c :: t =>
      if (c =? 37)%N then
        match t with
        | d :: t' =>
            match directive_re d, format_re t' false with
            | Some r, Some rest => Some (Seq r rest)
            | _, _ => None
            end
        | [] => None
        end
      else if isspace c then
        if in_space then format_re t true
        else Seq (Plus ws) <$> format_re t true
      else Seq (Chr (ci_eq c)) <$> format_re t false
  end.

Fixpoint index_of (x : str) (l : list string) (i : N) : option N :=
  match l with
  | [] => None
  | y :: l' => if str_eqb x (u y) then Some i else index_of x l' (i + 1)%N
  end.

Definition is_leap (y : N) : bool :=
  ((y mod 4 =? 0) && (negb (y mod 100 =? 0) || (y mod 400 =? 0)))%N.

Definition days_in_month (y m : N) : N :=
  if (m =? 2)%N then (if is_leap y then 29 else 28)%N
  else if ((m =? 4) || (m =? 6) || (m =? 9) || (m =? 11))%N then 30%N
  else 31%N.

(** [datetime(year, month, day)], a [ValueError] when there is no such
    date. *)
Definition make_date (y m d : N) : option date :=
  if ((1 <=? y) && (y <=? 9999) && (1 <=? m) && (m <=? 12)
      && (1 <=? d) && (d <=? days_in_month y m))%N
  then Some {| year := y; month := m; day := d |}
  else None.

Definition strptime (data_string fmt : str) : option date :=
  r ← format_re fmt false;
  m ← re_match r data_string;
  if negb (bool_decide (m_after m = [])) then None else
  y ← match lookup_group 4 (m_groups m) with
      | Some t => py_int t
      | None => Some 1900%N
      end;
  mo ← match lookup_group 3 (m_groups m), lookup_group 2 (m_groups m) with
       | Some t, _ => index_of (lower U t) month_name 1
       | None, Some t => index_of (lower U t) month_abbr 1
       | None, None => Some 1%N
       end;
  d ← match lookup_group 1 (m_groups m) with
      | Some t => py_int t
      | None => Some 1%N
      end;
  make_date y mo d.

(** ** parse_event_date *)

(** The first format, in order, that [strptime] accepts. *)
Fixpoint try_formats (data_string : str) (fmts : list string) : option date :=
  match fmts with
  | [] => None
  | fmt :: fmts' =>
      match strptime data_string (u fmt) with
      | Some d => Some d
      | None => try_formats data_string fmts'
      end
  end.

Definition embedded_date : re :=
  seqs [wordb;
        Group 1 (seqs [between 1 2 digit; Plus ws;
                       between 3 9 (Chr ascii_alpha); Plus ws;
                       times 4 digit]);
        wordb].

Definition parse_event_date (date_str : str) : option date :=
  let date_str := replace (u "Sept") (u "Sep") (strip date_str) in
  match date_str with
  | [] => None
  | _ =>
      match try_formats date_str
              ["%d %b %Y"; "%d %B %Y"; "%d %b, %Y"; "%d %B, %Y"; "%b %Y"; "%B %Y"]%string with
      | Some d => Some d
      | None =>
          match re_search embedded_date date_str with
          | Some m => try_formats (group 1 m) ["%d %b %Y"; "%d %B %Y"]%string
          | None => None
          end
      end
  end.

(** ** event_dir_name and event_key *)

Definition bare_year : re := seqs [wordb; times 4 digit; wordb].

Definition year_20xx : re :=
  seqs [wordb; Group 1 (Seq (lit (u "20")) (times 2 digit)); wordb].

Definition event_dir_name (event_name date_str : str) : str :=
  let normalized_name := strip (re_sub bare_year [] (normalize_event_name event_name)) in
  let base :=
    str_or (slugify normalized_name)
           (str_or (slugify (normalize_event_name event_name)) (u "event")) in
  match re_search year_20xx event_name with
  | Some year_match => base ++ u "_" ++ group 1 year_match
  | None =>
      match parse_event_date date_str with
      | Some dt => base ++ u "_" ++ str_of_N (year dt)
      | None => base
      end
  end.

Definition event_key (event_name date_str : str) : str :=
  let normalized_name := strip (re_sub bare_year [] (normalize_event_name event_name)) in
  let base :=
    str_or (slugify normalized_name)
           (str_or (slugify (normalize_event_name event_name)) (u "event")) in
  match re_search year_20xx event_name with
  | Some year_match => base ++ u "_" ++ group 1 year_match
  | None =>
      match parse_event_date date_str with
      | Some dt => base ++ u "_" ++ str_of_N (year dt)
      | None => base
      end
  end.

(** ** has_banned_move_or_ability *)

Definition ability_is (name : string) : re :=
  seqs [bol_multiline; Star ws; lit_ci (u "Ability:"); Star ws;
        lit_ci (u name); Star ws; eol_multiline].

Definition has_banned_move_or_ability (team_text : str) : bool :=
  if found (re_search (ability_is "Illusion") team_text) then true
  else if found (re_search (ability_is "Commander") team_text) then true
  else false.

(** ** normalize_team_text *)

Definition ability_line : re :=
  seqs [bol;
        Group 1 (seqs [Star ws; lit_ci (u "Ability:"); Star ws]);
        Group 2 (LazyStar dot);
        Star ws; eol].

Definition calyrex_ice : re := seqs [wordb; lit_ci (u "Calyrex-Ice"); wordb].

Fixpoint drop_leading_empty (lines : list str) : list str :=
  match lines with
  | [] :: rest => drop_leading_empty rest
  | _ => lines
  end.

Fixpoint drop_trailing_empty (lines : list str) : list str :=
  match lines with
  | [] => []
  | l :: rest =>
      match drop_trailing_empty rest, l with
      | [], [] => []
      | r, _ => l :: r
      end
  end.

(** The loop that cuts the lines into blocks at empty lines; [block] is
    the block being filled. *)
Fixpoint split_blocks (lines : list str) (block : list str) : list (list str) :=
  match lines with
  | [] => match block with [] => [] | _ => [block] end
  | line :: rest =>
      match line with
      | [] =>
          match block with
          | [] => split_blocks rest []
          | _ => block :: split_blocks rest []
          end
      | _ => split_blocks rest (block ++ [line])
      end
  end.

Definition normalize_line (asone line : str) : str :=
  match re_match ability_line line with
  | Some m =>
      let ability_value := group 2 m in
      let ability_norm := re_sub (Chr not_slug_char) [] (lower U ability_value) in
      if str_eqb ability_norm (u "asone") then group 1 m ++ asone else line
  | None => line
  end.

Definition normalize_block (block : list str) : str :=
  let header := hd [] block in
  let asone :=
    if found (re_search calyrex_ice header) then u "As One (Glastrier)"
    else u "As One (Spectrier)" in
  join [10%N] (map (normalize_line asone) block).

Definition normalize_team_text (team_text : str) : str :=
  let lines := map rstrip (splitlines team_text) in
  let lines := drop_trailing_empty (drop_leading_empty lines) in
  let blocks := split_blocks lines [] in
  join [10%N; 10%N] (map normalize_block blocks) ++ [10%N].

End Program.

(** ** The outside world

    What a run reads from the network, what the two libraries it calls
    return, and how writing a file ends.  A request that raises is
    [None]. *)

Inductive parse_result := Parsed | ParseKeyError | ParseOtherError.

(** What [open(out_path, "w")] followed by [f.write(team_text)] does:
    the file is written; or [open] raises and there is no file; or the
    file is created and the write raises (a [UnicodeEncodeError] for a
    text the locale's encoding cannot hold, an [OSError]), which leaves
    a file that holds [rest], empty or cut short. *)
Inductive write_outcome :=
| Written
| NotOpened
| Broken (rest : list N).

Record world := {
  (** the decoded prefix of the spreadsheet's edit page *)
  sheet_edit_html : option str;
  (** [list(csv.reader(resp.text.splitlines()))] of a sheet, by name *)
  sheet_csv : str -> option (list (list str));
  (** [resp.text] of [https://pokepast.es/<id>/raw], by paste id *)
  paste_text : str -> option str;
  (** [Teambuilder.parse_showdown_team]: returns, raises [KeyError], or
      raises something else *)
  parse_showdown_team : str -> parse_result;
  (** [calc_team_similarity_score(a, b) == 1.0] *)
  similarity_is_one : str -> str -> bool;
  (** writing a text to the file at a path, given as the list of its
      components *)
  file_write : list str -> str -> write_outcome
}.

(** ** The file system

    Paths are lists of components below the working directory. *)

Inductive node := Dir | File (content : str).

Abbreviation path := (list str).

(** [Path.mkdir(parents=True, exist_ok=True)]: every prefix of the path
    becomes a directory; [None] (an [OSError]) when one of them is a
    file.  [made] is the prefix already walked. *)
Fixpoint mkdir_parents (fs : gmap path node) (made todo : path) : option (gmap path node) :=
  match todo with
  | [] => Some fs
  | c :: rest =>
      let p := made ++ [c] in
      match fs !! p with
      | Some (File _) => None
      | _ => mkdir_parents (<[p := Dir]> fs) p rest
      end
  end.

Definition mkdir (fs : gmap path node) (p : path) : option (gmap path node) :=
  mkdir_parents fs [] p.

(** [Path.exists] *)
Definition path_exists (fs : gmap path node) (p : path) : bool :=
  match fs !! p with Some _ => true | None => false end.

(** ** Python list access *)

(** [l[i]], negative indices counting from the end; [None] is
    [IndexError]. *)
Definition py_get {A : Type} (l : list A) (i : Z) : option A :=
  if (0 <=? i)%Z then l !! Z.to_nat i
  else if (- Z.of_nat (length l) <=? i)%Z then l !! Z.to_nat (Z.of_nat (length l) + i)
  else None.

(** [l.index(x)]; [None] is [ValueError]. *)
Fixpoint list_index (x : str) (l : list str) : option Z :=
  match l with
  | [] => None
  | y :: l' => if str_eqb y x then Some 0%Z else Z.succ <$> list_index x l'
  end.

(** [x in l] *)
Definition list_mem (x : str) (l : list str) : bool := bool_decide (x ∈ l).

(** ** The orchestrator *)

(** The local variables of [scrape_regulation] that change during a run,
    with the file system. *)
Record state := {
  fs : gmap path node;
  seen_teams : list str;
  saved : nat;
  skipped_duplicates : nat;
  skipped_banned : nat;
  skipped_existing : nat;
  event_subdirs : gmap str path
}.

Definition initial (f : gmap path node) : state :=
  {| fs := f; seen_teams := []; saved := 0; skipped_duplicates := 0;
     skipped_banned := 0; skipped_existing := 0; event_subdirs := ∅ |}.

Definition with_fs (f : gmap path node) (st : state) : state :=
  {| fs := f; seen_teams := seen_teams st; saved := saved st;
     skipped_duplicates := skipped_duplicates st;
     skipped_banned := skipped_banned st;
     skipped_existing := skipped_existing st;
     event_subdirs := event_subdirs st |}.

Definition count_banned (st : state) : state :=
  {| fs := fs st; seen_teams := seen_teams st; saved := saved st;
     skipped_duplicates := skipped_duplicates st;
     skipped_banned := S (skipped_banned st);
     skipped_existing := skipped_existing st;
     event_subdirs := event_subdirs st |}.

Definition count_duplicate (st : state) : state :=
  {| fs := fs st; seen_teams := seen_teams st; saved := saved st;
     skipped_duplicates := S (skipped_duplicates st);
     skipped_banned := skipped_banned st;
     skipped_existing := skipped_existing st;
     event_subdirs := event_subdirs st |}.

Definition count_existing (st : state) : state :=
  {| fs := fs st; seen_teams := seen_teams st; saved := saved st;
     skipped_duplicates := skipped_duplicates st;
     skipped_banned := skipped_banned st;
     skipped_existing := S (skipped_existing st);
     event_subdirs := event_subdirs st |}.

Definition remember_team (team_text : str) (st : state) : state :=
  {| fs := fs st; seen_teams := seen_teams st ++ [team_text]; saved := saved st;
     skipped_duplicates := skipped_duplicates st;
     skipped_banned := skipped_banned st;
     skipped_existing := skipped_existing st;
     event_subdirs := event_subdirs st |}.

Definition remember_subdir (key : str) (dir : path) (st : state) : state :=
  {| fs := fs st; seen_teams := seen_teams st; saved := saved st;
     skipped_duplicates := skipped_duplicates st;
     skipped_banned := skipped_banned st;
     skipped_existing := skipped_existing st;
     event_subdirs := <[key := dir]> (event_subdirs st) |}.

(** The state after the [with] block has written the file and
    [saved += 1] has run. *)
Definition write_team (out_path : path) (team_text : str) (st : state) : state :=
  {| fs := <[out_path := File team_text]> (fs st);
     seen_teams := seen_teams st; saved := S (saved st);
     skipped_duplicates := skipped_duplicates st;
     skipped_banned := skipped_banned st;
     skipped_existing := skipped_existing st;
     event_subdirs := event_subdirs st |}.

(** How a stretch of the run ends: it goes on with the next row or sheet,
    or an exception leaves [scrape_regulation]. *)
Inductive outcome :=
| Next (st : state)
| Raised (st : state).

Definition state_of (o : outcome) : state :=
  match o with Next st | Raised st => st end.

(** The column indices read off the header row. *)
Record columns := {
  category_idx : Z;
  evs_idx : Z;
  pokepaste_idx : Z;
  event_idx : Z;
  rank_idx : Z;
  date_idx : Z
}.

Definition max_idx (c : columns) : Z :=
  Z.max (category_idx c)
    (Z.max (evs_idx c)
       (Z.max (pokepaste_idx c)
          (Z.max (event_idx c) (Z.max (rank_idx c) (date_idx c))))).

Definition resolve_columns (header : list str) : option columns :=
  category ← list_index (u "Category") header;
  evs ← list_index (u "EVs") header;
  pokepaste ← list_index (u "Pokepaste") header;
  event ← list_index (u "Tournament / Event") header;
  rank ← list_index (u "Rank") header;
  date ← (if list_mem (u "Date") header then list_index (u "Date") header
          else Some (event - 1)%Z);
  Some {| category_idx := category; evs_idx := evs; pokepaste_idx := pokepaste;
          event_idx := event; rank_idx := rank; date_idx := date |}.

Definition is_header_row (r : list str) : bool :=
  match r with
  | [] => false
  | c :: _ => str_eqb (strip c) (u "Team ID") && list_mem (u "Pokepaste") r
  end.

(** [next(i for i, r in enumerate(rows) if ...)]; [None] is
    [StopIteration]. *)
Fixpoint find_header (rows : list (list str)) : option nat :=
  match rows with
  | [] => None
  | r :: rows' => if is_header_row r then Some 0 else S <$> find_header rows'
  end.

Definition allowed_events : list string :=
  ["regional"; "euic"; "laic"; "naic"; "worlds"]%string.

Section Orchestrator.

Variable U : unicode_tables.
Variable W : world.

Definition tab_caption : re :=
  seqs [lit (u "docs-sheet-tab-caption" ++ [34%N] ++ u ">");
        Group 1 (Plus (Chr (fun c => negb (c =? 60)%N)));
        chr_is 60].

Fixpoint unique_names (names seen : list str) : list str :=
  match names with
  | [] => []
  | name :: names' =>
      if list_mem name seen then unique_names names' seen
      else name :: unique_names names' (name :: seen)
  end.

Definition fetch_sheet_names : option (list str) :=
  html ← sheet_edit_html W;
  Some (unique_names (re_findall tab_caption html) []).

Definition featured_team_sheets_for_regulation
    (all_sheet_names : list str) (regulation : str) : list str :=
  let reg := lower U (strip regulation) in
  let sheets :=
    List.filter
      (fun name =>
         let lname := lower U name in
         infixb (u "featured") lname
         && negb (infixb (u "presentable") lname)
         && (infixb (u "reg " ++ reg) lname || infixb (u "regulation " ++ reg) lname))
      all_sheet_names in
  match sheets with
  | [] => [u "Reg " ++ upper U regulation ++ u " Featured Teams"]
  | _ => sheets
  end.

Definition fetch_sheet_csv_rows (sheet_name : str) : option (list (list str)) :=
  sheet_csv W sheet_name.

Definition fetch_pokepaste_raw (pokepaste_url : str) : option str :=
  let paste_id := List.last (split_on 47 (rstrip_by (N.eqb 47) pokepaste_url)) [] in
  normalize_team_text U <$> paste_text W paste_id.

(** The body of the loop over the rows of a sheet.  A write that raises
    leaves the run with the file as the write left it and [saved] as it
    was: [saved += 1] comes after the [with] block. *)
Definition process_row (reg_dir : path) (c : columns) (st : state)
    (row : list str) : outcome :=
  if bool_decide (Z.of_nat (length row) ≤ max_idx c)%Z then Next st else
  match py_get row (category_idx c) with None => Raised st | Some cell =>
  let category := lower U (strip cell) in
  if negb (str_eqb category (u "in person event")) then Next st else
  match py_get row (evs_idx c) with None => Raised st | Some cell =>
  if negb (str_eqb (lower U (strip cell)) (u "yes")) then Next st else
  match py_get row (pokepaste_idx c) with None => Raised st | Some cell =>
  let pokepaste := strip cell in
  if negb (prefixb (u "https://pokepast.es/") pokepaste) then Next st else
  match fetch_pokepaste_raw pokepaste with None => Raised st | Some team_text =>
  if has_banned_move_or_ability team_text then Next (count_banned st) else
  match parse_showdown_team W team_text with
  | ParseOtherError => Raised st
  | ParseKeyError => Next st
  | Parsed =>
  if existsb (fun prev => similarity_is_one W team_text prev) (seen_teams st)
  then Next (count_duplicate st) else
  let st := remember_team team_text st in
  match py_get row (event_idx c) with None => Raised st | Some cell =>
  let event_name := strip cell in
  let event_lower := lower U event_name in
  if negb (existsb (fun kw => infixb (u kw) event_lower) allowed_events)
  then Next st else
  if infixb (u "seniors") event_lower || infixb (u "juniors") event_lower
  then Next st else
  if infixb (u "&") event_name then Next st else
  match py_get row (date_idx c) with None => Raised st | Some cell =>
  let date_str := strip cell in
  match py_get row (rank_idx c) with None => Raised st | Some cell =>
  let placement := strip cell in
  if infixb (u "juniors") placement || infixb (u "seniors") placement
  then Next st else
  let key := event_key U event_name date_str in
  let st :=
    match event_subdirs st !! key with
    | Some _ => st
    | None => remember_subdir key (reg_dir ++ [event_dir_name U event_name date_str]) st
    end in
  let event_subdir := default [] (event_subdirs st !! key) in
  match mkdir (fs st) event_subdir with None => Raised st | Some fs' =>
  let st := with_fs fs' st in
  let base_filename := placement_to_filename U placement in
  match base_filename with [] => Raised st | first :: _ =>
  if negb (isdigit U first) then Next st else
  let filename := base_filename ++ u ".txt" in
  let out_path := event_subdir ++ [filename] in
  if path_exists (fs st) out_path then Next (count_existing st) else
  match file_write W out_path team_text with
  | Written => Next (write_team out_path team_text st)
  | NotOpened => Raised st
  | Broken rest => Raised (with_fs (<[out_path := File rest]> (fs st)) st)
  end
  end end end end end end end end end end.

Fixpoint process_rows (reg_dir : path) (c : columns) (st : state)
    (rows : list (list str)) : outcome :=
  match rows with
  | [] => Next st
  | row :: rows' =>
      match process_row reg_dir c st row with
      | Next st' => process_rows reg_dir c st' rows'
      | Raised st' => Raised st'
      end
  end.

(** The body of the loop over the sheets. *)
Definition process_sheet (reg_dir : path) (st : state) (sheet_name : str) : outcome :=
  match fetch_sheet_csv_rows sheet_name with None => Raised st | Some rows =>
  match find_header rows with None => Raised st | Some header_row_idx =>
  match resolve_columns (default [] (rows !! header_row_idx)) with
  | None => Raised st
  | Some c => process_rows reg_dir c st (drop (S header_row_idx) rows)
  end end end.

Fixpoint process_sheets (reg_dir : path) (st : state) (sheet_names : list str) : outcome :=
  match sheet_names with
  | [] => Next st
  | sheet_name :: rest =>
      match process_sheet reg_dir st sheet_name with
      | Next st' => process_sheets reg_dir st' rest
      | Raised st' => Raised st'
      end
  end.

(** [reg<x>] is taken as one path component: [main] passes a single
    letter. *)
Definition reg_dir_of (regulation : str) : path :=
  [u "data"; u "teams"; u "reg" ++ lower U regulation].

(** A run on the file system [f].  [Next st] is a run that reaches the
    four [print] calls, which show [saved], [skipped_existing],
    [skipped_banned] and [skipped_duplicates] of [st]. *)
Definition scrape_regulation (regulation : str) (f : gmap path node) : outcome :=
  let reg_dir := reg_dir_of regulation in
  match mkdir f reg_dir with None => Raised (initial f) | Some f1 =>
  match fetch_sheet_names with None => Raised (initial f1) | Some all_sheet_names =>
  let sheet_names := featured_team_sheets_for_regulation all_sheet_names regulation in
  process_sheets reg_dir (initial f1) sheet_names
  end end.

End Orchestrator.

(** ** Data for the worked examples *)

(** An excerpt of the Unicode character database, enough for the
    examples: U+2122 TRADE MARK SIGN is a symbol (category So, not
    alphanumeric) whose compatibility decomposition is the two letters
    [TM].  Code points the excerpt does not list are left as they are. *)
Definition unicode_excerpt : unicode_tables :=
  {| nfkd_nonascii := flat_map (fun c => if (c =? 0x2122)%N then u "TM" else [c]);
     lower_nonascii := fun _ c _ => [c];
     upper_nonascii := fun c => [c];
     isalnum_nonascii := fun _ => false;
     decimal_nonascii := fun _ => None;
     isdigit_nonascii := fun _ => false |}.

Definition nl : str := [10%N].

Definition sample_header : list str :=
  [u "Team ID"; u "Category"; u "EVs"; u "Pokepaste"; u "Date";
   u "Tournament / Event"; u "Rank"].

Definition sample_columns : columns :=
  {| category_idx := 1; evs_idx := 2; pokepaste_idx := 3; event_idx := 5;
     rank_idx := 6; date_idx := 4 |}.

Definition sample_row (paste event rank : string) : list str :=
  [u "1"; u "In Person Event"; u "Yes"; u "https://pokepast.es/" ++ u paste;
   u "15 Jan 2024"; u event; u rank].

(** A data source with one featured sheet (the page lists no tab, so the
    expected sheet name is used), whose pastes read [Pikachu-<id>], which
    all parse, and where only equal texts score 1.0; every file is
    written. *)
Definition sample_world (rows : list (list str)) : world :=
  {| sheet_edit_html := Some [];
     sheet_csv := fun _ => Some rows;
     paste_text := fun id => Some (u "Pikachu-" ++ id ++ nl ++ u "Ability: Static");
     parse_showdown_team := fun _ => Parsed;
     similarity_is_one := str_eqb;
     file_write := fun _ _ => Written |}.

(** Two different teams listed as winners of the same event. *)
Definition two_winners : list (list str) :=
  [sample_header;
   sample_row "aaa" "Portland Regional" "1st";
   sample_row "bbb" "Portland Regional" "1st"].

(** The same team listed twice at an event that is not of a recognised
    tier. *)
Definition local_event_twice : list (list str) :=
  [sample_header;
   sample_row "aaa" "Local Tournament" "1st";
   sample_row "aaa" "Local Tournament" "2nd"].

(** A sheet without a header row. *)
Definition headerless : list (list str) :=
  [[u "Team"; u "Pokepaste"];
   sample_row "aaa" "Portland Regional" "1st"].

(** A header row without a [Date] column. *)
Definition header_without_date : list str :=
  [u "Team ID"; u "Category"; u "EVs"; u "Pokepaste"; u "Owner";
   u "Tournament / Event"; u "Rank"].

Definition illusion_with_note : str :=
  u "Zoroark @ Focus Sash" ++ nl ++ u "Ability: Illusion (disguised)" ++ nl.

(** The regular files of a file system, with their contents. *)
Definition files_of (f : gmap path node) : list (path * str) :=
  omap (fun pn => match pn.2 with File t => Some (pn.1, t) | Dir => None end)
       (map_to_list f).

(** ** Running again

    The state a second run is in, on the file system [g], at the point
    where the first run was in [st]: it has met the same teams and events,
    has saved nothing, and has found existing every file the first run
    saved or found existing. *)
Definition rerun (g : gmap path node) (st : state) : state :=
  {| fs := g; seen_teams := seen_teams st; saved := 0;
     skipped_duplicates := skipped_duplicates st;
     skipped_banned := skipped_banned st;
     skipped_existing := saved st + skipped_existing st;
     event_subdirs := event_subdirs st |}.

Definition outcome_map (f : state → state) (o : outcome) : outcome :=
  match o with
  | Next st => Next (f st)
  | Raised st => Raised (f st)
  end.

(** The stretch that ended as [o] was not cut short by a write that
    failed: it was not cut short at all, or writing a file never fails. *)
Definition no_failed_write (W : world) (o : outcome) : Prop :=
  (∃ st, o = Next st) ∨ ∀ p t, file_write W p t = Written.

(** ** The matcher on character classes and literals

    What the matcher computes for a repeated character class, written by
    recursion on the text: [greedy] for [Star (Chr p)], [lazy] for
    [LazyStar (Chr p)]. *)

Definition at_state (before rest : str) (groups : list (nat * str)) : mstate :=
  {| ms_before := before; ms_rest := rest; ms_groups := groups |}.

Fixpoint greedy {A : Type} (p : N → bool) (before rest : str)
    (groups : list (nat * str)) (k : mstate → option A) : option A :=
  match rest with
  | c :: t =>
      if p c then or_else (greedy p (c :: before) t groups k)
                          (k (at_state before rest groups))
      else k (at_state before rest groups)
  | [] => k (at_state before rest groups)
  end.

Fixpoint lazy {A : Type} (p : N → bool) (before rest : str)
    (groups : list (nat * str)) (k : mstate → option A) : option A :=
  match rest with
  | c :: t =>
      or_else (k (at_state before rest groups))
              (if p c then lazy p (c :: before) t groups k else None)
  | [] => k (at_state before rest groups)
  end.

(** [text] is matched, character by character, by the classes [ps]. *)
Definition matched_by (ps : list (N → bool)) (text : str) : Prop :=
  Forall2 (fun p c => p c = true) ps text.

(** Runs of one replaced by [repl]: what [re.sub] computes for
    [Plus (Chr p)].  [in_run] tells that the character before belonged to
    a run. *)
Fixpoint collapse (p : N → bool) (repl : str) (in_run : bool) (s : str) : str :=
  match s with
  | [] => []
  | c :: t =>
      if p c then (if in_run then [] else repl) ++ collapse p repl true t
      else c :: collapse p repl false t
  end.

(** ** Shapes of text used in the proofs *)

(** No two neighbours both in [p]. *)
Fixpoint no_double (p : N → bool) (s : str) : Prop :=
  match s with
  | c :: (d :: _) as t => (p c = true → p d = false) ∧ no_double p t
  | _ => True
  end.

Definition head_not (p : N → bool) (s : str) : Prop :=
  match s with c :: _ => p c = false | [] => True end.

(** The shape of a slug: lower-case letters, digits and single
    underscores. *)
Definition slug_text (s : str) : Prop :=
  Forall (fun c => not_slug_char c = false ∨ c = 95%N) s ∧ no_double (N.eqb 95) s.

(** ** Team text as blocks of lines

    The vocabulary of the proof that [normalize_team_text] is idempotent. *)

(** What follows the first group in [ability_line]. *)
Definition line_tail : re := seqs [Group 2 (LazyStar dot); Star ws; eol].

(** A line as the normaliser leaves it: not empty, within one line, and
    without whitespace at its end. *)
Definition tidy_line (l : str) : Prop :=
  l ≠ [] ∧ Forall (fun c => is_linebreak c = false) l ∧ rstrip l = l.

Definition tidy_block (b : list str) : Prop := b ≠ [] ∧ Forall tidy_line b.

(** The lines of a text: each is followed by a newline. *)
Definition text_of_lines (lines : list str) (rest : str) : str :=
  foldr (fun l acc => l ++ 10%N :: acc) rest lines.

(** The lines of the blocks, an empty line between two blocks. *)
Fixpoint interleave (blocks : list (list str)) : list str :=
  match blocks with
  | [] => []
  | [b] => b
  | b :: blocks' => b ++ [] :: interleave blocks'
  end.

(** The text [normalize_team_text] writes for blocks of lines. *)
Definition render (blocks : list (list str)) : str :=
  join [10%N; 10%N] (map (join [10%N]) blocks) ++ [10%N].

(** The blocks [normalize_team_text] cuts a text into. *)
Definition blocks_of (team_text : str) : list (list str) :=
  split_blocks
    (drop_trailing_empty (drop_leading_empty (map rstrip (splitlines team_text)))) [].

(** The two values the rewrite of an [As One] ability writes. *)
Definition is_asone_value (v : str) : Prop :=
  v = u "As One (Glastrier)" ∨ v = u "As One (Spectrier)".

(** A line of the text as first cut: within one line and without
    whitespace at its end (it may be empty). *)
Definition line_ok (l : str) : Prop :=
  Forall (fun c => is_linebreak c = false) l ∧ rstrip l = l.

(** The form an [As One] ability of the block is rewritten to. *)
Definition asone_of (U : unicode_tables) (block : list str) : str :=
  if found (re_search (calyrex_ice U) (hd [] block)) then u "As One (Glastrier)"
  else u "As One (Spectrier)".

(** The lines of a block after the rewrite. *)
Definition normalize_lines (U : unicode_tables) (block : list str) : list str :=
  map (normalize_line U (asone_of U block)) block.

(** A character of a slug proper: a lower-case ASCII letter or a digit. *)
Definition slug_char (c : N) : bool := in_range 97 122 c || in_range 48 57 c.


(** The text has a stretch that reads [Ability: <name>]: from the start
    of a line to the end of a line come optional whitespace, [Ability:]
    in any letter case, optional whitespace, the name in any letter case
    and optional whitespace.  The whitespace is what [\s] matches, line
    breaks included, so the stretch may span several lines: [Ability:]
    on one line and the name on a later one, with nothing but whitespace
    between them. *)
Definition has_ability_stretch (name : string) (text : str) : Prop :=
  ∃ before w1 a w2 i w3 after,
    text = before ++ w1 ++ a ++ w2 ++ i ++ w3 ++ after
    ∧ (before = [] ∨ last before = Some 10%N)
    ∧ Forall (fun c => isspace c = true) w1
    ∧ matched_by (map ci_eq (u "Ability:")) a
    ∧ Forall (fun c => isspace c = true) w2
    ∧ matched_by (map ci_eq (u name)) i
    ∧ Forall (fun c => isspace c = true) w3
    ∧ (after = [] ∨ head after = Some 10%N).


(** The markup of one tab caption on the spreadsheet's page, and a page
    that lists a sheet twice. *)
Definition tab_markup (name : string) : str :=
  u "<div class=" ++ [34%N] ++ u "docs-sheet-tab-caption" ++ [34%N] ++ u ">"
    ++ u name ++ u "</div>".

Definition tabs_page : str :=
  tab_markup "Reg G Featured Teams" ++ tab_markup "Reg G Presentable"
    ++ tab_markup "Reg G Featured Teams".

Definition tabs_world : world :=
  {| sheet_edit_html := Some tabs_page;
     sheet_csv := fun _ => None;
     paste_text := fun _ => None;
     parse_showdown_team := fun _ => Parsed;
     similarity_is_one := fun _ _ => false;
     file_write := fun _ _ => Written |}.


(** A row the orchestrator passes over before it fetches anything: too
    short, not of an in-person event, without EVs, or without a paste
    address. *)
Definition ineligible (U : unicode_tables) (c : columns) (row : list str) : Prop :=
  (Z.of_nat (length row) ≤ max_idx c)%Z
  ∨ (∃ category, py_get row (category_idx c) = Some category
                 ∧ lower U (strip category) ≠ u "in person event")
  ∨ (∃ category evs, py_get row (category_idx c) = Some category
                     ∧ py_get row (evs_idx c) = Some evs
                     ∧ lower U (strip evs) ≠ u "yes")
  ∨ (∃ category evs pokepaste,
       py_get row (category_idx c) = Some category
       ∧ py_get row (evs_idx c) = Some evs
       ∧ py_get row (pokepaste_idx c) = Some pokepaste
       ∧ prefixb (u "https://pokepast.es/") (strip pokepaste) = false).


(** ** What holds of a run at every row *)

(** A team text that passed the content filter: the normalised text of a
    paste that could be fetched, without a banned ability, and which the
    team parser accepts. *)
Definition admitted (U : unicode_tables) (W : world) (t : str) : Prop :=
  has_banned_move_or_ability t = false
  ∧ parse_showdown_team W t = Parsed
  ∧ ∃ paste_id raw, paste_text W paste_id = Some raw ∧ t = normalize_team_text U raw.

(** No text of the ledger scores 1.0 against a text entered before it. *)
Definition ledger_distinct (W : world) (ledger : list str) : Prop :=
  ∀ earlier t later, ledger = earlier ++ t :: later →
    Forall (fun prev => similarity_is_one W t prev = false) earlier.

(** [f0] is the file system the run started on. *)
Definition run_invariant (U : unicode_tables) (W : world) (f0 : gmap path node)
    (st : state) : Prop :=
  Forall (admitted U W) (seen_teams st)
  ∧ ledger_distinct W (seen_teams st)
  ∧ ∀ p t, fs st !! p = Some (File t) → f0 !! p = Some (File t) ∨ t ∈ seen_teams st.

(** Where a run puts a team: a file [<placement>.txt], whose name starts
    with a digit, in the directory of an event, below [reg_dir]. *)
Definition team_file (U : unicode_tables) (reg_dir p : path) : Prop :=
  ∃ event_name date_str placement c rest,
    p = reg_dir ++ [event_dir_name U event_name date_str;
                    placement_to_filename U placement ++ u ".txt"]
    ∧ placement_to_filename U placement = c :: rest
    ∧ isdigit U c = true.

(** What holds of the state all along a run on the file system [f0]:
    the directories remembered are event directories below [reg_dir],
    the files that were not in [f0] are team files, and [saved] counts
    them. *)
Definition placing_invariant (U : unicode_tables) (reg_dir : path)
    (f0 : gmap path node) (st : state) : Prop :=
  (∀ key d, event_subdirs st !! key = Some d →
            ∃ event_name date_str, d = reg_dir ++ [event_dir_name U event_name date_str])
  ∧ (∀ p t, fs st !! p = Some (File t) →
            f0 !! p = Some (File t) ∨ team_file U reg_dir p)
  ∧ length (files_of (fs st)) = length (files_of f0) + saved st.

(** The same data source on a machine where the first team cannot be
    written: the file is created, the write raises, and the file stays
    empty. *)
Definition failing_world (rows : list (list str)) : world :=
  {| sheet_edit_html := Some [];
     sheet_csv := fun _ => Some rows;
     paste_text := fun id => Some (u "Pikachu-" ++ id ++ nl ++ u "Ability: Static");
     parse_showdown_team := fun _ => Parsed;
     similarity_is_one := str_eqb;
     file_write := fun _ t => if infixb (u "Pikachu-aaa") t then Broken [] else Written |}.

(** The winner and the runner-up of one event. *)
Definition first_and_second : list (list str) :=
  [sample_header;
   sample_row "aaa" "Portland Regional" "1st";
   sample_row "bbb" "Portland Regional" "2nd"].

(** How a stretch of the run ends: in a state where [P] holds when it
    goes on, where [Q] holds when an exception has cut it short. *)
Definition ends_with (P Q : state → Prop) (o : outcome) : Prop :=
  match o with
  | Next st => P st
  | Raised st => Q st
  end.

(** As [run_invariant], for a run that an exception has cut short: a
    write may have failed, and a file then holds what the write left. *)
Definition cut_short_invariant (U : unicode_tables) (W : world) (f0 : gmap path node)
    (st : state) : Prop :=
  Forall (admitted U W) (seen_teams st)
  ∧ ledger_distinct W (seen_teams st)
  ∧ ∀ p t, fs st !! p = Some (File t) →
           f0 !! p = Some (File t) ∨ t ∈ seen_teams st
           ∨ ∃ team, team ∈ seen_teams st ∧ file_write W p team = Broken t.

(** As [placing_invariant], for a run that an exception has cut short:
    a write may have failed after it had created its file, which
    [saved] does not count. *)
Definition cut_short_placing (U : unicode_tables) (reg_dir : path)
    (f0 : gmap path node) (st : state) : Prop :=
  (∀ p t, fs st !! p = Some (File t) →
          f0 !! p = Some (File t) ∨ team_file U reg_dir p)
  ∧ length (files_of f0) + saved st ≤ length (files_of (fs st))
    ≤ length (files_of f0) + saved st + 1.

(** [l] lists the elements of [captions], each once, in the order of
    their first occurrence: what comes before an element in [l] is what
    [captions] holds before the first occurrence of that element. *)
Definition in_first_occurrence_order (captions l : list str) : Prop :=
  NoDup l
  ∧ (∀ x, x ∈ l ↔ x ∈ captions)
  ∧ ∀ n1 x n2, l = n1 ++ x :: n2 →
      ∃ c1 c2, captions = c1 ++ x :: c2 ∧ (x ∉ c1) ∧ ∀ y, y ∈ n1 ↔ y ∈ c1.

(** * Verified properties *)

(** ** Event key and directory name *)

(** C6: for every event name and date string, the dedup key [event_key]
    and the directory name [event_dir_name] are the same string. *)
Theorem event_key_eq_event_dir_name (U : unicode_tables) (event_name date_str : str) :
  event_key U event_name date_str = event_dir_name U event_name date_str.
Proof. unfold event_key, event_dir_name. reflexivity. Qed.

(** ** Placement file names *)

Lemma str_or_nonempty (x y : str) : y ≠ [] → str_or x y ≠ [].
Proof. destruct x; simpl; [tauto | discriminate]. Qed.

(** C10: [placement_to_filename] returns a non-empty string for every
    input, so reading its first character in the orchestrator never fails. *)
Theorem placement_to_filename_nonempty (U : unicode_tables) (placement : str) :
  ∃ first rest, placement_to_filename U placement = first :: rest.
Proof.
  assert (H : placement_to_filename U placement ≠ []).
  { unfold placement_to_filename.
    destruct (_ || _); [discriminate |].
    destruct (str_eqb _ _); [discriminate |].
    apply str_or_nonempty. discriminate. }
  destruct (placement_to_filename U placement) as [| c t]; [done | eauto].
Qed.

(** ** Dates *)

(** C2 (the code departs from the claim): rewriting [Sept] to [Sep] also
    hits the full month name, so ["15 September 2024"] becomes
    ["15 Sepember 2024"], which no format and no embedded date matches. *)
Theorem parse_event_date_september (U : unicode_tables) :
  parse_event_date U (u "15 September 2024") = None.
Proof. vm_compute. reflexivity. Qed.

Example parse_event_date_abbreviated (U : unicode_tables) :
  parse_event_date U (u "15 Sept 2024") = Some {| year := 2024; month := 9; day := 15 |}
  ∧ parse_event_date U (u "15 Jan 2024") = Some {| year := 2024; month := 1; day := 15 |}
  ∧ parse_event_date U (u "5 October 2023") = Some {| year := 2023; month := 10; day := 5 |}
  ∧ parse_event_date U (u "garbage") = None.
Proof. vm_compute. auto. Qed.

(** ** Banned abilities: what the check does not catch *)

(** C3, refuted as stated: the text contains [Ability: Illusion], followed
    on the same line by a note, and the check lets it through. *)
Lemma illusion_with_note_not_banned :
  infixb (u "Ability: Illusion") illusion_with_note = true
  ∧ has_banned_move_or_ability illusion_with_note = false.
Proof. vm_compute. auto. Qed.

(** ** Column resolution *)

Lemma list_index_spec (x : str) (l : list str) (i : Z) :
  list_index x l = Some i → (0 ≤ i)%Z ∧ l !! Z.to_nat i = Some x.
Proof.
  revert i. induction l as [| y l IH]; intros i; simpl; [discriminate |].
  unfold str_eqb. case_bool_decide as Hy.
  - intros [= <-]. subst. split; [lia | reflexivity].
  - destruct (list_index x l) as [j |]; simpl; [| discriminate].
    intros [= <-]. destruct (IH j eq_refl) as [Hj Hl]. split; [lia |].
    rewrite Z2Nat.inj_succ by lia. exact Hl.
Qed.

Lemma list_index_get (x : str) (l : list str) (i : Z) :
  list_index x l = Some i → py_get l i = Some x.
Proof.
  intros H. destruct (list_index_spec _ _ _ H) as [Hi Hl].
  unfold py_get. destruct (0 <=? i)%Z eqn:E; [exact Hl | lia].
Qed.

(** C5, refuted as stated: a header row has no [Date] cell, the columns
    resolve all the same, and the date column is the one to the left of
    the event column, whatever its header ([Owner] here). *)
Lemma date_column_by_position :
  list_mem (u "Date") header_without_date = false
  ∧ ∃ c, resolve_columns header_without_date = Some c
         ∧ date_idx c = (event_idx c - 1)%Z
         ∧ py_get header_without_date (date_idx c) = Some (u "Owner").
Proof. split; [vm_compute; reflexivity |]. eexists. vm_compute. auto. Qed.

(** C5, amended: category, EVs, paste reference, event name and rank are
    the columns whose header cells read so; the date column is the one
    headed [Date] when the header row has such a cell, and otherwise the
    column just left of the event column. *)
Theorem columns_resolved_by_header_text (header : list str) (c : columns) :
  resolve_columns header = Some c →
  py_get header (category_idx c) = Some (u "Category")
  ∧ py_get header (evs_idx c) = Some (u "EVs")
  ∧ py_get header (pokepaste_idx c) = Some (u "Pokepaste")
  ∧ py_get header (event_idx c) = Some (u "Tournament / Event")
  ∧ py_get header (rank_idx c) = Some (u "Rank")
  ∧ (if list_mem (u "Date") header
     then py_get header (date_idx c) = Some (u "Date")
     else date_idx c = (event_idx c - 1)%Z).
Proof.
  unfold resolve_columns. intros H.
  destruct (list_index (u "Category") header) as [i1 |] eqn:E1; [| discriminate].
  destruct (list_index (u "EVs") header) as [i2 |] eqn:E2; [| discriminate].
  destruct (list_index (u "Pokepaste") header) as [i3 |] eqn:E3; [| discriminate].
  destruct (list_index (u "Tournament / Event") header) as [i4 |] eqn:E4; [| discriminate].
  destruct (list_index (u "Rank") header) as [i5 |] eqn:E5; [| discriminate].
  simpl in H.
  destruct (list_mem (u "Date") header).
  - destruct (list_index (u "Date") header) as [i6 |] eqn:E6; [| discriminate].
    injection H as <-. simpl. auto 10 using list_index_get.
  - injection H as <-. simpl. auto 10 using list_index_get.
Qed.

Lemma columns_resolved_by_header_text_witness :
  resolve_columns sample_header = Some sample_columns
  ∧ py_get sample_header (category_idx sample_columns) = Some (u "Category")
  ∧ py_get sample_header (evs_idx sample_columns) = Some (u "EVs")
  ∧ py_get sample_header (pokepaste_idx sample_columns) = Some (u "Pokepaste")
  ∧ py_get sample_header (event_idx sample_columns) = Some (u "Tournament / Event")
  ∧ py_get sample_header (rank_idx sample_columns) = Some (u "Rank")
  ∧ (if list_mem (u "Date") sample_header
     then py_get sample_header (date_idx sample_columns) = Some (u "Date")
     else date_idx sample_columns = (event_idx sample_columns - 1)%Z).
Proof.
  split; [vm_compute; reflexivity |].
  apply (columns_resolved_by_header_text sample_header sample_columns).
  vm_compute. reflexivity.
Defined.

(** ** Sheets without a header row *)

Section OrchestratorFacts.

Variable U : unicode_tables.
Variable W : world.

Lemma process_sheet_no_header (reg_dir : path) (st : state) (sheet : str)
    (rows : list (list str)) :
  sheet_csv W sheet = Some rows → find_header rows = None →
  process_sheet U W reg_dir st sheet = Raised st.
Proof.
  intros Hrows Hnone. unfold process_sheet, fetch_sheet_csv_rows.
  rewrite Hrows, Hnone. reflexivity.
Qed.

Lemma process_sheets_no_header (reg_dir : path) (sheet : str)
    (rows : list (list str)) (names : list str) :
  sheet_csv W sheet = Some rows → find_header rows = None → sheet ∈ names →
  ∀ st, ∃ st', process_sheets U W reg_dir st names = Raised st'.
Proof.
  intros Hrows Hnone. induction names as [| name names IH]; intros Hin st.
  - inversion Hin.
  - simpl. destruct (decide (name = sheet)) as [-> | Hne].
    + rewrite (process_sheet_no_header _ _ _ rows) by assumption. eauto.
    + destruct (process_sheet U W reg_dir st name) as [st1 | st1]; [| eauto].
      apply IH. apply elem_of_cons in Hin as [-> |]; [congruence | assumption].
Qed.

End OrchestratorFacts.

(** C4, refuted as stated: the one sheet of this data source has no header
    row, and the run ends with an exception instead of the summary. *)
Lemma headerless_sheet_aborts :
  find_header headerless = None
  ∧ ∃ st, scrape_regulation unicode_excerpt (sample_world headerless) (u "G") ∅
          = Raised st.
Proof. split; [vm_compute; reflexivity |]. eexists. vm_compute. reflexivity. Qed.

(** C4, amended: when one of the sheets selected for the regulation has no
    header row, the run ends with an exception ([StopIteration] from
    [next], unless an earlier failure ended it before) and prints no
    summary; only short rows are passed over. *)
Theorem missing_header_aborts (U : unicode_tables) (W : world)
    (regulation : str) (f : gmap path node) (all_sheet_names : list str)
    (sheet : str) (rows : list (list str)) :
  fetch_sheet_names W = Some all_sheet_names →
  sheet ∈ featured_team_sheets_for_regulation U all_sheet_names regulation →
  sheet_csv W sheet = Some rows →
  find_header rows = None →
  ∃ st, scrape_regulation U W regulation f = Raised st.
Proof.
  intros Hnames Hin Hrows Hnone. unfold scrape_regulation.
  destruct (mkdir f (reg_dir_of U regulation)) as [f1 |]; [| eauto].
  rewrite Hnames.
  exact (process_sheets_no_header U W _ sheet rows _ Hrows Hnone Hin _).
Qed.

Lemma missing_header_aborts_witness :
  ∃ st, scrape_regulation unicode_excerpt (sample_world headerless) (u "G") ∅
        = Raised st.
Proof.
  apply (missing_header_aborts unicode_excerpt (sample_world headerless) (u "G") ∅
           [] (u "Reg G Featured Teams") headerless).
  - reflexivity.
  - vm_compute. left.
  - reflexivity.
  - vm_compute. reflexivity.
Defined.

(** ** The ledger is filled before the event checks *)

Lemma short_rows_skipped (U : unicode_tables) (W : world) (reg_dir : path)
    (c : columns) (st : state) (row : list str) :
  (Z.of_nat (length row) ≤ max_idx c)%Z →
  process_row U W reg_dir c st row = Next st.
Proof.
  intros H. unfold process_row. rewrite bool_decide_eq_true_2 by exact H. reflexivity.
Qed.

(** C9: a row whose team passes the duplicate check has its text appended
    to [seen_teams] whatever the event-name, division, placement and
    file-existence checks decide afterwards; and there is a data source
    where a team that was never saved makes the next one a duplicate. *)
Theorem seen_teams_before_event_checks :
  (∀ (U : unicode_tables) (W : world) (reg_dir : path) (c : columns)
     (st : state) (row : list str) (category evs pokepaste team_text : str),
     (max_idx c < Z.of_nat (length row))%Z →
     py_get row (category_idx c) = Some category →
     lower U (strip category) = u "in person event" →
     py_get row (evs_idx c) = Some evs →
     lower U (strip evs) = u "yes" →
     py_get row (pokepaste_idx c) = Some pokepaste →
     prefixb (u "https://pokepast.es/") (strip pokepaste) = true →
     fetch_pokepaste_raw U W (strip pokepaste) = Some team_text →
     has_banned_move_or_ability team_text = false →
     parse_showdown_team W team_text = Parsed →
     existsb (fun prev => similarity_is_one W team_text prev) (seen_teams st) = false →
     seen_teams (state_of (process_row U W reg_dir c st row))
     = seen_teams st ++ [team_text])
  ∧ (∃ st, scrape_regulation unicode_excerpt (sample_world local_event_twice)
             (u "G") ∅ = Next st
           ∧ saved st = 0 ∧ skipped_duplicates st = 1 ∧ files_of (fs st) = []).
Proof.
  split.
  - intros U W reg_dir c st row category evs pokepaste team_text
      Hlen Hcat Hcat' Hevs Hevs' Hpaste Hurl Hfetch Hban Hparse Hdup.
    unfold process_row.
    rewrite bool_decide_eq_false_2 by lia.
    rewrite Hcat, Hcat', Hevs, Hevs', Hpaste, Hurl. simpl.
    rewrite Hfetch, Hban, Hparse, Hdup.
    repeat case_match; reflexivity.
  - eexists. vm_compute. auto.
Qed.

Lemma seen_teams_before_event_checks_witness :
  seen_teams (state_of (process_row unicode_excerpt (sample_world local_event_twice)
                          [u "data"; u "teams"; u "regg"] sample_columns (initial ∅)
                          (sample_row "aaa" "Local Tournament" "1st")))
  = [u "Pikachu-aaa" ++ nl ++ u "Ability: Static" ++ nl].
Proof.
  apply (proj1 seen_teams_before_event_checks unicode_excerpt
           (sample_world local_event_twice) [u "data"; u "teams"; u "regg"]
           sample_columns (initial ∅) (sample_row "aaa" "Local Tournament" "1st")
           (u "In Person Event") (u "Yes") (u "https://pokepast.es/aaa")
           (u "Pikachu-aaa" ++ nl ++ u "Ability: Static" ++ nl));
    vm_compute; try reflexivity.
Defined.

(** ** A second run on an unchanged data source *)

Lemma insert_dir_subseteq (f : gmap path node) (p : path) :
  (match f !! p with Some (File _) => False | _ => True end) → f ⊆ <[p := Dir]> f.
Proof.
  destruct (f !! p) as [[| t] |] eqn:E; intros H; [| done |].
  - by rewrite insert_id.
  - by apply insert_subseteq.
Qed.

Lemma mkdir_parents_mono (todo : path) : ∀ (f f' : gmap path node) (made : path),
  mkdir_parents f made todo = Some f' → f ⊆ f'.
Proof.
  induction todo as [| c todo IH]; intros f f' made; simpl.
  - by intros [= ->].
  - destruct (f !! (made ++ [c])) as [[| t] |] eqn:E; [| done |]; intros H;
      apply IH in H; (etrans; [| exact H]); apply insert_dir_subseteq; by rewrite E.
Qed.

Lemma mkdir_parents_again (todo : path) : ∀ (f f' g : gmap path node) (made : path),
  mkdir_parents f made todo = Some f' → f' ⊆ g → mkdir_parents g made todo = Some g.
Proof.
  induction todo as [| c todo IH]; intros f f' g made; simpl; [done |].
  intros H Hsub.
  assert (Hg : g !! (made ++ [c]) = Some Dir).
  { assert (Hf : <[made ++ [c] := Dir]> f ⊆ f').
    { destruct (f !! (made ++ [c])) as [[| t] |]; [| done |]; by apply mkdir_parents_mono in H. }
    eapply lookup_weaken; [| exact Hsub]. eapply lookup_weaken; [| exact Hf].
    apply lookup_insert_eq. }
  rewrite Hg. rewrite (insert_id g) by exact Hg.
  destruct (f !! (made ++ [c])) as [[| t] |]; [| done |]; eapply IH; eauto.
  all: by rewrite ?insert_id.
Qed.

Lemma mkdir_parents_fails (todo : path) : ∀ (f g : gmap path node) (made : path),
  mkdir_parents f made todo = None → f ⊆ g → mkdir_parents g made todo = None.
Proof.
  induction todo as [| c todo IH]; intros f g made; simpl; [done |].
  intros H Hsub.
  destruct (f !! (made ++ [c])) as [[| t] |] eqn:E.
  - rewrite (lookup_weaken _ _ _ _ E Hsub). eapply IH; [exact H |].
    rewrite (insert_id f) by done. rewrite insert_id; [done |]. by eapply lookup_weaken.
  - by rewrite (lookup_weaken _ _ _ _ E Hsub).
  - destruct (g !! (made ++ [c])) as [[| t] |] eqn:Eg; [| done |];
      (eapply IH; [exact H |]); by apply insert_mono.
Qed.

Section Rerun.
Variable U : unicode_tables.
Variable W : world.

Lemma process_row_mono reg_dir c st row :
  fs st ⊆ fs (state_of (process_row U W reg_dir c st row)).
Proof.
  unfold process_row.
  repeat case_match; try reflexivity; cbn [state_of fs count_banned count_duplicate
    remember_team remember_subdir with_fs count_existing write_team] in *.
  all: try (unfold mkdir in *; match goal with H : mkdir_parents _ _ _ = Some _ |- _ =>
       apply mkdir_parents_mono in H end).
  all: cbn [state_of fs count_banned count_duplicate
    remember_team remember_subdir with_fs count_existing write_team] in *; try done.
  all: try (etrans; [eassumption |]; apply insert_subseteq;
            unfold path_exists in *; cbn [fs with_fs] in *; by case_match).
Qed.

Ltac proj_state := cbn [state_of outcome_map fs seen_teams saved skipped_duplicates skipped_banned
    skipped_existing event_subdirs rerun count_banned count_duplicate
    remember_team remember_subdir with_fs count_existing write_team] in *.

Lemma path_exists_weaken (f g : gmap path node) (p : path) :
  path_exists f p = true → f ⊆ g → path_exists g p = true.
Proof.
  unfold path_exists. destruct (f !! p) as [n |] eqn:E; [| done].
  intros _ Hsub. by rewrite (lookup_weaken _ _ _ _ E Hsub).
Qed.

Lemma path_exists_written (f g : gmap path node) (p : path) (n : node) :
  <[p := n]> f ⊆ g → path_exists g p = true.
Proof.
  intros Hsub. unfold path_exists.
  by rewrite (lookup_weaken (<[p := n]> f) g p n (lookup_insert_eq _ _ _) Hsub).
Qed.

Lemma insert_new_subseteq (f g : gmap path node) (p : path) (n : node) :
  path_exists f p = false → <[p := n]> f ⊆ g → f ⊆ g.
Proof.
  unfold path_exists. destruct (f !! p) eqn:E; [done |]. intros _ Hsub.
  etrans; [| exact Hsub]. by apply insert_subseteq.
Qed.

Lemma state_eq (a b : state) :
  fs a = fs b → seen_teams a = seen_teams b → saved a = saved b →
  skipped_duplicates a = skipped_duplicates b → skipped_banned a = skipped_banned b →
  skipped_existing a = skipped_existing b → event_subdirs a = event_subdirs b →
  a = b.
Proof. destruct a, b; simpl; congruence. Qed.

Ltac rerun_fs :=
  unfold mkdir in *;
  repeat match goal with
  | Hw : <[?p := ?n]> ?f ⊆ ?g, He : path_exists ?f ?p = false |- _ =>
      pose proof (path_exists_written f g p n Hw);
      pose proof (insert_new_subseteq f g p n He Hw); clear Hw
  | He : path_exists ?f ?p = true, Hs : ?f ⊆ ?g |- _ =>
      pose proof (path_exists_weaken f g p He Hs); clear He
  | Hm : mkdir_parents ?f ?m ?d = Some ?f', Hs : ?f' ⊆ ?g,
    Hg : mkdir_parents ?g ?m ?d = _ |- _ =>
      rewrite (mkdir_parents_again d f f' g m Hm Hs) in Hg
  | Hm : mkdir_parents ?f ?m ?d = None, Hs : ?f ⊆ ?g,
    Hg : mkdir_parents ?g ?m ?d = _ |- _ =>
      rewrite (mkdir_parents_fails d f g m Hm Hs) in Hg
  end;
  simplify_eq.

Lemma no_failed_write_next (o o' : outcome) (st : state) :
  o = Next st → no_failed_write W o' → no_failed_write W o.
Proof. intros -> _. left. by exists st. Qed.

Lemma process_row_rerun reg_dir c st row g :
  fs (state_of (process_row U W reg_dir c st row)) ⊆ g →
  no_failed_write W (process_row U W reg_dir c st row) →
  process_row U W reg_dir c (rerun g st) row
  = outcome_map (rerun g) (process_row U W reg_dir c st row).
Proof.
  unfold process_row, no_failed_write. proj_state. intros Hsub Hok.
  repeat (case_match; proj_state; simplify_eq; try reflexivity).
  all: proj_state; rerun_fs.
  all: try congruence.
  all: try (destruct Hok as [[? ?] | Hok]; [discriminate | congruence]).
  all: f_equal; apply state_eq; proj_state; try reflexivity; lia.
Qed.

Lemma process_rows_mono reg_dir c rows : ∀ st,
  fs st ⊆ fs (state_of (process_rows U W reg_dir c st rows)).
Proof.
  induction rows as [| row rows IH]; intros st; simpl; [done |].
  pose proof (process_row_mono reg_dir c st row) as Hrow.
  destruct (process_row U W reg_dir c st row) as [st1 | st1]; simpl in *; [| done].
  etrans; [exact Hrow | apply IH].
Qed.

Lemma process_rows_rerun reg_dir c g rows : ∀ st,
  fs (state_of (process_rows U W reg_dir c st rows)) ⊆ g →
  no_failed_write W (process_rows U W reg_dir c st rows) →
  process_rows U W reg_dir c (rerun g st) rows
  = outcome_map (rerun g) (process_rows U W reg_dir c st rows).
Proof.
  induction rows as [| row rows IH]; intros st; simpl; [done |].
  intros Hsub Hok.
  assert (Hrow : fs (state_of (process_row U W reg_dir c st row)) ⊆ g).
  { destruct (process_row U W reg_dir c st row) as [st1 | st1]; simpl in *; [| done].
    etrans; [apply (process_rows_mono reg_dir c rows st1) | exact Hsub]. }
  assert (Hrok : no_failed_write W (process_row U W reg_dir c st row)).
  { destruct (process_row U W reg_dir c st row) as [st1 | st1] eqn:E; [| exact Hok].
    by eapply no_failed_write_next. }
  rewrite (process_row_rerun _ _ _ _ _ Hrow Hrok).
  destruct (process_row U W reg_dir c st row) as [st1 | st1]; simpl in *; [| done].
  by apply IH.
Qed.

Lemma process_sheet_mono reg_dir st sheet :
  fs st ⊆ fs (state_of (process_sheet U W reg_dir st sheet)).
Proof.
  unfold process_sheet. repeat case_match; try done. apply process_rows_mono.
Qed.

Lemma process_sheet_rerun reg_dir g st sheet :
  fs (state_of (process_sheet U W reg_dir st sheet)) ⊆ g →
  no_failed_write W (process_sheet U W reg_dir st sheet) →
  process_sheet U W reg_dir (rerun g st) sheet
  = outcome_map (rerun g) (process_sheet U W reg_dir st sheet).
Proof.
  unfold process_sheet. repeat case_match; try done. apply process_rows_rerun.
Qed.

Lemma process_sheets_mono reg_dir sheets : ∀ st,
  fs st ⊆ fs (state_of (process_sheets U W reg_dir st sheets)).
Proof.
  induction sheets as [| sheet sheets IH]; intros st; simpl; [done |].
  pose proof (process_sheet_mono reg_dir st sheet) as Hs.
  destruct (process_sheet U W reg_dir st sheet) as [st1 | st1]; simpl in *; [| done].
  etrans; [exact Hs | apply IH].
Qed.

Lemma process_sheets_rerun reg_dir g sheets : ∀ st,
  fs (state_of (process_sheets U W reg_dir st sheets)) ⊆ g →
  no_failed_write W (process_sheets U W reg_dir st sheets) →
  process_sheets U W reg_dir (rerun g st) sheets
  = outcome_map (rerun g) (process_sheets U W reg_dir st sheets).
Proof.
  induction sheets as [| sheet sheets IH]; intros st; simpl; [done |].
  intros Hsub Hok.
  assert (Hs : fs (state_of (process_sheet U W reg_dir st sheet)) ⊆ g).
  { destruct (process_sheet U W reg_dir st sheet) as [st1 | st1]; simpl in *; [| done].
    etrans; [apply (process_sheets_mono reg_dir sheets st1) | exact Hsub]. }
  assert (Hsok : no_failed_write W (process_sheet U W reg_dir st sheet)).
  { destruct (process_sheet U W reg_dir st sheet) as [st1 | st1] eqn:E; [| exact Hok].
    by eapply no_failed_write_next. }
  rewrite (process_sheet_rerun _ _ _ _ Hs Hsok).
  destruct (process_sheet U W reg_dir st sheet) as [st1 | st1]; simpl in *; [| done].
  by apply IH.
Qed.

(** What a second run does, in terms of the first. *)
Lemma scrape_regulation_again regulation f :
  let o1 := scrape_regulation U W regulation f in
  no_failed_write W o1 →
  scrape_regulation U W regulation (fs (state_of o1))
  = match mkdir f (reg_dir_of U regulation) with
    | Some _ => outcome_map (rerun (fs (state_of o1))) o1
    | None => o1
    end.
Proof.
  unfold scrape_regulation.
  destruct (mkdir f (reg_dir_of U regulation)) as [f1 |] eqn:Hmk; simpl; intros Hok.
  - destruct (fetch_sheet_names W) as [names |] eqn:Hnames; simpl.
    + set (o1 := process_sheets _ _ _ _ _) in *.
      assert (Hsub : f1 ⊆ fs (state_of o1)) by apply (process_sheets_mono _ _ (initial f1)).
      unfold mkdir in *. rewrite (mkdir_parents_again _ _ _ _ _ Hmk Hsub).
      apply (process_sheets_rerun _ _ _ (initial f1)); done.
    + unfold mkdir in *.
      by rewrite (mkdir_parents_again _ _ _ _ _ Hmk (reflexivity f1)).
  - by rewrite Hmk.
Qed.
End Rerun.

(** C1, refuted as stated: two different teams are listed as winners of
    the same event.  The first run saves one and finds the other's file
    existing; the second run finds both existing, one more than the first
    run saved. *)
Lemma second_run_counts_more :
  ∃ st1 st2,
    scrape_regulation unicode_excerpt (sample_world two_winners) (u "G") ∅ = Next st1
    ∧ scrape_regulation unicode_excerpt (sample_world two_winners) (u "G") (fs st1)
      = Next st2
    ∧ saved st1 = 1 ∧ skipped_existing st2 = 2
    ∧ skipped_existing st2 ≠ saved st1.
Proof.
  eexists. eexists. split; [vm_compute; reflexivity |].
  split; [vm_compute; reflexivity |]. vm_compute.
  repeat split; try reflexivity. discriminate.
Qed.

(** C1, amended: on an unchanged data source, when the first run was not
    cut short by a write that failed (it reached its summary, or writing
    a file never fails), a second run leaves the file system as the first
    run left it; it ends the way the first did, and when the first run
    reached its summary the second saves nothing and counts as already
    existing every file the first run saved or found existing: its
    [skipped_existing] is the first run's [saved] plus the first run's
    [skipped_existing]. *)
Theorem second_run_changes_nothing (U : unicode_tables) (W : world)
    (regulation : str) (f : gmap path node) :
  let o1 := scrape_regulation U W regulation f in
  let o2 := scrape_regulation U W regulation (fs (state_of o1)) in
  no_failed_write W o1 →
  fs (state_of o2) = fs (state_of o1)
  ∧ (∀ st1, o1 = Raised st1 → ∃ st2, o2 = Raised st2)
  ∧ (∀ st1, o1 = Next st1 →
       ∃ st2, o2 = Next st2
              ∧ saved st2 = 0
              ∧ skipped_existing st2 = saved st1 + skipped_existing st1
              ∧ skipped_banned st2 = skipped_banned st1
              ∧ skipped_duplicates st2 = skipped_duplicates st1).
Proof.
  intros o1 o2 Hok. subst o2.
  pose proof (scrape_regulation_again U W regulation f) as Hagain.
  cbv zeta in Hagain. fold o1 in Hagain. rewrite (Hagain Hok). clear Hagain.
  destruct (mkdir f (reg_dir_of U regulation)) as [f1 |] eqn:Hmk.
  - destruct o1 as [st1 | st1]; simpl.
    + split; [reflexivity |]. split; [discriminate |].
      intros ? [= <-]. eexists. split; [reflexivity |]. simpl. auto.
    + split; [reflexivity |]. split; [eauto | discriminate].
  - assert (Ho1 : o1 = Raised (initial f)).
    { subst o1. unfold scrape_regulation. by rewrite Hmk. }
    rewrite Ho1. split; [reflexivity |]. split; [eauto | discriminate].
Qed.

Lemma second_run_changes_nothing_witness :
  let o1 := scrape_regulation unicode_excerpt (sample_world two_winners) (u "G") ∅ in
  let o2 := scrape_regulation unicode_excerpt (sample_world two_winners) (u "G")
              (fs (state_of o1)) in
  fs (state_of o2) = fs (state_of o1)
  ∧ (∀ st1, o1 = Raised st1 → ∃ st2, o2 = Raised st2)
  ∧ (∀ st1, o1 = Next st1 →
       ∃ st2, o2 = Next st2
              ∧ saved st2 = 0
              ∧ skipped_existing st2 = saved st1 + skipped_existing st1
              ∧ skipped_banned st2 = skipped_banned st1
              ∧ skipped_duplicates st2 = skipped_duplicates st1).
Proof.
  intros o1 o2.
  apply (second_run_changes_nothing unicode_excerpt (sample_world two_winners)
           (u "G") ∅).
  left. eexists. vm_compute. reflexivity.
Defined.

(** Without that condition the claim fails.  The write of the winner's
    team raises: the first run is cut short with an empty file and
    nothing saved.  The second run finds that file existing, goes on and
    saves the runner-up: it ends otherwise, and leaves one more file. *)
Lemma second_run_after_failed_write :
  ∃ st1 st2,
    scrape_regulation unicode_excerpt (failing_world first_and_second) (u "G") ∅
      = Raised st1
    ∧ saved st1 = 0
    ∧ files_of (fs st1)
      = [([u "data"; u "teams"; u "regg"; u "portland_2024"; u "1st.txt"], [])]
    ∧ scrape_regulation unicode_excerpt (failing_world first_and_second) (u "G") (fs st1)
      = Next st2
    ∧ saved st2 = 1 ∧ skipped_existing st2 = 1
    ∧ length (files_of (fs st2)) = 2.
Proof.
  eexists. eexists. split; [vm_compute; reflexivity |].
  split; [reflexivity |]. split; [vm_compute; reflexivity |].
  split; [vm_compute; reflexivity |]. vm_compute. repeat split.
Qed.

(** ** Facts about the matcher *)

Section MatcherFacts.
Context {A : Type}.
Implicit Types (k : mstate → option A) (s : mstate) (p : N → bool).

Lemma mstate_eta s : at_state (ms_before s) (ms_rest s) (ms_groups s) = s.
Proof. by destruct s. Qed.

Lemma star_chr p k : ∀ fuel s,
  length (ms_rest s) ≤ fuel →
  star_loop (mk (Chr p)) fuel s k = greedy p (ms_before s) (ms_rest s) (ms_groups s) k.
Proof.
  induction fuel as [| fuel IH]; intros [b r g]; simpl; intros Hlen.
  - destruct r; simpl in *; [done | lia].
  - destruct r as [| c t]; simpl in *; [done |].
    destruct (p c); [| done].
    unfold progress, advance. simpl.
    destruct (Nat.ltb_spec (length t) (S (length t))); [| lia].
    rewrite IH by (simpl; lia). done.
Qed.

Lemma mk_star_chr p s k :
  mk (Star (Chr p)) s k = greedy p (ms_before s) (ms_rest s) (ms_groups s) k.
Proof. simpl. by apply star_chr. Qed.

Lemma lazy_chr p k : ∀ fuel s,
  length (ms_rest s) ≤ fuel →
  lazy_loop (mk (Chr p)) fuel s k = lazy p (ms_before s) (ms_rest s) (ms_groups s) k.
Proof.
  induction fuel as [| fuel IH]; intros [b r g]; simpl; intros Hlen.
  - destruct r; simpl in *; [done | lia].
  - destruct r as [| c t]; simpl in *.
    + by destruct (k _).
    + destruct (p c); [| done].
      unfold progress, advance. simpl.
      destruct (Nat.ltb_spec (length t) (S (length t))); [| lia].
      rewrite IH by (simpl; lia). done.
Qed.

Lemma mk_lazy_chr p s k :
  mk (LazyStar (Chr p)) s k = lazy p (ms_before s) (ms_rest s) (ms_groups s) k.
Proof. simpl. by apply lazy_chr. Qed.

Lemma mk_seqs_cons (r : re) (rs : list re) s k :
  mk (seqs (r :: rs)) s k = mk r s (fun s' => mk (seqs rs) s' k).
Proof. destruct rs; reflexivity. Qed.

(** A run of [p], then the rest of the pattern succeeds: so does the
    repetition (perhaps on a longer run). *)
Lemma greedy_is_Some p k g : ∀ run tl b,
  Forall (fun c => p c = true) run →
  is_Some (k (at_state (rev run ++ b) tl g)) →
  is_Some (greedy p b (run ++ tl) g k).
Proof.
  induction run as [| c run IH]; intros tl b Hrun Hk; simpl in *.
  - destruct tl as [| c t]; simpl; [done |].
    destruct (p c); [| done].
    destruct (greedy p (c :: b) t g k); simpl; [done | done].
  - inversion_clear Hrun as [| ? ? Hc Hrun']. rewrite Hc.
    assert (is_Some (greedy p (c :: b) (run ++ tl) g k)) as [x Hx].
    { apply IH; [done |]. by rewrite <- app_assoc in Hk. }
    by rewrite Hx.
Qed.

(** The longest run first: when the rest of the pattern succeeds after
    it, that is the result. *)
Lemma greedy_longest p k g x : ∀ run tl b,
  Forall (fun c => p c = true) run →
  match tl with c :: _ => p c = false | [] => True end →
  k (at_state (rev run ++ b) tl g) = Some x →
  greedy p b (run ++ tl) g k = Some x.
Proof.
  induction run as [| c run IH]; intros tl b Hrun Htl Hk; simpl in *.
  - destruct tl as [| c t]; simpl; [done |]. by rewrite Htl.
  - inversion_clear Hrun as [| ? ? Hc Hrun']. rewrite Hc.
    rewrite (IH tl (c :: b)); [done | done | done |].
    by rewrite <- app_assoc in Hk.
Qed.

(** Whatever the repetition returns, the rest of the pattern returned it
    after some run of [p]. *)
Lemma greedy_Some p k g x : ∀ rest b,
  greedy p b rest g k = Some x →
  ∃ run tl, rest = run ++ tl ∧ Forall (fun c => p c = true) run
            ∧ k (at_state (rev run ++ b) tl g) = Some x.
Proof.
  induction rest as [| c t IH]; intros b; simpl.
  - intros H. by exists [], [].
  - destruct (p c) eqn:Hc.
    + destruct (greedy p (c :: b) t g k) as [y |] eqn:Hg; simpl.
      * intros [= ->]. destruct (IH _ Hg) as (run & tl & -> & Hrun & Hk).
        exists (c :: run), tl. split; [done |]. split; [by constructor |].
        simpl. by rewrite <- app_assoc.
      * intros H. by exists [], (c :: t).
    + intros H. by exists [], (c :: t).
Qed.

Lemma lazy_Some p k g x : ∀ rest b,
  lazy p b rest g k = Some x →
  ∃ run tl, rest = run ++ tl ∧ Forall (fun c => p c = true) run
            ∧ k (at_state (rev run ++ b) tl g) = Some x.
Proof.
  induction rest as [| c t IH]; intros b; simpl.
  - intros H. by exists [], [].
  - destruct (k (at_state b (c :: t) g)) as [y |] eqn:Hk0; simpl.
    + intros [= ->]. by exists [], (c :: t).
    + destruct (p c) eqn:Hc; [| done]. intros Hl.
      destruct (IH _ Hl) as (run & tl & -> & Hrun & Hk).
      exists (c :: run), tl. split; [done |]. split; [by constructor |].
      simpl. by rewrite <- app_assoc.
Qed.

(** A sequence of character classes. *)
Lemma mk_chrs k : ∀ (ps : list (N → bool)) text tl b g,
  matched_by ps text →
  mk (seqs (map Chr ps)) (at_state b (text ++ tl) g) k
  = k (at_state (rev text ++ b) tl g).
Proof.
  induction ps as [| p ps IH]; intros text tl b g Hm.
  - by inversion Hm.
  - inversion Hm as [| ? c ? text' Hc Hm']; subst.
    rewrite map_cons, mk_seqs_cons. simpl. rewrite Hc.
    unfold advance; simpl. fold (at_state (c :: b) (text' ++ tl) g).
    rewrite IH by done. by rewrite <- app_assoc.
Qed.

Lemma mk_chrs_Some k x : ∀ (ps : list (N → bool)) rest b g,
  mk (seqs (map Chr ps)) (at_state b rest g) k = Some x →
  ∃ text tl, rest = text ++ tl ∧ matched_by ps text
             ∧ k (at_state (rev text ++ b) tl g) = Some x.
Proof.
  induction ps as [| p ps IH]; intros rest b g.
  - simpl. intros H. exists [], rest. split; [done |]. split; [constructor | done].
  - rewrite map_cons, mk_seqs_cons. simpl.
    destruct rest as [| c t]; [done |]. destruct (p c) eqn:Hc; [| done].
    unfold advance; simpl. fold (at_state (c :: b) t g). intros H.
    destruct (IH _ _ _ H) as (text & tl & -> & Hm & Hk).
    exists (c :: text), tl. split; [done |]. split; [by constructor |].
    simpl. by rewrite <- app_assoc.
Qed.

End MatcherFacts.

(** ** Substitution of runs *)

Lemma greedy_all (p : N → bool) (g : list (nat * str)) : ∀ rest b,
  ∃ b', greedy p b rest g Some = Some (at_state b' (lstrip_by p rest) g).
Proof.
  induction rest as [| c t IH]; intros b; simpl; [eauto |].
  destruct (p c); [| eauto].
  destruct (IH (c :: b)) as [b' ->]. simpl. eauto.
Qed.

Lemma lstrip_by_length (p : N → bool) (s : str) : length (lstrip_by p s) ≤ length s.
Proof. induction s as [| c t IH]; simpl; [done |]. destruct (p c); simpl; lia. Qed.

Lemma collapse_in_run (p : N → bool) (repl s : str) :
  collapse p repl true s = collapse p repl false (lstrip_by p s).
Proof.
  induction s as [| c t IH]; simpl; [done |].
  destruct (p c) eqn:Hc; simpl; [done |]. by rewrite Hc.
Qed.

Lemma match_here_plus (p : N → bool) (before t : str) (c : N) :
  match_here (Plus (Chr p)) before (c :: t)
  = if p c then greedy p (c :: before) t [] Some else None.
Proof.
  unfold match_here, Plus.
  change ((if p c then mk (Star (Chr p)) (advance c (start_state before (c :: t))) Some
           else None)
          = if p c then greedy p (c :: before) t [] Some else None).
  destruct (p c); [| done]. exact (mk_star_chr p _ Some).
Qed.

Lemma sub_go_plus (p : N → bool) (repl : str) : ∀ fuel rest before,
  length rest ≤ fuel →
  sub_go (Plus (Chr p)) repl fuel before rest = collapse p repl false rest.
Proof.
  induction fuel as [| fuel IH]; intros rest before Hlen.
  - destruct rest; simpl in *; [done | lia].
  - destruct rest as [| c t]; [done |].
    cbn [sub_go collapse]. rewrite match_here_plus.
    destruct (p c) eqn:Hc.
    + destruct (greedy_all p [] t (c :: before)) as [b' ->].
      cbn [ms_rest ms_before at_state].
      pose proof (lstrip_by_length p t) as Hl.
      destruct (Nat.ltb_spec (length (lstrip_by p t)) (length (c :: t))) as [_ | Hge];
        [| simpl in Hge; lia].
      rewrite IH by (simpl in Hlen; lia).
      by rewrite collapse_in_run.
    + rewrite IH by (simpl in Hlen; lia). done.
Qed.

Lemma re_sub_plus (p : N → bool) (repl s : str) :
  re_sub (Plus (Chr p)) repl s = collapse p repl false s.
Proof. unfold re_sub. by apply sub_go_plus. Qed.

(** ** What collapsing produces, and what it leaves alone *)

Lemma collapse_Forall (P : N → Prop) (p : N → bool) (repl : str) : ∀ s b,
  Forall P repl → Forall P s → Forall P (collapse p repl b s).
Proof.
  induction s as [| c t IH]; intros b Hrepl Hs; simpl; [constructor |].
  inversion_clear Hs as [| ? ? Hc Ht]. destruct (p c).
  - apply Forall_app. split; [by destruct b | by apply IH].
  - constructor; [done | by apply IH].
Qed.

Lemma collapse_chars (p : N → bool) (r : N) : ∀ s b,
  Forall (fun c => p c = false ∨ c = r) (collapse p [r] b s).
Proof.
  induction s as [| c t IH]; intros b; simpl; [constructor |].
  destruct (p c) eqn:Hc.
  - apply Forall_app. split; [| apply IH].
    destruct b; [constructor | by repeat constructor; right].
  - constructor; [by left | apply IH].
Qed.

Lemma collapse_no_double (p : N → bool) (r : N) : ∀ s,
  no_double p (collapse p [r] false s) ∧ head_not p (collapse p [r] true s)
  ∧ no_double p (collapse p [r] true s).
Proof.
  induction s as [| c t (IH1 & IH2 & IH3)]; simpl; [done |].
  destruct (p c) eqn:Hc; simpl.
  - split; [| done].
    destruct (collapse p [r] true t) as [| d t'] eqn:E; [done |].
    split; [| done]. intros _. exact IH2.
  - assert (H : no_double p (c :: collapse p [r] false t)).
    { destruct (collapse p [r] false t) as [| d t'] eqn:E; [done |].
      split; [| done]. intros Hc'. congruence. }
    done.
Qed.

Lemma collapse_fixed (p : N → bool) (r : N) : ∀ s,
  Forall (fun c => p c = true → c = r) s → no_double p s →
  collapse p [r] false s = s ∧ (head_not p s → collapse p [r] true s = s).
Proof.
  induction s as [| c t IH]; intros Hs Hnd; simpl; [done |].
  inversion_clear Hs as [| ? ? Hc Ht].
  assert (Hnd' : no_double p t) by (destruct t; [done | apply Hnd]).
  destruct (IH Ht Hnd') as [IH1 IH2].
  destruct (p c) eqn:Hpc.
  - split; [| simpl; congruence]. rewrite (Hc eq_refl). simpl. f_equal.
    apply IH2. destruct t as [| d t']; [done |]. simpl. by apply Hnd.
  - split; [by rewrite IH1 |]. intros _. by rewrite IH1.
Qed.

Lemma collapse_all (p : N → bool) (repl : str) : ∀ s,
  Forall (fun c => p c = true) s →
  collapse p repl true s = [] ∧ (s ≠ [] → collapse p repl false s = repl).
Proof.
  induction s as [| c t IH]; intros Hs; simpl; [done |].
  inversion_clear Hs as [| ? ? Hc Ht]. rewrite Hc. destruct (IH Ht) as [-> _].
  simpl. split; [done |]. intros _. by rewrite app_nil_r.
Qed.

(** ** Stripping *)

Lemma lstrip_by_idem (p : N → bool) (s : str) :
  lstrip_by p (lstrip_by p s) = lstrip_by p s.
Proof.
  induction s as [| c t IH]; simpl; [done |].
  destruct (p c) eqn:Hc; [done |]. simpl. by rewrite Hc.
Qed.

Lemma rstrip_by_cons (p : N → bool) (c : N) (t : str) :
  rstrip_by p (c :: t) = c :: t → rstrip_by p t = t.
Proof.
  simpl. destruct (rstrip_by p t) as [| d r] eqn:E.
  - destruct (p c); [done |]. by intros [= <-].
  - by intros [= <-].
Qed.

Lemma rstrip_by_idem (p : N → bool) (s : str) :
  rstrip_by p (rstrip_by p s) = rstrip_by p s.
Proof.
  induction s as [| c t IH]; simpl; [done |].
  destruct (rstrip_by p t) as [| d r] eqn:E.
  - destruct (p c) eqn:Hc; simpl; [done |]. by rewrite Hc.
  - simpl in *. by rewrite IH.
Qed.

Lemma rstrip_by_lstrip_by (p : N → bool) (s : str) :
  rstrip_by p s = s → rstrip_by p (lstrip_by p s) = lstrip_by p s.
Proof.
  induction s as [| c t IH]; [done |]. intros H.
  cbn [lstrip_by]. destruct (p c); [| done].
  apply IH. by eapply rstrip_by_cons.
Qed.

Lemma strip_by_idem (p : N → bool) (s : str) :
  strip_by p (strip_by p s) = strip_by p s.
Proof.
  unfold strip_by.
  rewrite (rstrip_by_lstrip_by p (rstrip_by p s)) by apply rstrip_by_idem.
  apply lstrip_by_idem.
Qed.

Lemma lstrip_by_Forall (P : N → Prop) (p : N → bool) (s : str) :
  Forall P s → Forall P (lstrip_by p s).
Proof.
  induction 1 as [| c t Hc Ht IH]; simpl; [constructor |].
  destruct (p c); [done | by constructor].
Qed.

Lemma rstrip_by_Forall (P : N → Prop) (p : N → bool) (s : str) :
  Forall P s → Forall P (rstrip_by p s).
Proof.
  induction 1 as [| c t Hc Ht IH]; simpl; [constructor |].
  destruct (rstrip_by p t); [destruct (p c); by repeat constructor | by constructor].
Qed.

Lemma no_double_tail (p : N → bool) (c : N) (t : str) :
  no_double p (c :: t) → no_double p t.
Proof. destruct t; [done | by intros [_ H]]. Qed.

Lemma lstrip_by_no_double (q p : N → bool) (s : str) :
  no_double p s → no_double p (lstrip_by q s).
Proof.
  induction s as [| c t IH]; [done |]. intros H. cbn [lstrip_by].
  destruct (q c); [| done]. apply IH. by eapply no_double_tail.
Qed.

Lemma rstrip_by_no_double (q p : N → bool) (s : str) :
  no_double p s → no_double p (rstrip_by q s).
Proof.
  induction s as [| c t IH]; [done |]. intros H.
  pose proof (IH (no_double_tail _ _ _ H)) as IH'. simpl.
  destruct (rstrip_by q t) as [| d r] eqn:E.
  - by destruct (q c).
  - split; [| done]. destruct t as [| d' t']; [done |].
    assert (d' = d) as ->.
    { simpl in E. destruct (rstrip_by q t'); [destruct (q d') |]; congruence. }
    apply H.
Qed.

(** ** ASCII text *)

Section AsciiText.
Variable U : unicode_tables.

Lemma nfkd_ascii (s : str) : Forall (fun c => is_ascii c = true) s → nfkd U s = s.
Proof.
  unfold nfkd. induction 1 as [| c t Hc Ht IH]; simpl; [done |].
  rewrite Hc. simpl. by rewrite IH.
Qed.

Lemma ascii_ignore_ascii (s : str) :
  Forall (fun c => is_ascii c = true) s → ascii_ignore s = s.
Proof.
  unfold ascii_ignore. induction 1 as [| c t Hc Ht IH]; [done |].
  rewrite filter_cons_True by done. by rewrite IH.
Qed.

Lemma ascii_ignore_is_ascii (s : str) :
  Forall (fun c => is_ascii c = true) (ascii_ignore s).
Proof. unfold ascii_ignore. apply Forall_forall. intros c Hc. by apply list_elem_of_filter in Hc as [? _]. Qed.

Lemma lower_ascii (s : str) :
  Forall (fun c => is_ascii c = true) s → lower U s = map ascii_lower s.
Proof.
  unfold lower. intros H. generalize (@nil N).
  induction H as [| c t Hc Ht IH]; intros b; simpl; [done |].
  rewrite Hc. simpl. by rewrite IH.
Qed.

End AsciiText.

(** ** slugify *)

Ltac char_cases :=
  unfold not_slug_char, ascii_lower, ascii_alpha, ascii_digit, is_ascii, in_range in *;
  repeat match goal with
  | |- context [N.leb ?a ?b] => destruct (N.leb_spec a b)
  | |- context [N.ltb ?a ?b] => destruct (N.ltb_spec a b)
  | |- context [N.eqb ?a ?b] => destruct (N.eqb_spec a b)
  | H : context [N.leb ?a ?b] |- _ => destruct (N.leb_spec a b)
  | H : context [N.ltb ?a ?b] |- _ => destruct (N.ltb_spec a b)
  | H : context [N.eqb ?a ?b] |- _ => destruct (N.eqb_spec a b)
  end;
  simpl in *; try discriminate; try lia; try tauto.

Lemma no_double_impl (p q : N → bool) (s : str) :
  Forall (fun c => p c = true → q c = true) s → no_double q s → no_double p s.
Proof.
  induction s as [| c t IH]; [done |]. intros Hs Hnd.
  inversion_clear Hs as [| ? ? Hc Ht].
  pose proof (IH Ht (no_double_tail _ _ _ Hnd)) as IH'.
  destruct t as [| d t']; [done |]. split; [| done].
  intros Hpc. inversion_clear Ht as [| ? ? Hd _]. destruct Hnd as [Hnd _].
  specialize (Hnd (Hc Hpc)). destruct (p d) eqn:Hpd; [| done].
  specialize (Hd eq_refl). congruence.
Qed.

Section Slugify.
Variable U : unicode_tables.

Lemma slugify_unfold (text : str) :
  slugify U text
  = strip_by (N.eqb 95)
      (collapse (N.eqb 95) [95%N] false
         (collapse not_slug_char [95%N] false (lower U (ascii_ignore (nfkd U text))))).
Proof. unfold slugify, chr_is. by rewrite !re_sub_plus. Qed.

Lemma slugify_slug_text (text : str) : slug_text (slugify U text).
Proof.
  rewrite slugify_unfold. unfold strip_by. split.
  - apply lstrip_by_Forall, rstrip_by_Forall, collapse_Forall; [by repeat constructor; right |].
    apply collapse_chars.
  - apply lstrip_by_no_double, rstrip_by_no_double, collapse_no_double.
Qed.

Lemma slug_text_fixed (s : str) :
  slug_text s → strip_by (N.eqb 95) s = s → slugify U s = s.
Proof.
  intros [Hchars Hnd] Hstrip. rewrite slugify_unfold.
  assert (Hascii : Forall (fun c => is_ascii c = true) s).
  { eapply Forall_impl; [exact Hchars |]. intros c [Hc | ->]; [| done]. char_cases. }
  rewrite (nfkd_ascii U s Hascii), (ascii_ignore_ascii s Hascii), (lower_ascii U s Hascii).
  assert (Hlow : map ascii_lower s = s).
  { clear -Hchars. induction Hchars as [| c t Hc Ht IH]; simpl; [done |]. f_equal; [| done].
    destruct Hc as [Hc | ->]; [| done]. char_cases. }
  rewrite Hlow.
  assert (H1 : collapse not_slug_char [95%N] false s = s).
  { apply collapse_fixed.
    - eapply Forall_impl; [exact Hchars |]. intros c [Hc | ->]; [congruence | done].
    - eapply no_double_impl; [| exact Hnd].
      eapply Forall_impl; [exact Hchars |]. intros c [Hc | ->]; [congruence | done]. }
  rewrite H1.
  assert (H2 : collapse (N.eqb 95) [95%N] false s = s).
  { apply collapse_fixed; [| done].
    apply Forall_forall. intros c _ Hc. by apply N.eqb_eq in Hc. }
  by rewrite H2.
Qed.

Lemma slugify_idempotent (text : str) : slugify U (slugify U text) = slugify U text.
Proof.
  apply slug_text_fixed; [apply slugify_slug_text |].
  rewrite slugify_unfold. apply strip_by_idem.
Qed.

Lemma slugify_no_alnum (text : str) :
  Forall (fun c => ascii_alpha c || ascii_digit c = false) (nfkd U text) →
  slugify U text = [].
Proof.
  intros Hsym. rewrite slugify_unfold.
  set (t := ascii_ignore (nfkd U text)).
  assert (Hascii : Forall (fun c => is_ascii c = true) t) by apply ascii_ignore_is_ascii.
  assert (Ht : Forall (fun c => ascii_alpha c || ascii_digit c = false) t).
  { apply Forall_forall. intros c Hc. apply list_elem_of_filter in Hc as [_ Hc].
    revert c Hc. by apply Forall_forall. }
  rewrite (lower_ascii U t Hascii).
  assert (Hall : Forall (fun c => not_slug_char c = true) (map ascii_lower t)).
  { apply Forall_map. eapply Forall_impl; [exact Ht |]. intros c Hc. simpl. char_cases. }
  destruct (collapse_all not_slug_char [95%N] _ Hall) as [_ Hrepl].
  destruct (map ascii_lower t) as [| c t'] eqn:E; [done |].
  rewrite Hrepl by done. reflexivity.
Qed.

End Slugify.

(** C7, refuted as stated: the trade mark sign is a symbol, not an
    alphanumeric character, and its slug is [tm], because NFKD replaces it
    by the letters [TM]. *)
Lemma slugify_trade_mark :
  Forall (fun c => isalnum unicode_excerpt c = false) [0x2122%N]
  ∧ slugify unicode_excerpt [0x2122%N] = u "tm".
Proof. split; [by repeat constructor | vm_compute; reflexivity]. Qed.

(** C7, amended: [slugify] is a total function and it is idempotent; it
    returns the empty string for the empty input and for every input
    whose NFKD decomposition has no ASCII letter or digit, in particular
    for every ASCII input without letters and digits. *)
Theorem slugify_idempotent_total (U : unicode_tables) (x : str) :
  slugify U (slugify U x) = slugify U x
  ∧ slugify U [] = []
  ∧ (Forall (fun c => ascii_alpha c || ascii_digit c = false) (nfkd U x) →
     slugify U x = [])
  ∧ (Forall (fun c => is_ascii c = true) x →
     Forall (fun c => ascii_alpha c || ascii_digit c = false) x →
     slugify U x = []).
Proof.
  split; [apply slugify_idempotent |]. split; [reflexivity |].
  split; [apply slugify_no_alnum |].
  intros Hascii Hsym. apply slugify_no_alnum. by rewrite nfkd_ascii.
Qed.

Lemma slugify_idempotent_total_witness :
  slugify unicode_excerpt (u "!?! -- ...") = [].
Proof.
  apply (slugify_idempotent_total unicode_excerpt (u "!?! -- ..."));
    vm_compute; repeat constructor.
Defined.

(** ** Banned abilities: what the check catches *)

Lemma search_go_is_Some (r : re) : ∀ pre rest b,
  is_Some (match_here r (rev pre ++ b) rest) → is_Some (search_go r b (pre ++ rest)).
Proof.
  induction pre as [| c pre IH]; intros rest b H; simpl in *.
  - destruct rest; simpl; destruct (match_here r b _); simpl; try done; by destruct H.
  - destruct (match_here r b (c :: pre ++ rest)); [done |].
    apply IH. by rewrite <- app_assoc in H.
Qed.

Lemma lit_ci_chrs (s : str) : lit_ci s = seqs (map Chr (map ci_eq s)).
Proof. unfold lit_ci. by rewrite map_map. Qed.

Lemma mk_assert {A : Type} (p : str → str → bool) (s : mstate) (k : mstate → option A) :
  p (ms_before s) (ms_rest s) = true → mk (Assert p) s k = k s.
Proof. simpl. by intros ->. Qed.

Lemma ability_line_found (name : string) (before after w1 a w2 i w3 : str) :
  (before = [] ∨ last before = Some 10%N) →
  Forall (fun c => isspace c = true) w1 →
  matched_by (map ci_eq (u "Ability:")) a →
  Forall (fun c => isspace c = true) w2 →
  matched_by (map ci_eq (u name)) i →
  Forall (fun c => isspace c = true) w3 →
  (after = [] ∨ head after = Some 10%N) →
  found (re_search (ability_is name) (before ++ w1 ++ a ++ w2 ++ i ++ w3 ++ after)) = true.
Proof.
  intros Hbefore Hw1 Ha Hw2 Hi Hw3 Hafter.
  assert (is_Some (re_search (ability_is name)
                     (before ++ w1 ++ a ++ w2 ++ i ++ w3 ++ after))) as [m ->]; [| done].
  apply search_go_is_Some. rewrite app_nil_r.
  unfold match_here, ability_is, start_state, ws, bol_multiline, eol_multiline.
  rewrite mk_seqs_cons, mk_assert; cycle 1.
  { simpl. destruct Hbefore as [-> | Hl]; [done |].
    destruct before as [| c t] using rev_ind; [done |].
    rewrite last_snoc in Hl. injection Hl as ->. by rewrite rev_unit. }
  rewrite mk_seqs_cons, mk_star_chr. apply greedy_is_Some; [done |]; cbv beta.
  rewrite mk_seqs_cons, lit_ci_chrs, mk_chrs by done.
  rewrite mk_seqs_cons, mk_star_chr. apply greedy_is_Some; [done |]; cbv beta.
  rewrite mk_seqs_cons, lit_ci_chrs, mk_chrs by done.
  rewrite mk_seqs_cons, mk_star_chr. apply greedy_is_Some; [done |]; cbv beta.
  simpl. destruct Hafter as [-> | Hh]; [done |].
  destruct after as [| c t]; [done |]. injection Hh as ->. done.
Qed.

(** C3, amended: a team text fails the check when one of its lines reads
    [Ability: Illusion] and nothing else, letter case aside, with optional
    whitespace before [Ability:], after the colon and after the name;
    what the other lines hold does not matter. *)
Theorem illusion_line_is_banned (before after w1 a w2 i w3 : str) :
  (before = [] ∨ last before = Some 10%N) →
  Forall (fun c => isspace c = true) w1 →
  matched_by (map ci_eq (u "Ability:")) a →
  Forall (fun c => isspace c = true) w2 →
  matched_by (map ci_eq (u "Illusion")) i →
  Forall (fun c => isspace c = true) w3 →
  (after = [] ∨ head after = Some 10%N) →
  has_banned_move_or_ability (before ++ w1 ++ a ++ w2 ++ i ++ w3 ++ after) = true.
Proof.
  intros. unfold has_banned_move_or_ability.
  by rewrite ability_line_found.
Qed.

Lemma illusion_line_is_banned_witness :
  has_banned_move_or_ability
    ((u "Zoroark @ Focus Sash" ++ nl) ++ u "  " ++ u "ability:" ++ u " "
       ++ u "ILLUSION" ++ u " " ++ (nl ++ u "EVs: 252 SpA")) = true.
Proof.
  apply (illusion_line_is_banned (u "Zoroark @ Focus Sash" ++ nl)
           (nl ++ u "EVs: 252 SpA") (u "  ") (u "ability:") (u " ")
           (u "ILLUSION") (u " "));
    vm_compute; first [by right | by repeat constructor].
Defined.

(** ** The ability line of a team member *)

Lemma line_tail_glastrier (b : str) (g : list (nat * str)) :
  mk line_tail (at_state b (u "As One (Glastrier)") g) Some
  = Some (at_state (rev (u "As One (Glastrier)") ++ b) [] ((2, u "As One (Glastrier)") :: g)).
Proof. vm_compute. reflexivity. Qed.

Lemma line_tail_spectrier (b : str) (g : list (nat * str)) :
  mk line_tail (at_state b (u "As One (Spectrier)") g) Some
  = Some (at_state (rev (u "As One (Spectrier)") ++ b) [] ((2, u "As One (Spectrier)") :: g)).
Proof. vm_compute. reflexivity. Qed.

Lemma mk_group {A : Type} (i : nat) (r : re) (s : mstate) (k : mstate → option A) :
  mk (Group i r) s k = mk r s (fun s' => k (capture i s s')).
Proof. reflexivity. Qed.

Lemma capital_a_not_space (c : N) : ci_eq 65 c = true → isspace c = false.
Proof.
  unfold ci_eq. change (ascii_lower 65) with 97%N.
  change (97 =? 105)%N with false. change (97 =? 115)%N with false.
  change (97 =? 107)%N with false. rewrite !andb_false_l, !orb_false_r.
  intros H. apply N.eqb_eq in H.
  assert (c = 65 ∨ c = 97)%N as [-> | ->]; [| reflexivity | reflexivity].
  unfold ascii_lower, in_range in H.
  destruct (N.leb_spec 65 c), (N.leb_spec c 90); cbn [andb] in H; lia.
Qed.

Lemma ability_not_space (a tl : str) :
  matched_by (map ci_eq (u "Ability:")) a → head_not isspace (a ++ tl).
Proof.
  unfold matched_by.
  change (map ci_eq (u "Ability:")) with (ci_eq 65 :: map ci_eq (u "bility:")).
  intros H. apply Forall2_cons_inv_l in H as (c & a' & Hc & _ & ->).
  by apply capital_a_not_space.
Qed.

Lemma take_app_consumed (x y : str) : take (length (x ++ y) - length y) (x ++ y) = x.
Proof. rewrite length_app. replace (length x + length y - length y) with (length x) by lia. by rewrite take_app_length. Qed.

Section AbilityLine.

(** A value the rewrite writes: the rest of the pattern takes it whole. *)
Variable asone : str.
Hypothesis asone_tail : ∀ b g,
  mk line_tail (at_state b asone g) Some
  = Some (at_state (rev asone ++ b) [] ((2, asone) :: g)).
Hypothesis asone_head : head_not isspace asone.

Lemma ability_line_rewritten (w1 a w2 : str) :
  Forall (fun c => isspace c = true) w1 →
  matched_by (map ci_eq (u "Ability:")) a →
  Forall (fun c => isspace c = true) w2 →
  ∃ m, re_match ability_line (w1 ++ a ++ w2 ++ asone) = Some m
       ∧ m_groups m = [(2, asone); (1, w1 ++ a ++ w2)].
Proof.
  intros Hw1 Ha Hw2.
  assert (∃ e, match_here ability_line [] (w1 ++ a ++ w2 ++ asone) = Some e
               ∧ ms_groups e = [(2, asone); (1, w1 ++ a ++ w2)]) as (e & He & Hg).
  { eexists. split.
    - unfold match_here, ability_line, bol.
      rewrite mk_seqs_cons, mk_assert by done.
      rewrite mk_seqs_cons, mk_group, mk_seqs_cons. unfold ws. rewrite mk_star_chr.
      cbn [start_state ms_before ms_rest ms_groups].
      apply greedy_longest; [done | by apply ability_not_space |]. cbv beta.
      rewrite mk_seqs_cons, lit_ci_chrs, mk_chrs by done.
      cbn [seqs]. rewrite mk_star_chr. cbn [at_state ms_before ms_rest ms_groups].
      apply greedy_longest; [done | done |]. cbv beta.
      unfold capture, consumed. cbn [at_state ms_before ms_rest ms_groups].
      exact (asone_tail _ _).
    - cbn [at_state ms_groups start_state ms_rest]. do 3 f_equal.
      rewrite !(app_assoc _ _ asone). by rewrite take_app_consumed. }
  exists (make_match [] (w1 ++ a ++ w2 ++ asone) e). split; [| done].
  unfold re_match. by rewrite He.
Qed.

End AbilityLine.

Lemma mk_assert_if {A : Type} (p : str → str → bool) (s : mstate) (k : mstate → option A) :
  mk (Assert p) s k = if p (ms_before s) (ms_rest s) then k s else None.
Proof. reflexivity. Qed.

Lemma mk_seq {A : Type} (r1 r2 : re) (s : mstate) (k : mstate → option A) :
  mk (Seq r1 r2) s k = mk r1 s (fun s' => mk r2 s' k).
Proof. reflexivity. Qed.

(** What a match of [ability_line] says about the line: the first group
    is whitespace, [Ability:] in some letter case, whitespace, at the
    start of the line. *)
Lemma ability_line_Some (line : str) (m : rmatch) :
  re_match ability_line line = Some m →
  ∃ w1 a w2 tl v,
    line = w1 ++ a ++ w2 ++ tl
    ∧ Forall (fun c => isspace c = true) w1
    ∧ matched_by (map ci_eq (u "Ability:")) a
    ∧ Forall (fun c => isspace c = true) w2
    ∧ m_groups m = [(2, v); (1, w1 ++ a ++ w2)].
Proof.
  unfold re_match. destruct (match_here ability_line [] line) as [e |] eqn:He; [| done].
  intros [= <-]. revert He.
  unfold match_here, ability_line, bol. rewrite mk_seqs_cons, mk_assert_if.
  cbn [start_state ms_before ms_rest]. rewrite bool_decide_eq_true_2 by done.
  rewrite mk_seqs_cons, mk_group, mk_seqs_cons. unfold ws. rewrite mk_star_chr.
  cbn [start_state at_state ms_before ms_rest ms_groups].
  intros H. apply greedy_Some in H as (w1 & tl1 & -> & Hw1 & H). revert H.
  rewrite mk_seqs_cons, lit_ci_chrs. intros H.
  apply mk_chrs_Some in H as (a & tl2 & -> & Ha & H). revert H.
  cbn [seqs]. rewrite mk_star_chr. cbn [start_state at_state ms_before ms_rest ms_groups].
  intros H. apply greedy_Some in H as (w2 & tl & -> & Hw2 & H). revert H.
  unfold capture, consumed. cbn [start_state at_state ms_before ms_rest ms_groups].
  rewrite mk_seq, mk_group. unfold dot. rewrite mk_lazy_chr.
  cbn [start_state at_state ms_before ms_rest ms_groups].
  intros H. apply lazy_Some in H as (v & tl3 & -> & _ & H). revert H.
  unfold capture, consumed. cbn [start_state at_state ms_before ms_rest ms_groups].
  rewrite mk_seq, mk_star_chr. cbn [start_state at_state ms_before ms_rest ms_groups].
  intros H. apply greedy_Some in H as (w3 & tl4 & -> & _ & H). revert H.
  unfold eol. rewrite mk_assert_if. cbn [start_state at_state ms_before ms_rest ms_groups].
  destruct (match tl4 with [] => true | [c] => (c =? 10)%N | _ => false end); [| done].
  intros [= <-].
  exists w1, a, w2, (v ++ w3 ++ tl4), (take (length (v ++ w3 ++ tl4) - length (w3 ++ tl4)) (v ++ w3 ++ tl4)).
  repeat split; try done.
  cbn [make_match m_groups ms_groups at_state]. do 3 f_equal.
  rewrite !(app_assoc _ _ (v ++ w3 ++ tl4)). by rewrite take_app_consumed.
Qed.

Lemma rstrip_by_app (p : N → bool) (x y : str) :
  y ≠ [] → rstrip_by p y = y → rstrip_by p (x ++ y) = x ++ y.
Proof.
  intros Hy Hfix. induction x as [| c x IH]; simpl; [done |].
  rewrite IH. destruct (x ++ y) eqn:E; [| done].
  apply app_eq_nil in E as [_ ->]. done.
Qed.

Section NormalizeLine.
Variable U : unicode_tables.

Lemma asone_value_facts (v : str) :
  is_asone_value v →
  (∀ b g, mk line_tail (at_state b v g) Some
          = Some (at_state (rev v ++ b) [] ((2, v) :: g)))
  ∧ head_not isspace v
  ∧ str_eqb (re_sub (Chr not_slug_char) [] (lower U v)) (u "asone") = false
  ∧ tidy_line v.
Proof.
  intros [-> | ->].
  - split; [apply line_tail_glastrier |]. split; [reflexivity |].
    split; [vm_compute; reflexivity |].
    split; [discriminate |]. split; [| vm_compute; reflexivity].
    vm_compute. repeat constructor.
  - split; [apply line_tail_spectrier |]. split; [reflexivity |].
    split; [vm_compute; reflexivity |].
    split; [discriminate |]. split; [| vm_compute; reflexivity].
    vm_compute. repeat constructor.
Qed.

(** A line is left as it is, whatever the form, or its ability value is
    replaced by the form. *)
Lemma normalize_line_cases (line : str) :
  (∀ asone, normalize_line U asone line = line)
  ∨ ∃ w1 a w2 tl,
      line = w1 ++ a ++ w2 ++ tl
      ∧ Forall (fun c => isspace c = true) w1
      ∧ matched_by (map ci_eq (u "Ability:")) a
      ∧ Forall (fun c => isspace c = true) w2
      ∧ ∀ asone, normalize_line U asone line = w1 ++ a ++ w2 ++ asone.
Proof.
  unfold normalize_line.
  destruct (re_match ability_line line) as [m |] eqn:Hm; [| by left].
  destruct (str_eqb _ _); [| by left]. right.
  apply ability_line_Some in Hm as (w1 & a & w2 & tl & v & -> & Hw1 & Ha & Hw2 & Hg).
  exists w1, a, w2, tl. repeat split; try done.
  intros asone. unfold group. rewrite Hg. simpl. by rewrite <- !app_assoc.
Qed.

(** A rewritten line is not rewritten again. *)
Lemma normalize_line_rewritten (asone' asone w1 a w2 : str) :
  is_asone_value asone →
  Forall (fun c => isspace c = true) w1 →
  matched_by (map ci_eq (u "Ability:")) a →
  Forall (fun c => isspace c = true) w2 →
  normalize_line U asone' (w1 ++ a ++ w2 ++ asone) = w1 ++ a ++ w2 ++ asone.
Proof.
  intros Hv Hw1 Ha Hw2.
  destruct (asone_value_facts asone Hv) as (Htail & Hhead & Hnorm & _).
  destruct (ability_line_rewritten asone Htail Hhead w1 a w2 Hw1 Ha Hw2)
    as (m & Hm & Hg).
  unfold normalize_line. rewrite Hm. unfold group. rewrite Hg. simpl.
  by rewrite Hnorm.
Qed.

Lemma normalize_line_fixed (asone' asone line : str) :
  is_asone_value asone →
  normalize_line U asone' (normalize_line U asone line) = normalize_line U asone line.
Proof.
  intros Hv.
  destruct (normalize_line_cases line) as [Hsame | (w1 & a & w2 & tl & -> & Hw1 & Ha & Hw2 & Hnew)].
  - by rewrite !Hsame.
  - rewrite Hnew. by apply normalize_line_rewritten.
Qed.

Lemma normalize_line_tidy (asone line : str) :
  is_asone_value asone → tidy_line line → tidy_line (normalize_line U asone line).
Proof.
  intros Hv (Hne & Hnl & Hrs).
  destruct (asone_value_facts asone Hv) as (_ & _ & _ & Hv1 & Hv2 & Hv3).
  destruct (normalize_line_cases line) as [Hsame | (w1 & a & w2 & tl & -> & Hw1 & Ha & Hw2 & Hnew)].
  - by rewrite Hsame.
  - rewrite Hnew. rewrite !app_assoc. split; [by destruct ((w1 ++ a) ++ w2) |].
    split.
    + apply Forall_app. split; [| done].
      rewrite !app_assoc in Hnl. by apply Forall_app in Hnl as [? _].
    + by apply rstrip_by_app.
Qed.

End NormalizeLine.

(** ** Lines *)

Lemma splitlines_cons_linebreak (c : N) (t : str) :
  is_linebreak c = true →
  ∃ t', splitlines (c :: t) = [] :: splitlines t' ∧ length t' ≤ length t.
Proof.
  intros Hc. cbn [splitlines]. rewrite Hc.
  destruct (decide (c = 13%N)) as [-> | Hne].
  - destruct t as [| d t']; [by exists [] |].
    destruct (decide (d = 10%N)) as [-> | Hd].
    + exists t'. split; [done | simpl; lia].
    + exists (d :: t'). split; [| done].
      destruct d as [| p]; [done |]. repeat (destruct p as [p | p |]; try done).
  - exists t. split; [| done].
    destruct c as [| p]; [done |]. repeat (destruct p as [p | p |]; try done).
Qed.

Lemma splitlines_no_linebreak_bounded (n : nat) : ∀ t,
  length t ≤ n → Forall (Forall (fun c => is_linebreak c = false)) (splitlines t).
Proof.
  induction n as [| n IH]; intros t Hlen.
  - destruct t; [constructor | simpl in Hlen; lia].
  - destruct t as [| c t]; [constructor |]. simpl in Hlen.
    destruct (is_linebreak c) eqn:Hc.
    + destruct (splitlines_cons_linebreak c t Hc) as (t' & -> & Hle).
      constructor; [constructor | apply IH; lia].
    + cbn [splitlines]. rewrite Hc.
      pose proof (IH t ltac:(lia)) as Ht.
      destruct (splitlines t) as [| l ls]; [by repeat constructor |].
      inversion_clear Ht as [| ? ? Hl Hls]. constructor; [by constructor | done].
Qed.

Lemma splitlines_no_linebreak (t : str) :
  Forall (Forall (fun c => is_linebreak c = false)) (splitlines t).
Proof. by apply (splitlines_no_linebreak_bounded (length t)). Qed.

Lemma splitlines_line (l rest : str) :
  Forall (fun c => is_linebreak c = false) l →
  splitlines (l ++ 10%N :: rest) = l :: splitlines rest.
Proof.
  induction 1 as [| c l Hc Hl IH]; [done |].
  cbn [app splitlines]. rewrite Hc. cbn [app] in IH. by rewrite IH.
Qed.

Lemma splitlines_text_of_lines (lines : list str) :
  Forall (Forall (fun c => is_linebreak c = false)) lines →
  splitlines (text_of_lines lines []) = lines.
Proof.
  induction 1 as [| l lines Hl Hlines IH]; [done |].
  cbn [text_of_lines foldr]. rewrite splitlines_line by done.
  f_equal. exact IH.
Qed.

(** ** Blocks *)

Lemma join_lines_newline (b : list str) (rest : str) :
  b ≠ [] → join [10%N] b ++ 10%N :: rest = text_of_lines b rest.
Proof.
  induction b as [| l b IH]; [done |]. intros _.
  destruct b as [| l2 b]; [done |].
  cbn [join text_of_lines foldr]. rewrite <- !app_assoc. cbn [app].
  f_equal. f_equal. by apply IH.
Qed.

Lemma text_of_lines_app (xs ys : list str) (rest : str) :
  text_of_lines (xs ++ ys) rest = text_of_lines xs (text_of_lines ys rest).
Proof. unfold text_of_lines. by rewrite foldr_app. Qed.

Lemma render_interleave (blocks : list (list str)) :
  blocks ≠ [] → Forall (fun b => b ≠ []) blocks →
  render blocks = text_of_lines (interleave blocks) [].
Proof.
  unfold render. induction blocks as [| b blocks IH]; [done |].
  intros _ Hne. inversion_clear Hne as [| ? ? Hb Hbs].
  destruct blocks as [| b2 blocks].
  - cbn [map join interleave]. by apply join_lines_newline.
  - cbn [map join interleave] in *. rewrite <- !app_assoc. cbn [app].
    rewrite join_lines_newline by done.
    rewrite text_of_lines_app. f_equal. cbn [text_of_lines foldr app].
    f_equal. by apply IH.
Qed.

Lemma interleave_cons (b b2 : list str) (blocks : list (list str)) :
  interleave (b :: b2 :: blocks) = b ++ [] :: interleave (b2 :: blocks).
Proof. reflexivity. Qed.

Lemma interleave_Forall (P : str → Prop) (blocks : list (list str)) :
  P [] → Forall (Forall P) blocks → Forall P (interleave blocks).
Proof.
  intros Hnil. induction 1 as [| b blocks Hb Hbs IH]; [constructor |].
  destruct blocks as [| b2 blocks]; [done |].
  cbn [interleave]. apply Forall_app. split; [done |]. by constructor.
Qed.

Lemma drop_trailing_empty_last (lines : list str) (l : str) :
  last lines = Some l → l ≠ [] → drop_trailing_empty lines = lines.
Proof.
  induction lines as [| x lines IH]; [done |]. intros Hlast Hl.
  destruct lines as [| y lines].
  - simpl in Hlast. injection Hlast as ->. by destruct l.
  - cbn [drop_trailing_empty]. cbn [drop_trailing_empty] in IH.
    rewrite IH by done. by destruct x.
Qed.

Lemma interleave_last (blocks : list (list str)) :
  blocks ≠ [] → Forall tidy_block blocks →
  ∃ l, last (interleave blocks) = Some l ∧ l ≠ [].
Proof.
  induction blocks as [| b blocks IH]; [done |]. intros _ Hb.
  inversion_clear Hb as [| ? ? [Hne Hlines] Hbs].
  destruct blocks as [| b2 blocks].
  - cbn [interleave]. destruct b as [| z b' _] using rev_ind; [done |].
    exists z. rewrite last_snoc. split; [done |].
    apply Forall_app in Hlines as [_ Hz]. inversion_clear Hz as [| ? ? [? _] _]. done.
  - destruct IH as (l & Hl & Hne'); [done | done |].
    exists l. split; [| done]. rewrite interleave_cons.
    by rewrite last_app, last_cons, Hl.
Qed.

Lemma split_blocks_app (b rest block : list str) :
  Forall (fun l => l ≠ []) b →
  split_blocks (b ++ rest) block = split_blocks rest (block ++ b).
Proof.
  revert block. induction b as [| l b IH]; intros block Hb.
  - by rewrite app_nil_r.
  - inversion_clear Hb as [| ? ? Hl Hb']. cbn [app split_blocks].
    destruct l as [| c l]; [done |]. rewrite IH by done.
    by rewrite <- app_assoc.
Qed.

Lemma split_blocks_interleave (blocks : list (list str)) :
  Forall tidy_block blocks → split_blocks (interleave blocks) [] = blocks.
Proof.
  induction 1 as [| b blocks [Hne Hlines] Hbs IH]; [done |].
  assert (Hb : Forall (fun l => l ≠ []) b).
  { eapply Forall_impl; [exact Hlines |]. by intros l [? _]. }
  destruct blocks as [| b2 blocks].
  - cbn [interleave]. rewrite <- (app_nil_r b) at 1.
    rewrite split_blocks_app by done. simpl. by destruct b.
  - rewrite interleave_cons, split_blocks_app by done.
    rewrite app_nil_l. destruct b as [| x b]; [done |].
    change (split_blocks ([] :: ?r) (x :: b)) with ((x :: b) :: split_blocks r []).
    by rewrite IH.
Qed.

(** Reading back what was written. *)
Lemma blocks_of_render (blocks : list (list str)) :
  Forall tidy_block blocks → blocks_of (render blocks) = blocks.
Proof.
  intros Hb. destruct blocks as [| b blocks]; [reflexivity |].
  assert (Hne : Forall (fun b => b ≠ []) (b :: blocks)).
  { eapply Forall_impl; [exact Hb |]. by intros ? [? _]. }
  unfold blocks_of. rewrite render_interleave by done.
  rewrite splitlines_text_of_lines; cycle 1.
  { apply interleave_Forall; [constructor |].
    eapply Forall_impl; [exact Hb |]. intros b' [_ Hl].
    eapply Forall_impl; [exact Hl |]. by intros l (_ & ? & _). }
  assert (Hrs : map rstrip (interleave (b :: blocks)) = interleave (b :: blocks)).
  { assert (H : Forall (fun l => rstrip l = l) (interleave (b :: blocks))).
    { apply interleave_Forall; [done |].
      eapply Forall_impl; [exact Hb |]. intros b' [_ Hl].
      eapply Forall_impl; [exact Hl |]. by intros l (_ & _ & ?). }
    induction H as [| l ls Hl Hls IH]; [done |]. simpl. by rewrite Hl, IH. }
  rewrite Hrs.
  assert (Hlead : drop_leading_empty (interleave (b :: blocks)) = interleave (b :: blocks)).
  { inversion_clear Hb as [| ? ? [Hbne Hlines] _].
    destruct b as [| x b]; [done |].
    inversion_clear Hlines as [| ? ? [Hx _] _].
    destruct x; [done |]. by destruct blocks. }
  rewrite Hlead.
  destruct (interleave_last (b :: blocks)) as (l & Hl & Hlne); [done | done |].
  rewrite (drop_trailing_empty_last _ l Hl Hlne).
  by apply split_blocks_interleave.
Qed.

(** ** The blocks of any text are tidy *)

Lemma drop_leading_empty_Forall (P : str → Prop) (lines : list str) :
  Forall P lines → Forall P (drop_leading_empty lines).
Proof.
  induction 1 as [| l lines Hl Hlines IH]; [constructor |].
  destruct l; [done | by constructor].
Qed.

Lemma drop_trailing_empty_Forall (P : str → Prop) (lines : list str) :
  Forall P lines → Forall P (drop_trailing_empty lines).
Proof.
  induction 1 as [| l lines Hl Hlines IH]; [constructor |]. simpl.
  destruct (drop_trailing_empty lines) as [| x r].
  - destruct l; [constructor | by constructor].
  - by constructor.
Qed.

Lemma split_blocks_tidy (lines : list str) : ∀ block,
  Forall line_ok lines → Forall tidy_line block →
  Forall tidy_block (split_blocks lines block).
Proof.
  induction lines as [| l lines IH]; intros block Hlines Hblock.
  - simpl. destruct block as [| x block]; [constructor |].
    constructor; [done | constructor].
  - inversion_clear Hlines as [| ? ? [Hl1 Hl2] Hrest]. cbn [split_blocks].
    destruct l as [| c l].
    + destruct block as [| l0 block']; [by apply IH |].
      constructor; [done | by apply IH].
    + apply IH; [done |]. apply Forall_app. split; [done |].
      constructor; [| constructor]. by split.
Qed.

Lemma blocks_of_tidy (team_text : str) : Forall tidy_block (blocks_of team_text).
Proof.
  unfold blocks_of. apply split_blocks_tidy; [| constructor].
  apply drop_trailing_empty_Forall, drop_leading_empty_Forall.
  apply Forall_map. eapply Forall_impl; [apply splitlines_no_linebreak |].
  intros l Hl. split; [by apply rstrip_by_Forall | apply rstrip_by_idem].
Qed.

(** ** normalize_team_text *)

Section NormalizeTeamText.
Variable U : unicode_tables.

Lemma asone_of_value (block : list str) : is_asone_value (asone_of U block).
Proof. unfold asone_of, is_asone_value. destruct (found _); auto. Qed.

Lemma normalize_team_text_render (team_text : str) :
  normalize_team_text U team_text = render (map (normalize_lines U) (blocks_of team_text)).
Proof.
  unfold normalize_team_text, render. fold (blocks_of team_text).
  by rewrite map_map.
Qed.

Lemma normalize_lines_tidy (block : list str) :
  tidy_block block → tidy_block (normalize_lines U block).
Proof.
  intros [Hne Hlines]. split; [by destruct block |].
  apply Forall_map. eapply Forall_impl; [exact Hlines |].
  intros l Hl. apply normalize_line_tidy; [apply asone_of_value | done].
Qed.

Lemma normalize_lines_fixed (block : list str) :
  normalize_lines U (normalize_lines U block) = normalize_lines U block.
Proof.
  unfold normalize_lines. rewrite map_map. apply map_ext.
  intros l. apply normalize_line_fixed, asone_of_value.
Qed.

(** C8: for every text, normalising the normalised text gives it back:
    stripping the line ends, trimming blank lines, cutting into blocks,
    rewriting [As One] abilities and writing the blocks with one blank
    line between them and one final newline is idempotent. *)
Theorem normalize_team_text_idempotent (t : str) :
  normalize_team_text U (normalize_team_text U t) = normalize_team_text U t.
Proof.
  rewrite (normalize_team_text_render t).
  set (blocks := map (normalize_lines U) (blocks_of t)).
  assert (Htidy : Forall tidy_block blocks).
  { apply Forall_map. eapply Forall_impl; [apply blocks_of_tidy |].
    intros b. apply normalize_lines_tidy. }
  rewrite normalize_team_text_render, (blocks_of_render blocks Htidy).
  f_equal. subst blocks. rewrite map_map. apply map_ext.
  intros b. apply normalize_lines_fixed.
Qed.

End NormalizeTeamText.

(** * Further properties *)

(** ** The shape of slugs and of the names built from them *)

Lemma lstrip_by_head (p : N → bool) (s : str) : head_not p (lstrip_by p s).
Proof. induction s as [| c t IH]; simpl; [done |]. destruct (p c) eqn:E; [done | exact E]. Qed.

Lemma rstrip_by_last (p : N → bool) (s : str) (c : N) :
  last (rstrip_by p s) = Some c → p c = false.
Proof.
  induction s as [| d t IH]; simpl; [done |].
  destruct (rstrip_by p t) as [| e r] eqn:E.
  - destruct (p d) eqn:Hd; [by intros [=] |]. by intros [= <-].
  - rewrite last_cons. destruct (last (e :: r)) eqn:El; [| by apply last_None in El].
    intros [= ->]. by apply IH.
Qed.

Lemma lstrip_by_last (p : N → bool) (s : str) (c : N) :
  last (lstrip_by p s) = Some c → last s = Some c.
Proof.
  induction s as [| d t IH]; simpl; [done |].
  destruct (p d); [| done]. intros H. rewrite last_cons, (IH H). done.
Qed.

Lemma strip_by_ends (p : N → bool) (s : str) :
  head_not p (strip_by p s) ∧ ∀ c, last (strip_by p s) = Some c → p c = false.
Proof.
  unfold strip_by. split; [apply lstrip_by_head |].
  intros c H. apply lstrip_by_last in H. by eapply rstrip_by_last.
Qed.

Lemma strip_by_none (p : N → bool) (s : str) :
  Forall (fun c => p c = false) s → strip_by p s = s.
Proof.
  intros H. unfold strip_by.
  assert (Hr : rstrip_by p s = s).
  { induction H as [| c t Hc Ht IH]; simpl; [done |]. rewrite IH, Hc. by destruct t. }
  rewrite Hr. destruct H as [| c t Hc Ht]; simpl; [done |]. by rewrite Hc.
Qed.

Section Shapes.
Variable U : unicode_tables.

Lemma slugify_chars (text : str) :
  Forall (fun c => slug_char c = true ∨ c = 95%N) (slugify U text).
Proof.
  destruct (slugify_slug_text U text) as [Hchars _].
  eapply Forall_impl; [exact Hchars |]. intros c [Hc | ->]; [left | by right].
  unfold not_slug_char in Hc. by apply negb_false_iff in Hc.
Qed.

Lemma slugify_ends (text : str) :
  head_not (N.eqb 95) (slugify U text)
  ∧ (∀ c, last (slugify U text) = Some c → c ≠ 95%N).
Proof.
  rewrite slugify_unfold.
  destruct (strip_by_ends (N.eqb 95)
              (collapse (N.eqb 95) [95%N] false
                 (collapse not_slug_char [95%N] false
                    (lower U (ascii_ignore (nfkd U text)))))) as [Hh Hl].
  split; [done |]. intros c Hc ->. by specialize (Hl _ Hc).
Qed.

(** X1: a slug consists of lower-case ASCII letters, digits and
    underscores; it neither starts nor ends with an underscore and holds
    no two underscores in a row. *)
Theorem slugify_shape (text : str) :
  Forall (fun c => slug_char c = true ∨ c = 95%N) (slugify U text)
  ∧ no_double (N.eqb 95) (slugify U text)
  ∧ head_not (N.eqb 95) (slugify U text)
  ∧ (∀ c, last (slugify U text) = Some c → c ≠ 95%N).
Proof.
  destruct (slugify_slug_text U text) as [_ Hnd].
  destruct (slugify_ends text) as [Hh Hl].
  split; [apply slugify_chars |]. split; [exact Hnd |]. split; [exact Hh | exact Hl].
Qed.

Lemma slug_first_char (s : str) :
  Forall (fun c => slug_char c = true ∨ c = 95%N) s → head_not (N.eqb 95) s → s ≠ [] →
  ∃ c rest, s = c :: rest ∧ slug_char c = true.
Proof.
  intros Hs Hh Hne. destruct s as [| c rest]; [done |]. exists c, rest. split; [done |].
  inversion_clear Hs as [| ? ? [Hc | ->] _]; [done |]. simpl in Hh. discriminate.
Qed.

Lemma slug_no_space (s : str) :
  Forall (fun c => slug_char c = true ∨ c = 95%N) s → strip s = s.
Proof.
  intros Hs. apply strip_by_none. eapply Forall_impl; [exact Hs |].
  intros c [Hc | ->]; [| reflexivity].
  unfold slug_char, in_range in Hc. unfold isspace, in_range.
  destruct (N.leb_spec 97 c), (N.leb_spec c 122), (N.leb_spec 48 c), (N.leb_spec c 57);
    simpl in Hc; try discriminate;
    repeat match goal with
    | |- context [N.leb ?a ?b] => destruct (N.leb_spec a b); try lia
    | |- context [N.eqb ?a ?b] => destruct (N.eqb_spec a b); try lia
    end; reflexivity.
Qed.

(** X2: a placement file name consists of lower-case ASCII letters,
    digits and underscores only, so it holds no path separator and no
    dot. *)
Theorem placement_to_filename_chars (placement : str) :
  Forall (fun c => slug_char c = true ∨ c = 95%N) (placement_to_filename U placement).
Proof.
  unfold placement_to_filename.
  destruct (_ || _); [by repeat constructor; left |].
  destruct (str_eqb _ _); [by repeat constructor; left |].
  pose proof (slugify_chars (strip placement)) as Hs.
  destruct (slugify U (strip placement)); [| done].
  simpl. repeat (constructor; [first [by left | by right] |]). constructor.
Qed.

(** X3: the name of a placement is its own name: [placement_to_filename]
    is idempotent. *)
Theorem placement_to_filename_idempotent (placement : str) :
  placement_to_filename U (placement_to_filename U placement)
  = placement_to_filename U placement.
Proof.
  assert (Hfixed : ∀ s, s = u "1st" ∨ s = u "2nd" ∨ s = u "unknown_placement" →
                        placement_to_filename U s = s).
  { intros s [-> | [-> | ->]]; vm_compute; reflexivity. }
  set (r := placement_to_filename U placement).
  assert (Hr : r = placement_to_filename U placement) by reflexivity.
  unfold placement_to_filename in Hr.
  destruct (_ || _) eqn:E1 in Hr; [apply Hfixed; auto |].
  destruct (str_eqb _ (u "runner_up")) eqn:E2 in Hr; [apply Hfixed; auto |].
  destruct (slugify U (strip placement)) as [| c rest] eqn:Es;
    [apply Hfixed; auto |].
  cbn [str_or] in Hr. rewrite <- Es in Hr, E1, E2.
  pose proof (slugify_chars (strip placement)) as Hs.
  rewrite Hr. unfold placement_to_filename.
  rewrite (slug_no_space _ Hs), slugify_idempotent, E1, E2, Es. reflexivity.
Qed.

(** X4: an event directory name is never empty and starts with a
    lower-case ASCII letter or a digit, whatever the event name and date;
    it is never a dot name, a hidden name or an absolute path. *)
Theorem event_dir_name_first_char (event_name date_str : str) :
  ∃ c rest, event_dir_name U event_name date_str = c :: rest ∧ slug_char c = true.
Proof.
  unfold event_dir_name.
  set (a := slugify U _). set (b := slugify U _).
  assert (Hbase : ∃ c rest, str_or a (str_or b (u "event")) = c :: rest
                            ∧ slug_char c = true).
  { destruct a as [| ca ra] eqn:Ea.
    - destruct b as [| cb rb] eqn:Eb; [by exists 101%N, (u "vent") |].
      cbn [str_or]. rewrite <- Eb. subst b.
      pose proof (slugify_chars (normalize_event_name U event_name)) as H1.
      destruct (slugify_ends (normalize_event_name U event_name)) as [H2 _].
      apply slug_first_char; [exact H1 | exact H2 | rewrite Eb; discriminate].
    - cbn [str_or]. rewrite <- Ea. subst a.
      match goal with |- context [slugify U ?x] =>
        pose proof (slugify_chars x) as H1; destruct (slugify_ends x) as [H2 _] end.
      apply slug_first_char; [exact H1 | exact H2 | rewrite Ea; discriminate]. }
  destruct Hbase as (c & rest & -> & Hc).
  destruct (re_search _ event_name); [by exists c, (rest ++ u "_" ++ group 1 r) |].
  destruct (parse_event_date U date_str); [| by exists c, rest].
  by exists c, (rest ++ u "_" ++ str_of_N (year d)).
Qed.

(** X5: in a normalised event name every whitespace character is a
    single space between two other characters: none at either end, no
    two in a row. *)
Theorem normalize_event_name_spacing (event_name : str) :
  Forall (fun c => isspace c = true → c = 32%N) (normalize_event_name U event_name)
  ∧ no_double isspace (normalize_event_name U event_name)
  ∧ head_not isspace (normalize_event_name U event_name)
  ∧ (∀ c, last (normalize_event_name U event_name) = Some c → isspace c = false).
Proof.
  unfold normalize_event_name, ws. rewrite re_sub_plus.
  set (t := collapse isspace (u " ") false _).
  assert (H1 : Forall (fun c => isspace c = true → c = 32%N) t).
  { eapply Forall_impl; [apply (collapse_chars isspace 32) |].
    intros c [Hc | ->]; [congruence | done]. }
  assert (H2 : no_double isspace t) by apply (collapse_no_double isspace 32).
  unfold strip. split; [by apply lstrip_by_Forall, rstrip_by_Forall |].
  split; [by apply lstrip_by_no_double, rstrip_by_no_double |].
  apply strip_by_ends.
Qed.

End Shapes.

(** ** Banned abilities, exactly *)

Lemma search_go_Some (r : re) (m : rmatch) : ∀ rest b,
  search_go r b rest = Some m →
  ∃ pre post e, rest = pre ++ post ∧ match_here r (rev pre ++ b) post = Some e.
Proof.
  induction rest as [| c t IH]; intros b; simpl.
  - destruct (match_here r b []) as [e |] eqn:He; [| done].
    intros _. by exists [], [], e.
  - destruct (match_here r b (c :: t)) as [e |] eqn:He.
    + intros _. by exists [], (c :: t), e.
    + intros H. destruct (IH _ H) as (pre & post & e & -> & He').
      exists (c :: pre), post, e. split; [done |].
      simpl. by rewrite <- app_assoc.
Qed.

Lemma ability_stretch_search (name : string) (text : str) :
  found (re_search (ability_is name) text) = true → has_ability_stretch name text.
Proof.
  unfold re_search. destruct (search_go _ [] text) as [m |] eqn:Hs; [| done].
  intros _. apply search_go_Some in Hs as (before & post & e & -> & He).
  rewrite app_nil_r in He. revert He.
  unfold match_here, ability_is, bol_multiline, eol_multiline, ws.
  rewrite mk_seqs_cons, mk_assert_if.
  cbn [start_state at_state ms_before ms_rest ms_groups].
  destruct (match rev before with [] => true | c :: _ => (c =? 10)%N end) eqn:Hbol;
    [| done].
  rewrite mk_seqs_cons, mk_star_chr.
  cbn [start_state at_state ms_before ms_rest ms_groups].
  intros H. apply greedy_Some in H as (w1 & tl1 & -> & Hw1 & H). revert H.
  rewrite mk_seqs_cons, lit_ci_chrs. intros H.
  apply mk_chrs_Some in H as (a & tl2 & -> & Ha & H). revert H.
  rewrite mk_seqs_cons, mk_star_chr.
  cbn [start_state at_state ms_before ms_rest ms_groups].
  intros H. apply greedy_Some in H as (w2 & tl3 & -> & Hw2 & H). revert H.
  rewrite mk_seqs_cons, lit_ci_chrs. intros H.
  apply mk_chrs_Some in H as (i & tl4 & -> & Hi & H). revert H.
  rewrite mk_seqs_cons, mk_star_chr.
  cbn [start_state at_state ms_before ms_rest ms_groups].
  intros H. apply greedy_Some in H as (w3 & after & -> & Hw3 & H). revert H.
  cbn [seqs]. rewrite mk_assert_if.
  cbn [start_state at_state ms_before ms_rest ms_groups].
  destruct (match after with [] => true | c :: _ => (c =? 10)%N end) eqn:Heol;
    [| done].
  intros _. exists before, w1, a, w2, i, w3, after.
  repeat split; try done.
  - destruct before as [| c t _] using rev_ind; [by left |]. right.
    rewrite rev_unit in Hbol. apply N.eqb_eq in Hbol as ->. by rewrite last_snoc.
  - destruct after as [| c t]; [by left |]. right.
    apply N.eqb_eq in Heol as ->. done.
Qed.

Lemma has_ability_stretch_found (name : string) (text : str) :
  has_ability_stretch name text → found (re_search (ability_is name) text) = true.
Proof.
  intros (before & w1 & a & w2 & i & w3 & after & -> & ? & ? & ? & ? & ? & ? & ?).
  by apply ability_line_found.
Qed.

(** X6: a team text is flagged exactly when it holds, from the start of
    a line to the end of a line, a stretch that reads [Ability: Illusion]
    or [Ability: Commander], letter case and whitespace aside.  The
    whitespace may hold line breaks, so the stretch need not be one
    line. *)
Theorem banned_iff_ability_stretch (team_text : str) :
  has_banned_move_or_ability team_text = true
  ↔ has_ability_stretch "Illusion" team_text ∨ has_ability_stretch "Commander" team_text.
Proof.
  unfold has_banned_move_or_ability. split.
  - destruct (found (re_search (ability_is "Illusion") team_text)) eqn:E1;
      [left; by apply ability_stretch_search |].
    destruct (found (re_search (ability_is "Commander") team_text)) eqn:E2;
      [right; by apply ability_stretch_search | done].
  - intros [H | H]; apply has_ability_stretch_found in H; rewrite H; [done |].
    by destruct (found (re_search (ability_is "Illusion") team_text)).
Qed.

Lemma banned_iff_ability_stretch_witness :
  has_banned_move_or_ability
    ((u "Tatsugiri @ Choice Scarf" ++ nl) ++ [] ++ u "Ability:" ++ u " "
       ++ u "commander" ++ u "  " ++ []) = true.
Proof.
  apply (proj2 (banned_iff_ability_stretch _)). right.
  exists (u "Tatsugiri @ Choice Scarf" ++ nl), [], (u "Ability:"), (u " "),
    (u "commander"), (u "  "), [].
  split; [reflexivity |]. split; [by right |].
  repeat split; try (by left); vm_compute; repeat constructor.
Defined.

(** The stretch may span lines: a text is flagged in which [Ability:]
    and [Illusion] stand on different lines, with an empty line between
    them, and in which no line is flagged when taken alone. *)
Lemma ability_across_lines_is_banned :
  has_banned_move_or_ability
    (u "Zoroark" ++ nl ++ u "Ability:" ++ nl ++ nl ++ u "Illusion" ++ nl) = true
  ∧ Forall (fun line => has_banned_move_or_ability line = false)
      [u "Zoroark"; u "Ability:"; []; u "Illusion"].
Proof. split; [vm_compute; reflexivity | vm_compute; repeat constructor]. Qed.

(** ** The shape of normalised team text *)

Lemma join_last (sep : str) (parts : list str) (p : str) (c : N) :
  last parts = Some p → last p = Some c → last (join sep parts) = Some c.
Proof.
  induction parts as [| q parts IH]; [done |]. intros Hp Hc.
  destruct parts as [| q2 parts].
  - simpl in *. by injection Hp as ->.
  - change (join sep (q :: q2 :: parts)) with (q ++ sep ++ join sep (q2 :: parts)).
    rewrite !last_app, IH; [done | | done].
    rewrite last_cons in Hp.
    destruct (last (q2 :: parts)) eqn:E; [done | by apply last_None in E].
Qed.

Lemma tidy_line_last (l : str) :
  tidy_line l → ∃ c, last l = Some c ∧ isspace c = false.
Proof.
  intros (Hne & _ & Hrs). destruct (last l) as [c |] eqn:Hl.
  - exists c. split; [done |]. rewrite <- Hrs in Hl. by eapply rstrip_by_last.
  - by apply last_None in Hl.
Qed.

Section TeamTextShape.
Variable U : unicode_tables.

Lemma normalize_lines_blocks_tidy (team_text : str) :
  Forall tidy_block (map (normalize_lines U) (blocks_of team_text)).
Proof.
  apply Forall_map. eapply Forall_impl; [apply blocks_of_tidy |].
  intros b. apply normalize_lines_tidy.
Qed.

(** X7: normalised team text is the text written for some blocks of
    lines in which every block has a line, and every line is not empty,
    holds no line boundary and ends without whitespace; the blocks are
    written with one empty line between them. *)
Theorem normalize_team_text_shape (team_text : str) :
  ∃ blocks, Forall tidy_block blocks ∧ normalize_team_text U team_text = render blocks.
Proof.
  exists (map (normalize_lines U) (blocks_of team_text)).
  split; [apply normalize_lines_blocks_tidy | apply normalize_team_text_render].
Qed.

(** X8: normalised team text ends with exactly one newline: what
    precedes it is empty or ends with a character that is not
    whitespace. *)
Theorem normalize_team_text_one_final_newline (team_text : str) :
  ∃ body, normalize_team_text U team_text = body ++ [10%N]
          ∧ ∀ c, last body = Some c → isspace c = false.
Proof.
  pose proof (normalize_lines_blocks_tidy team_text) as Htidy.
  rewrite normalize_team_text_render.
  revert Htidy. generalize (map (normalize_lines U) (blocks_of team_text)).
  intros blocks Htidy.
  unfold render. eexists. split; [reflexivity |].
  intros c Hc.
  destruct (last blocks) as [b |] eqn:Hb; cycle 1.
  { apply last_None in Hb. subst blocks. discriminate. }
  assert (Hbt : tidy_block b).
  { eapply Forall_forall; [exact Htidy |]. apply list_elem_of_lookup.
    rewrite last_lookup in Hb. eauto. }
  destruct Hbt as [Hbne Hlines].
  destruct (last b) as [l |] eqn:Hl; [| by apply last_None in Hl].
  assert (Hlt : tidy_line l).
  { eapply Forall_forall; [exact Hlines |]. apply list_elem_of_lookup.
    rewrite last_lookup in Hl. eauto. }
  destruct (tidy_line_last l Hlt) as (d & Hd & Hspace).
  assert (Hjoin : last (join [10%N; 10%N] (map (join [10%N]) blocks)) = Some d).
  { eapply join_last; [| eapply join_last; [exact Hl | exact Hd]].
    change (map (join [10%N]) blocks) with (join [10%N] <$> blocks).
    by rewrite fmap_last, Hb. }
  rewrite Hjoin in Hc. by injection Hc as <-.
Qed.

End TeamTextShape.

(** ** Blank text *)

Lemma splitlines_chars_bounded (P : N → Prop) (n : nat) : ∀ t,
  length t ≤ n → Forall P t → Forall (Forall P) (splitlines t).
Proof.
  induction n as [| n IH]; intros t Hlen Ht.
  - destruct t; [constructor | simpl in Hlen; lia].
  - destruct t as [| c t]; [constructor |]. simpl in Hlen.
    inversion_clear Ht as [| ? ? Hc Ht'].
    cbn [splitlines]. destruct (is_linebreak c).
    + assert (Hrest : Forall (Forall P) ([] :: splitlines t)).
      { constructor; [constructor | apply IH; [lia | done]]. }
      destruct t as [| d t'].
      * by destruct c as [| p]; [| repeat (destruct p as [p | p |]; try done)].
      * assert (Hskip : Forall (Forall P) ([] :: splitlines t')).
        { constructor; [constructor |]. apply IH; [simpl in Hlen; lia |].
          by inversion_clear Ht'. }
        destruct c as [| p]; [done |].
        repeat (destruct p as [p | p |]; try done).
        destruct d as [| q]; [done |].
        repeat (destruct q as [q | q |]; try done).
    + pose proof (IH t ltac:(lia) Ht') as Hl.
      destruct (splitlines t) as [| l ls]; [by repeat constructor |].
      inversion_clear Hl. constructor; [by constructor | done].
Qed.

Lemma splitlines_chars (P : N → Prop) (t : str) :
  Forall P t → Forall (Forall P) (splitlines t).
Proof. by apply (splitlines_chars_bounded P (length t)). Qed.

Lemma rstrip_by_all (p : N → bool) (s : str) :
  Forall (fun c => p c = true) s → rstrip_by p s = [].
Proof. induction 1 as [| c t Hc Ht IH]; simpl; [done |]. by rewrite IH, Hc. Qed.

Lemma drop_leading_empty_all (lines : list str) :
  Forall (fun l => l = []) lines → drop_leading_empty lines = [].
Proof. induction 1 as [| l lines -> Hl IH]; simpl; done. Qed.

Section Blank.
Variable U : unicode_tables.

(** X9: a text of whitespace only (the empty text included) normalises
    to a single newline. *)
Theorem normalize_team_text_blank (team_text : str) :
  Forall (fun c => isspace c = true) team_text →
  normalize_team_text U team_text = [10%N].
Proof.
  intros Hblank. unfold normalize_team_text.
  rewrite drop_leading_empty_all; [reflexivity |].
  apply Forall_map. eapply Forall_impl; [apply splitlines_chars, Hblank |].
  intros l Hl. by apply rstrip_by_all.
Qed.

End Blank.

Lemma normalize_team_text_blank_witness :
  normalize_team_text unicode_excerpt (u "  " ++ nl ++ nl ++ u " ") = [10%N].
Proof.
  apply (normalize_team_text_blank unicode_excerpt (u "  " ++ nl ++ nl ++ u " ")).
  vm_compute. repeat constructor.
Defined.


(** ** The rewrite of [As One] *)

Lemma line_tail_as_one (b : str) (g : list (nat * str)) :
  mk line_tail (at_state b (u "As One") g) Some
  = Some (at_state (rev (u "As One") ++ b) [] ((2, u "As One") :: g)).
Proof. vm_compute. reflexivity. Qed.

Section AsOne.
Variable U : unicode_tables.

(** X10: an ability line whose value is [As One] is rewritten to the
    form of its block; the text up to the value (indentation, [Ability:]
    as it was spelt, the whitespace after it) is kept. *)
Theorem as_one_rewritten (asone w1 a w2 : str) :
  Forall (fun c => isspace c = true) w1 →
  matched_by (map ci_eq (u "Ability:")) a →
  Forall (fun c => isspace c = true) w2 →
  normalize_line U asone (w1 ++ a ++ w2 ++ u "As One") = w1 ++ a ++ w2 ++ asone.
Proof.
  intros Hw1 Ha Hw2.
  destruct (ability_line_rewritten (u "As One") line_tail_as_one eq_refl
              w1 a w2 Hw1 Ha Hw2) as (m & Hm & Hg).
  unfold normalize_line. rewrite Hm. unfold group. rewrite Hg.
  cbn [lookup_group Nat.eqb default].
  replace (str_eqb _ (u "asone")) with true by (vm_compute; reflexivity).
  cbv [id]. by rewrite <- !app_assoc.
Qed.

(** X11: a line the normaliser changes is an ability line, and only its
    value changes: the line starts with optional whitespace, [Ability:]
    in some letter case and optional whitespace, and that start is
    followed by the form in the result. *)
Theorem only_ability_values_rewritten (asone line : str) :
  normalize_line U asone line ≠ line →
  ∃ w1 a w2 value,
    line = w1 ++ a ++ w2 ++ value
    ∧ Forall (fun c => isspace c = true) w1
    ∧ matched_by (map ci_eq (u "Ability:")) a
    ∧ Forall (fun c => isspace c = true) w2
    ∧ normalize_line U asone line = w1 ++ a ++ w2 ++ asone.
Proof.
  intros Hchanged.
  destruct (normalize_line_cases U line)
    as [Hsame | (w1 & a & w2 & tl & -> & Hw1 & Ha & Hw2 & Hnew)].
  - by rewrite Hsame in Hchanged.
  - exists w1, a, w2, tl. by rewrite Hnew.
Qed.

End AsOne.

Lemma as_one_rewritten_witness :
  normalize_line unicode_excerpt (u "As One (Glastrier)")
    (u "  " ++ u "ability:" ++ u " " ++ u "As One")
  = u "  " ++ u "ability:" ++ u " " ++ u "As One (Glastrier)".
Proof.
  apply (as_one_rewritten unicode_excerpt (u "As One (Glastrier)")
           (u "  ") (u "ability:") (u " ")); vm_compute; repeat constructor.
Defined.

Lemma only_ability_values_rewritten_witness :
  ∃ w1 a w2 value,
    u "Ability: as-one" = w1 ++ a ++ w2 ++ value
    ∧ Forall (fun c => isspace c = true) w1
    ∧ matched_by (map ci_eq (u "Ability:")) a
    ∧ Forall (fun c => isspace c = true) w2
    ∧ normalize_line unicode_excerpt (u "As One (Spectrier)") (u "Ability: as-one")
      = w1 ++ a ++ w2 ++ u "As One (Spectrier)".
Proof.
  apply (only_ability_values_rewritten unicode_excerpt (u "As One (Spectrier)")
           (u "Ability: as-one")).
  vm_compute. discriminate.
Defined.

(** ** The form chosen for a block *)

Section Forme.
Variable U : unicode_tables.

Lemma calyrex_ice_ends (x : str) :
  matched_by (map ci_eq (u "Calyrex-Ice")) x →
  ∃ c mid e, x = c :: mid ++ [e] ∧ isword U c = true ∧ isword U e = true.
Proof.
  unfold matched_by.
  change (map ci_eq (u "Calyrex-Ice"))
    with ([ci_eq 67] ++ map ci_eq (u "alyrex-Ic") ++ [ci_eq 101]).
  intros H.
  apply Forall2_app_inv_l in H as (k1 & k23 & H1 & H23 & ->).
  apply Forall2_app_inv_l in H23 as (mid & k3 & _ & H3 & ->).
  apply Forall2_cons_inv_l in H1 as (c & k1' & Hc & H1' & ->).
  apply Forall2_nil_inv_l in H1' as ->.
  apply Forall2_cons_inv_l in H3 as (e & k3' & He & H3' & ->).
  apply Forall2_nil_inv_l in H3' as ->.
  exists c, mid, e. split; [done |].
  assert (Hcc : c = 67%N ∨ c = 99%N).
  { unfold ci_eq in Hc. change (ascii_lower 67) with 99%N in Hc.
    change (99 =? 105)%N with false in Hc. change (99 =? 115)%N with false in Hc.
    change (99 =? 107)%N with false in Hc.
    rewrite !andb_false_l, !orb_false_r in Hc. apply N.eqb_eq in Hc.
    unfold ascii_lower, in_range in Hc.
    destruct (N.leb_spec 65 c), (N.leb_spec c 90); cbn [andb] in Hc; lia. }
  assert (Hee : e = 69%N ∨ e = 101%N).
  { unfold ci_eq in He. change (ascii_lower 101) with 101%N in He.
    change (101 =? 105)%N with false in He. change (101 =? 115)%N with false in He.
    change (101 =? 107)%N with false in He.
    rewrite !andb_false_l, !orb_false_r in He. apply N.eqb_eq in He.
    unfold ascii_lower, in_range in He.
    destruct (N.leb_spec 65 e), (N.leb_spec e 90); cbn [andb] in He; lia. }
  by destruct Hcc as [-> | ->], Hee as [-> | ->].
Qed.

(** X12: a block whose first line holds [Calyrex-Ice] as a word of its
    own, in any letter case, gets the form [As One (Glastrier)]. *)
Theorem calyrex_ice_header_gets_glastrier (pre x post : str) (lines : list str) :
  (∀ c, last pre = Some c → isword U c = false) →
  matched_by (map ci_eq (u "Calyrex-Ice")) x →
  (∀ c, head post = Some c → isword U c = false) →
  asone_of U ((pre ++ x ++ post) :: lines) = u "As One (Glastrier)".
Proof.
  intros Hpre Hx Hpost. unfold asone_of. cbn [hd].
  assert (is_Some (re_search (calyrex_ice U) (pre ++ x ++ post))) as [m ->];
    [| reflexivity].
  apply search_go_is_Some. rewrite app_nil_r.
  destruct (calyrex_ice_ends x Hx) as (c & mid & e & Hxe & Hc & He).
  unfold match_here, calyrex_ice, wordb, word_boundary, start_state.
  rewrite mk_seqs_cons, mk_assert_if. cbn [ms_before ms_rest].
  assert (Hb1 : match rev pre with d :: _ => isword U d | [] => false end = false).
  { destruct pre as [| d t _] using rev_ind; [done |].
    rewrite rev_unit. apply Hpre. by rewrite last_snoc. }
  rewrite Hb1. rewrite Hxe at 1. cbn [app]. rewrite Hc. cbn [xorb].
  rewrite mk_seqs_cons, lit_ci_chrs.
  change {| ms_before := rev pre; ms_rest := x ++ post; ms_groups := [] |}
    with (at_state (rev pre) (x ++ post) []).
  rewrite mk_chrs by done. cbn [seqs]. rewrite mk_assert_if.
  cbn [at_state ms_before ms_rest].
  rewrite Hxe. change (c :: mid ++ [e]) with ((c :: mid) ++ [e]).
  rewrite rev_unit. cbn [app]. rewrite He.
  assert (Hb2 : match post with d :: _ => isword U d | [] => false end = false).
  { destruct post as [| d t]; [done |]. by apply Hpost. }
  by rewrite Hb2.
Qed.

End Forme.

Lemma calyrex_ice_header_gets_glastrier_witness :
  asone_of unicode_excerpt
    (([] ++ u "calyrex-ICE" ++ u " @ Clear Amulet") :: [u "Ability: As One"])
  = u "As One (Glastrier)".
Proof.
  apply (calyrex_ice_header_gets_glastrier unicode_excerpt [] (u "calyrex-ICE")
           (u " @ Clear Amulet") [u "Ability: As One"]).
  - intros c Hc. discriminate.
  - vm_compute. repeat constructor.
  - intros c [= <-]. reflexivity.
Defined.

(** ** Sheet names *)

Lemma unique_names_spec (names : list str) : ∀ seen,
  NoDup (unique_names names seen)
  ∧ (∀ x, x ∈ unique_names names seen ↔ x ∈ names ∧ x ∉ seen)
  ∧ unique_names names seen `sublist_of` names.
Proof.
  induction names as [| name names IH]; intros seen; simpl.
  - split; [constructor |]. split; [| done]. intros x. split; [by inversion 1 |].
    by intros [H _]; inversion H.
  - unfold list_mem. case_bool_decide as Hseen.
    + destruct (IH seen) as (Hnd & Hin & Hsub).
      split; [done |]. split; [| by apply sublist_cons].
      intros x. rewrite Hin, elem_of_cons.
      split; [intros [? ?]; split; [by right | done] |].
      intros [[-> | Hx] Hn]; [done | done].
    + destruct (IH (name :: seen)) as (Hnd & Hin & Hsub).
      split; [| split; [| by apply sublist_skip]].
      * constructor; [| done]. rewrite Hin, elem_of_cons.
        intros [_ Hn]. apply Hn. by left.
      * intros x. rewrite !elem_of_cons, Hin, elem_of_cons.
        split; [intros [-> | [Hx Hn]]; (split; [tauto | tauto]) |].
        intros [[-> | Hx] Hn]; [by left |].
        destruct (decide (x = name)) as [-> | Hne]; [by left | right].
        split; [done |]. intros [? | ?]; [done | done].
Qed.

Lemma unique_names_order (names : list str) : ∀ seen n1 x n2,
  unique_names names seen = n1 ++ x :: n2 →
  ∃ c1 c2, names = c1 ++ x :: c2 ∧ (x ∉ c1) ∧ (x ∉ seen)
           ∧ ∀ y, y ∈ n1 ↔ y ∈ c1 ∧ y ∉ seen.
Proof.
  induction names as [| name names IH]; intros seen n1 x n2; simpl.
  - by destruct n1.
  - unfold list_mem. case_bool_decide as Hseen.
    + intros H. destruct (IH _ _ _ _ H) as (c1 & c2 & -> & Hx & Hxs & Hn1).
      exists (name :: c1), c2. split; [done |].
      split; [apply not_elem_of_cons; split; [by intros -> | done] |].
      split; [done |]. intros y. rewrite Hn1, elem_of_cons.
      split; [intros [? ?]; split; [by right | done] |].
      intros [[-> | ?] ?]; [done | done].
    + destruct n1 as [| n n1]; simpl.
      * intros [= -> <-]. exists [], names. split; [done |].
        split; [apply not_elem_of_nil |]. split; [done |].
        intros y. split; [by intros ?%elem_of_nil | by intros [?%elem_of_nil _]].
      * intros [= -> H]. destruct (IH _ _ _ _ H) as (c1 & c2 & -> & Hx & Hxs & Hn1).
        apply not_elem_of_cons in Hxs as [Hxn Hxs].
        exists (n :: c1), c2. split; [done |].
        split; [by apply not_elem_of_cons |]. split; [done |].
        intros y. rewrite !elem_of_cons, Hn1, not_elem_of_cons.
        split.
        -- intros [-> | [? [? ?]]]; [split; [by left | done] | split; [by right | done]].
        -- intros [[-> | ?] ?]; [by left |].
           destruct (decide (y = n)) as [-> | ?]; [by left | by right].
Qed.

Lemma first_occurrence_order_unique (captions : list str) : ∀ (seen l : list str),
  NoDup l →
  (∀ x, x ∈ l ↔ x ∈ captions ∧ x ∉ seen) →
  (∀ n1 x n2, l = n1 ++ x :: n2 →
     ∃ c1 c2, captions = c1 ++ x :: c2 ∧ (x ∉ c1) ∧ ∀ y, y ∈ n1 ↔ y ∈ c1 ∧ y ∉ seen) →
  l = unique_names captions seen.
Proof.
  induction captions as [| a captions IH]; intros seen l Hnd Hin Hord; simpl.
  - destruct l as [| x l]; [done |].
    assert (Hx : x ∈ x :: l) by by left. apply Hin in Hx as [?%elem_of_nil _]. done.
  - unfold list_mem. case_bool_decide as Hseen.
    + apply IH; [done | |].
      * intros x. rewrite Hin, elem_of_cons.
        split; [| intros [? ?]; split; [by right | done]].
        intros [[-> | ?] ?]; [done | done].
      * intros n1 x n2 Hl. destruct (Hord _ _ _ Hl) as (c1 & c2 & Hc & Hx & Hn1).
        assert (Hxs : x ∉ seen).
        { assert (Hxl : x ∈ l) by (rewrite Hl, elem_of_app, elem_of_cons; tauto).
          by apply Hin in Hxl as [_ ?]. }
        destruct c1 as [| b c1]; simpl in Hc; injection Hc as -> ->; [done |].
        exists c1, c2. split; [done |]. apply not_elem_of_cons in Hx as [_ Hx].
        split; [done |]. intros y. rewrite Hn1, elem_of_cons.
        split; [| intros [? ?]; split; [by right | done]].
        intros [[-> | ?] ?]; [done | done].
    + assert (Ha : a ∈ l) by (apply Hin; split; [by left | done]).
      apply list_elem_of_split in Ha as (n1 & n2 & ->).
      destruct (Hord _ _ _ eq_refl) as (c1 & c2 & Hc & Hx & Hn1).
      destruct c1 as [| b c1]; simpl in Hc;
        [| injection Hc as <- _; exfalso; apply Hx; by left].
      clear Hc Hx c2.
      destruct n1 as [| n n1];
        [| exfalso; assert (Hn : n ∈ n :: n1) by (by left);
           by apply Hn1 in Hn as [?%elem_of_nil _]].
      simpl in *. f_equal. apply NoDup_cons in Hnd as [Han Hnd].
      apply IH; [done | |].
      * intros x. specialize (Hin x). rewrite !elem_of_cons in Hin.
        rewrite not_elem_of_cons. split.
        -- intros Hx2. assert (x ≠ a) by (by intros ->).
           destruct Hin as [Hin _]. destruct (Hin (or_intror Hx2)) as [[? | ?] ?]; done.
        -- intros (Hxc & Hxa & Hxs). destruct Hin as [_ Hin].
           destruct (Hin (conj (or_intror Hxc) Hxs)) as [? | ?]; done.
      * intros m1 x m2 Hl.
        destruct (Hord (a :: m1) x m2) as (d1 & d2 & Hd & Hxd & Hm1);
          [by rewrite Hl |].
        assert (Hxa : x ≠ a).
        { intros ->. apply Han. rewrite Hl, elem_of_app, elem_of_cons. tauto. }
        destruct d1 as [| b d1]; simpl in Hd; injection Hd as ? ?; [done |].
        subst b captions. apply not_elem_of_cons in Hxd as [_ Hxd].
        exists d1, d2. split; [done |]. split; [done |].
        intros y. specialize (Hm1 y). rewrite !elem_of_cons in Hm1.
        rewrite not_elem_of_cons. split.
        -- intros Hy. assert (y ≠ a).
           { intros ->. apply Han. rewrite Hl, elem_of_app. tauto. }
           destruct Hm1 as [Hm1 _]. destruct (Hm1 (or_intror Hy)) as [[? | ?] ?]; done.
        -- intros (Hyd & Hya & Hys). destruct Hm1 as [_ Hm1].
           destruct (Hm1 (conj (or_intror Hyd) Hys)) as [? | ?]; done.
Qed.

(** X13: the sheet names fetched are the tab captions found on the
    page, each once, in the order of their first occurrence; they are the
    only list of that kind.  In particular the names come in the order
    in which the page lists them. *)
Theorem fetch_sheet_names_unique (W : world) (names : list str) :
  fetch_sheet_names W = Some names →
  ∃ html, sheet_edit_html W = Some html
          ∧ in_first_occurrence_order (re_findall tab_caption html) names
          ∧ (∀ l, in_first_occurrence_order (re_findall tab_caption html) l → l = names)
          ∧ names `sublist_of` re_findall tab_caption html.
Proof.
  unfold fetch_sheet_names. destruct (sheet_edit_html W) as [html |]; [| done].
  simpl. intros [= <-]. exists html. split; [done |].
  set (captions := re_findall tab_caption html).
  destruct (unique_names_spec captions []) as (Hnd & Hin & Hsub).
  split; [| split; [| done]].
  - split; [done |]. split.
    + intros x. rewrite Hin. split; [by intros [? _] |]. intros H. split; [done |].
      apply not_elem_of_nil.
    + intros n1 x n2 Hl.
      destruct (unique_names_order _ _ _ _ _ Hl) as (c1 & c2 & Hc & Hx & _ & Hn1).
      exists c1, c2. split; [done |]. split; [done |].
      intros y. rewrite Hn1. split; [by intros [? _] |]. intros H. split; [done |].
      apply not_elem_of_nil.
  - intros l (Hlnd & Hlin & Hlord). apply first_occurrence_order_unique; [done | |].
    + intros x. rewrite Hlin. split; [| by intros [? _]]. intros H. split; [done |].
      apply not_elem_of_nil.
    + intros n1 x n2 Hl. destruct (Hlord _ _ _ Hl) as (c1 & c2 & Hc & Hx & Hn1).
      exists c1, c2. split; [done |]. split; [done |].
      intros y. rewrite Hn1. split; [| by intros [? _]]. intros H. split; [done |].
      apply not_elem_of_nil.
Qed.

Lemma fetch_sheet_names_unique_witness :
  ∃ html, sheet_edit_html tabs_world = Some html
          ∧ in_first_occurrence_order (re_findall tab_caption html)
              [u "Reg G Featured Teams"; u "Reg G Presentable"]
          ∧ (∀ l, in_first_occurrence_order (re_findall tab_caption html) l →
                  l = [u "Reg G Featured Teams"; u "Reg G Presentable"])
          ∧ [u "Reg G Featured Teams"; u "Reg G Presentable"]
              `sublist_of` re_findall tab_caption html.
Proof.
  apply (fetch_sheet_names_unique tabs_world
           [u "Reg G Featured Teams"; u "Reg G Presentable"]).
  vm_compute. reflexivity.
Defined.


(** ** Tab captions *)

Lemma findall_go_Forall (P : str → Prop) (r : re) :
  (∀ b rest e, match_here r b rest = Some e →
               P (default [] (lookup_group 1 (ms_groups e)))) →
  ∀ fuel b rest, Forall P (findall_go r fuel b rest).
Proof.
  intros Hr. induction fuel as [| fuel IH]; intros b rest; simpl; [constructor |].
  destruct rest as [| c t]; [constructor |].
  destruct (match_here r b (c :: t)) as [e |] eqn:He; [| apply IH].
  destruct (_ <? _); [| apply IH]. constructor; [by eapply Hr | apply IH].
Qed.

Lemma lit_chrs (s : str) : lit s = seqs (map Chr (map N.eqb s)).
Proof. unfold lit, chr_is. by rewrite map_map. Qed.

Lemma mk_chr {A : Type} (p : N → bool) (s : mstate) (k : mstate → option A) :
  mk (Chr p) s k
  = match ms_rest s with
    | c :: _ => if p c then k (advance c s) else None
    | [] => None
    end.
Proof. reflexivity. Qed.

Lemma tab_caption_group (b rest : str) (e : mstate) :
  match_here tab_caption b rest = Some e →
  ∃ name, lookup_group 1 (ms_groups e) = Some name
          ∧ name ≠ [] ∧ Forall (fun c => c ≠ 60%N) name.
Proof.
  unfold match_here, tab_caption, start_state.
  rewrite mk_seqs_cons, lit_chrs.
  change {| ms_before := b; ms_rest := rest; ms_groups := [] |} with (at_state b rest []).
  intros H. apply mk_chrs_Some in H as (text & tl & -> & _ & H). revert H.
  rewrite mk_seqs_cons, mk_group. unfold Plus. rewrite mk_seq, mk_chr.
  cbn [at_state ms_rest]. destruct tl as [| c tl]; [done |].
  destruct (negb (c =? 60)%N) eqn:Hc; [| done].
  rewrite mk_star_chr. cbn [advance at_state ms_before ms_rest ms_groups tail].
  intros H. apply greedy_Some in H as (run & tl2 & -> & Hrun & H). revert H.
  unfold capture, consumed. cbn [seqs at_state ms_before ms_rest ms_groups].
  unfold chr_is. rewrite mk_chr. cbn [ms_rest].
  destruct tl2 as [| d tl2]; [done |]. destruct (60 =? d)%N; [| done].
  intros [= <-]. cbn [advance ms_groups lookup_group Nat.eqb].
  eexists. split; [reflexivity |].
  assert (Hn : length (run ++ d :: tl2) - length tl2 = length (c :: run))
    by (rewrite length_app; simpl; lia).
  rewrite Hn. change (c :: run ++ d :: tl2) with ((c :: run) ++ d :: tl2).
  rewrite take_app_length. split; [done |].
  constructor.
  - intros ->. discriminate.
  - eapply Forall_impl; [exact Hrun |]. intros x Hx ->. discriminate.
Qed.

(** X14: no fetched sheet name is empty, and none holds the character
    [<]. *)
Theorem fetch_sheet_names_captions (W : world) (names : list str) :
  fetch_sheet_names W = Some names →
  Forall (fun name => name ≠ [] ∧ Forall (fun c => c ≠ 60%N) name) names.
Proof.
  unfold fetch_sheet_names. destruct (sheet_edit_html W) as [html |]; [| done].
  simpl. intros [= <-].
  destruct (unique_names_spec (re_findall tab_caption html) []) as (_ & Hin & _).
  apply Forall_forall. intros name Hname. apply Hin in Hname as [Hname _].
  revert name Hname. apply Forall_forall. unfold re_findall.
  apply findall_go_Forall. intros b rest e He.
  destruct (tab_caption_group b rest e He) as (name & -> & Hne & Hchars). done.
Qed.

Lemma fetch_sheet_names_captions_witness :
  Forall (fun name => name ≠ [] ∧ Forall (fun c => c ≠ 60%N) name)
    [u "Reg G Featured Teams"; u "Reg G Presentable"].
Proof.
  apply (fetch_sheet_names_captions tabs_world). vm_compute. reflexivity.
Defined.


(** ** The sheets of a regulation *)

Lemma list_filter_sublist {A : Type} (f : A → bool) (l : list A) :
  List.filter f l `sublist_of` l.
Proof.
  induction l as [| x l IH]; simpl; [done |].
  destruct (f x); [by apply sublist_skip | by apply sublist_cons].
Qed.

Lemma list_filter_Forall {A : Type} (f : A → bool) (l : list A) :
  Forall (fun x => f x = true) (List.filter f l).
Proof.
  induction l as [| x l IH]; simpl; [constructor |].
  destruct (f x) eqn:E; [by constructor | done].
Qed.

Section Featured.
Variable U : unicode_tables.

(** X15: the sheets selected for a regulation are never none: either
    the one expected name [Reg <X> Featured Teams], or names taken from
    the list in their order, each holding [featured], not holding
    [presentable], and holding [reg <x>] or [regulation <x>], all in
    lower case. *)
Theorem featured_team_sheets_cases (all_sheet_names : list str) (regulation : str) :
  let sheets := featured_team_sheets_for_regulation U all_sheet_names regulation in
  let reg := lower U (strip regulation) in
  sheets ≠ []
  ∧ (sheets = [u "Reg " ++ upper U regulation ++ u " Featured Teams"]
     ∨ sheets `sublist_of` all_sheet_names
       ∧ Forall (fun name =>
                   infixb (u "featured") (lower U name) = true
                   ∧ infixb (u "presentable") (lower U name) = false
                   ∧ (infixb (u "reg " ++ reg) (lower U name) = true
                      ∨ infixb (u "regulation " ++ reg) (lower U name) = true))
                sheets).
Proof.
  intros sheets reg. subst sheets. unfold featured_team_sheets_for_regulation.
  fold reg.
  set (keep := fun name : str =>
         infixb (u "featured") (lower U name)
         && negb (infixb (u "presentable") (lower U name))
         && (infixb (u "reg " ++ reg) (lower U name)
             || infixb (u "regulation " ++ reg) (lower U name))).
  pose proof (list_filter_sublist keep all_sheet_names) as Hsub.
  pose proof (list_filter_Forall keep all_sheet_names) as Hall.
  destruct (List.filter keep all_sheet_names) as [| s sheets] eqn:E.
  - split; [discriminate | by left].
  - split; [discriminate |]. right. split; [done |].
    eapply Forall_impl; [exact Hall |]. intros name Hk. subst keep. simpl in Hk.
    apply andb_true_iff in Hk as [Hk H3]. apply andb_true_iff in Hk as [H1 H2].
    apply negb_true_iff in H2. apply orb_true_iff in H3. done.
Qed.

End Featured.

(** ** Rows that are passed over, entries that are kept *)

Section Kept.
Variable U : unicode_tables.
Variable W : world.

Lemma str_eqb_false (a b : str) : a ≠ b → str_eqb a b = false.
Proof. intros H. unfold str_eqb. by rewrite bool_decide_eq_false_2. Qed.

Lemma process_row_ineligible (reg_dir : path) (c : columns) (st : state) (row : list str) :
  ineligible U c row → process_row U W reg_dir c st row = Next st.
Proof.
  intros [Hshort | Hrow]; [by apply short_rows_skipped |].
  unfold process_row. case_bool_decide; [done |].
  destruct Hrow as [(cat & -> & Hcat) | [(cat & evs & -> & -> & Hevs)
                   | (cat & evs & paste & -> & -> & -> & Hurl)]].
  - by rewrite (str_eqb_false _ _ Hcat).
  - destruct (negb (str_eqb (lower U (strip cat)) _)); [done |].
    by rewrite (str_eqb_false _ _ Hevs).
  - destruct (negb (str_eqb (lower U (strip cat)) _)); [done |].
    destruct (negb (str_eqb (lower U (strip evs)) _)); [done |].
    by rewrite Hurl.
Qed.

(** X16: rows that are too short for the columns in use, are not of
    category [in person event], do not have [yes] under EVs, or whose
    link does not start with [https://pokepast.es/] are passed over: the
    loop over them ends normally and leaves the file system, the teams
    met and every counter as they were. *)
Theorem ineligible_rows_change_nothing (reg_dir : path) (c : columns) (st : state)
    (rows : list (list str)) :
  Forall (ineligible U c) rows → process_rows U W reg_dir c st rows = Next st.
Proof.
  induction 1 as [| row rows Hrow Hrows IH]; simpl; [done |].
  by rewrite process_row_ineligible.
Qed.

(** X17: a run never removes or overwrites what is on the file system:
    every entry present before the run, file or directory, is there with
    the same content after it, whether the run ends normally or is cut
    short by an exception. *)
Theorem scrape_regulation_keeps_entries (regulation : str) (f : gmap path node)
    (p : path) (n : node) :
  f !! p = Some n →
  fs (state_of (scrape_regulation U W regulation f)) !! p = Some n.
Proof.
  intros Hp. eapply lookup_weaken; [exact Hp |].
  unfold scrape_regulation.
  destruct (mkdir f (reg_dir_of U regulation)) as [f1 |] eqn:Hmk; [| done].
  apply mkdir_parents_mono in Hmk.
  destruct (fetch_sheet_names W); [| done].
  etrans; [exact Hmk |]. apply (process_sheets_mono U W _ _ (initial f1)).
Qed.

End Kept.

Lemma ineligible_rows_change_nothing_witness :
  process_rows unicode_excerpt (sample_world []) [u "data"] sample_columns (initial ∅)
    [[u "17"; u "Online Event"];
     [u "18"; u "Online Event"; u "Yes"; u "https://pokepast.es/abc"; u "15 Jan 2024";
      u "Portland Regional"; u "1st"];
     [u "19"; u "In Person Event"; u "No"; u "https://pokepast.es/abd"; u "15 Jan 2024";
      u "Portland Regional"; u "2nd"];
     [u "20"; u "In Person Event"; u "Yes"; u "https://example.org/abe"; u "15 Jan 2024";
      u "Portland Regional"; u "3rd"]]
  = Next (initial ∅).
Proof.
  apply (ineligible_rows_change_nothing unicode_excerpt (sample_world [])).
  repeat apply Forall_cons_2; [| | | | apply Forall_nil_2].
  - left. vm_compute. discriminate.
  - right. left. eexists. split; [reflexivity |]. vm_compute. discriminate.
  - right. right. left. eexists _, _. split; [reflexivity |]. split; [reflexivity |].
    vm_compute. discriminate.
  - right. right. right. eexists _, _, _. split; [reflexivity |]. split; [reflexivity |].
    split; [reflexivity |]. vm_compute. reflexivity.
Defined.

Lemma scrape_regulation_keeps_entries_witness :
  fs (state_of (scrape_regulation unicode_excerpt (sample_world two_winners) (u "G")
                  {[ [u "data"; u "teams"; u "regg"; u "portland_2024"; u "1st.txt"]
                     := File (u "my own notes") ]}))
    !! [u "data"; u "teams"; u "regg"; u "portland_2024"; u "1st.txt"]
  = Some (File (u "my own notes")).
Proof.
  apply (scrape_regulation_keeps_entries unicode_excerpt (sample_world two_winners)).
  vm_compute. reflexivity.
Defined.

(** ** What a run writes *)

Lemma mkdir_parents_files (todo : path) : ∀ (f f' : gmap path node) (made p : path) (t : str),
  mkdir_parents f made todo = Some f' → f' !! p = Some (File t) → f !! p = Some (File t).
Proof.
  induction todo as [| c todo IH]; intros f f' made p t; simpl.
  - by intros [= ->].
  - intros Hmk Hp.
    assert (Hstep : <[made ++ [c] := Dir]> f !! p = Some (File t)).
    { destruct (f !! (made ++ [c])) as [[| t'] |]; [| done |]; eapply IH; eauto. }
    destruct (decide (made ++ [c] = p)) as [<- | Hne].
    + by rewrite lookup_insert_eq in Hstep.
    + by rewrite lookup_insert_ne in Hstep.
Qed.

Lemma existsb_false {A : Type} (f : A → bool) (l : list A) :
  existsb f l = false → Forall (fun x => f x = false) l.
Proof.
  induction l as [| x l IH]; simpl; [constructor |].
  intros H. apply orb_false_iff in H as [Hx Hl]. constructor; [done | by apply IH].
Qed.

Lemma ledger_distinct_snoc (W : world) (ledger : list str) (t : str) :
  ledger_distinct W ledger →
  Forall (fun prev => similarity_is_one W t prev = false) ledger →
  ledger_distinct W (ledger ++ [t]).
Proof.
  intros Hl Ht earlier t' later Heq.
  destruct later as [| x later _] using rev_ind.
  - apply app_inj_tail in Heq as [-> ->]. done.
  - rewrite app_comm_cons, app_assoc in Heq. apply app_inj_tail in Heq as [-> _].
    by eapply Hl.
Qed.

(** What holds at every row holds at the end of a run. *)
Section Lifting.
Variable U : unicode_tables.
Variable W : world.
Variable reg_dir : path.
Variables P Q : state → Prop.
Hypothesis weaken : ∀ st, P st → Q st.
Hypothesis row_step : ∀ c st row, P st → ends_with P Q (process_row U W reg_dir c st row).

Lemma process_rows_ends (c : columns) (rows : list (list str)) :
  ∀ st, P st → ends_with P Q (process_rows U W reg_dir c st rows).
Proof.
  induction rows as [| row rows IH]; intros st HP; simpl; [done |].
  pose proof (row_step c st row HP) as Hrow.
  destruct (process_row U W reg_dir c st row) as [st1 | st1]; simpl in *; [| done].
  by apply IH.
Qed.

Lemma process_sheet_ends (st : state) (sheet : str) :
  P st → ends_with P Q (process_sheet U W reg_dir st sheet).
Proof.
  intros HP. unfold process_sheet. repeat case_match; simpl; try by apply weaken.
  by apply process_rows_ends.
Qed.

Lemma process_sheets_ends (sheets : list str) :
  ∀ st, P st → ends_with P Q (process_sheets U W reg_dir st sheets).
Proof.
  induction sheets as [| sheet sheets IH]; intros st HP; simpl; [done |].
  pose proof (process_sheet_ends st sheet HP) as Hs.
  destruct (process_sheet U W reg_dir st sheet) as [st1 | st1]; simpl in *; [| done].
  by apply IH.
Qed.

End Lifting.

Lemma scrape_regulation_ends (U : unicode_tables) (W : world) (regulation : str)
    (f : gmap path node) (P Q : state → Prop) :
  (∀ st, P st → Q st) →
  (∀ c st row, P st → ends_with P Q (process_row U W (reg_dir_of U regulation) c st row)) →
  Q (initial f) →
  (∀ f1, mkdir f (reg_dir_of U regulation) = Some f1 → P (initial f1)) →
  ends_with P Q (scrape_regulation U W regulation f).
Proof.
  intros Hweak Hrow Hf Hinit. unfold scrape_regulation.
  destruct (mkdir f (reg_dir_of U regulation)) as [f1 |] eqn:Hmk; [| exact Hf].
  destruct (fetch_sheet_names W) as [names |]; [| apply Hweak; by apply Hinit].
  apply process_sheets_ends; [done | done |]. by apply Hinit.
Qed.

Section Written.
Variable U : unicode_tables.
Variable W : world.
Variable f0 : gmap path node.

Lemma invariant_cut_short (st : state) :
  run_invariant U W f0 st → cut_short_invariant U W f0 st.
Proof.
  intros (Hadm & Hdist & Hfiles). split; [done |]. split; [done |].
  intros p t Hp. destruct (Hfiles p t Hp) as [? | ?]; [by left | right; by left].
Qed.

Lemma invariant_broken (st : state) (p : path) (team rest : str) :
  team ∈ seen_teams st → file_write W p team = Broken rest →
  run_invariant U W f0 st →
  cut_short_invariant U W f0 (with_fs (<[p := File rest]> (fs st)) st).
Proof.
  intros Ht Hw (Hadm & Hdist & Hfiles). unfold cut_short_invariant. simpl.
  split; [done |]. split; [done |]. intros q t' Hq.
  destruct (decide (p = q)) as [<- | Hne].
  - rewrite lookup_insert_eq in Hq. injection Hq as <-. right. right. by exists team.
  - rewrite lookup_insert_ne in Hq by done.
    destruct (Hfiles q t' Hq) as [? | ?]; [by left | right; by left].
Qed.

Lemma invariant_same (st st' : state) :
  seen_teams st' = seen_teams st → fs st' = fs st →
  run_invariant U W f0 st → run_invariant U W f0 st'.
Proof. unfold run_invariant. by intros -> ->. Qed.

Lemma invariant_remember_team (st : state) (t : str) :
  admitted U W t →
  existsb (fun prev => similarity_is_one W t prev) (seen_teams st) = false →
  run_invariant U W f0 st → run_invariant U W f0 (remember_team t st).
Proof.
  intros Ht Hnew (Hadm & Hdist & Hfiles). unfold run_invariant. simpl.
  split; [apply Forall_app; split; [done | by constructor] |].
  split; [apply ledger_distinct_snoc; [done | by apply existsb_false] |].
  intros p t' Hp. destruct (Hfiles p t' Hp) as [? | ?]; [by left | right].
  apply elem_of_app. by left.
Qed.

Lemma invariant_mkdir (st : state) (d : path) (g : gmap path node) :
  mkdir (fs st) d = Some g →
  run_invariant U W f0 st → run_invariant U W f0 (with_fs g st).
Proof.
  intros Hmk (Hadm & Hdist & Hfiles). unfold run_invariant. simpl.
  split; [done |]. split; [done |]. intros p t Hp. apply Hfiles.
  by eapply mkdir_parents_files.
Qed.

Lemma invariant_write (st : state) (p : path) (t : str) :
  t ∈ seen_teams st →
  run_invariant U W f0 st → run_invariant U W f0 (write_team p t st).
Proof.
  intros Ht (Hadm & Hdist & Hfiles). unfold run_invariant. simpl.
  split; [done |]. split; [done |]. intros q t' Hq.
  destruct (decide (p = q)) as [<- | Hne].
  - rewrite lookup_insert_eq in Hq. injection Hq as <-. by right.
  - rewrite lookup_insert_ne in Hq by done. by apply Hfiles.
Qed.

Lemma fetch_pokepaste_raw_Some (url t : str) :
  fetch_pokepaste_raw U W url = Some t →
  ∃ paste_id raw, paste_text W paste_id = Some raw ∧ t = normalize_team_text U raw.
Proof.
  unfold fetch_pokepaste_raw. set (paste_id := List.last _ _).
  destruct (paste_text W paste_id) as [raw |] eqn:E; [| done].
  intros [= <-]. by exists paste_id, raw.
Qed.

Lemma process_row_invariant (reg_dir : path) (c : columns) (st : state) (row : list str) :
  run_invariant U W f0 st →
  ends_with (run_invariant U W f0) (cut_short_invariant U W f0)
    (process_row U W reg_dir c st row).
Proof.
  intros Hinv. unfold process_row.
  repeat case_match; cbn [ends_with].
  all: try match goal with
           | Hw : file_write W _ _ = Broken _ |- _ => idtac
           | |- cut_short_invariant _ _ _ _ => apply invariant_cut_short
           end.
  all: try exact Hinv; try (by eapply invariant_same; [| | exact Hinv]).
  all: match goal with
       | Hf : fetch_pokepaste_raw U W _ = Some ?t,
         Hb : has_banned_move_or_ability ?t = false,
         Hp : parse_showdown_team W ?t = Parsed,
         Hd : existsb _ (seen_teams ?s) = false |- _ =>
           pose proof (invariant_remember_team s t
                         (conj Hb (conj Hp (fetch_pokepaste_raw_Some _ _ Hf))) Hd Hinv)
             as Hinv1
       end.
  all: try exact Hinv1.
  all: try (by eapply invariant_same; [| | exact Hinv1]).
  all: try (eapply invariant_mkdir; [eassumption |];
            first [exact Hinv1 | by eapply invariant_same; [| | exact Hinv1]]).
  all: try (eapply invariant_same; [| | eapply invariant_mkdir; [eassumption |];
            first [exact Hinv1 | by eapply invariant_same; [| | exact Hinv1]]]; done).
  all: try (apply invariant_write;
            [cbn; apply elem_of_app; right; by left |];
            eapply invariant_mkdir; [eassumption |];
            first [exact Hinv1 | by eapply invariant_same; [| | exact Hinv1]]).
  all: eapply invariant_broken;
         [ cbn; apply elem_of_app; right; by left
         | eassumption
         | eapply invariant_mkdir; [eassumption |];
           first [exact Hinv1 | by eapply invariant_same; [| | exact Hinv1]] ].
Qed.

Lemma invariant_initial (f : gmap path node) :
  (∀ p t, f !! p = Some (File t) → f0 !! p = Some (File t)) →
  run_invariant U W f0 (initial f).
Proof.
  intros Hf. unfold run_invariant. simpl. split; [constructor |].
  split; [| intros p t Hp; left; by apply Hf].
  intros earlier t later Heq. by destruct earlier.
Qed.

End Written.

Lemma scrape_regulation_invariant (U : unicode_tables) (W : world) (regulation : str)
    (f : gmap path node) :
  ends_with (run_invariant U W f) (cut_short_invariant U W f)
    (scrape_regulation U W regulation f).
Proof.
  apply scrape_regulation_ends.
  - apply invariant_cut_short.
  - intros c st row. apply process_row_invariant.
  - apply invariant_cut_short. by apply invariant_initial.
  - intros f1 Hmk. apply invariant_initial. intros p t Hp. by eapply mkdir_parents_files.
Qed.

(** X18: a file found after a run either was there before the run with
    the same content, or holds a team that passed the checks (the
    normalised text of a paste, without a banned ability line, which the
    team parser accepts), or, and only in a run that an exception has cut
    short, is what a failed write of such a team has left at that path. *)
Theorem written_files_are_admitted (U : unicode_tables) (W : world) (regulation : str)
    (f : gmap path node) (p : path) (t : str) :
  let o := scrape_regulation U W regulation f in
  fs (state_of o) !! p = Some (File t) →
  f !! p = Some (File t)
  ∨ admitted U W t
  ∨ ∃ st team, o = Raised st ∧ admitted U W team ∧ file_write W p team = Broken t.
Proof.
  intros o Hp. pose proof (scrape_regulation_invariant U W regulation f) as Hinv.
  fold o in Hinv. destruct o as [st | st]; simpl in *.
  - destruct Hinv as (Hadm & _ & Hfiles). rewrite Forall_forall in Hadm.
    destruct (Hfiles p t Hp) as [? | Hin]; [by left | right; left; by apply Hadm].
  - destruct Hinv as (Hadm & _ & Hfiles). rewrite Forall_forall in Hadm.
    destruct (Hfiles p t Hp) as [? | [Hin | (team & Hin & Hw)]];
      [by left | right; left; by apply Hadm |].
    right. right. exists st, team. split; [done |]. split; [by apply Hadm | done].
Qed.

(** X19: the teams a run has kept are pairwise distinct for the
    similarity score: no team kept scores 1.0 against a team kept before
    it. *)
Theorem kept_teams_pairwise_distinct (U : unicode_tables) (W : world) (regulation : str)
    (f : gmap path node) (earlier later : list str) (t : str) :
  seen_teams (state_of (scrape_regulation U W regulation f)) = earlier ++ t :: later →
  Forall (fun prev => similarity_is_one W t prev = false) earlier.
Proof.
  intros Heq. pose proof (scrape_regulation_invariant U W regulation f) as Hinv.
  destruct (scrape_regulation U W regulation f) as [st | st]; simpl in *;
    destruct Hinv as (_ & Hdist & _); by eapply Hdist.
Qed.

Lemma written_files_are_admitted_witness :
  let p := [u "data"; u "teams"; u "regg"; u "portland_2024"; u "1st.txt"] in
  let t := u "Pikachu-aaa" ++ nl ++ u "Ability: Static" ++ nl in
  (∅ : gmap path node) !! p = Some (File t)
  ∨ admitted unicode_excerpt (sample_world two_winners) t
  ∨ ∃ st team,
      scrape_regulation unicode_excerpt (sample_world two_winners) (u "G") ∅ = Raised st
      ∧ admitted unicode_excerpt (sample_world two_winners) team
      ∧ file_write (sample_world two_winners) p team = Broken t.
Proof.
  intros p t.
  apply (written_files_are_admitted unicode_excerpt (sample_world two_winners) (u "G") ∅).
  vm_compute. reflexivity.
Defined.

Lemma kept_teams_pairwise_distinct_witness :
  Forall (fun prev => similarity_is_one (sample_world two_winners)
                        (u "Pikachu-bbb" ++ nl ++ u "Ability: Static" ++ nl) prev = false)
         [u "Pikachu-aaa" ++ nl ++ u "Ability: Static" ++ nl].
Proof.
  apply (kept_teams_pairwise_distinct unicode_excerpt (sample_world two_winners) (u "G") ∅
           _ []).
  vm_compute. reflexivity.
Defined.

(** ** Where a run writes, and how many files *)

Lemma files_of_insert_dir (f : gmap path node) (p : path) :
  f !! p = None ∨ f !! p = Some Dir →
  files_of (<[p := Dir]> f) ≡ₚ files_of f.
Proof.
  intros [Hp | Hp]; [| by rewrite insert_id].
  unfold files_of. by rewrite (map_to_list_insert f p Dir Hp).
Qed.

Lemma files_of_insert_file (f : gmap path node) (p : path) (t : str) :
  f !! p = None → files_of (<[p := File t]> f) ≡ₚ (p, t) :: files_of f.
Proof.
  intros Hp. unfold files_of. by rewrite (map_to_list_insert f p (File t) Hp).
Qed.

Lemma mkdir_parents_files_of (todo : path) : ∀ (f f' : gmap path node) (made : path),
  mkdir_parents f made todo = Some f' → files_of f' ≡ₚ files_of f.
Proof.
  induction todo as [| c todo IH]; intros f f' made; simpl.
  - by intros [= ->].
  - intros Hmk.
    destruct (f !! (made ++ [c])) as [[| t] |] eqn:E; [| done |].
    + rewrite (IH _ _ _ Hmk). apply files_of_insert_dir. by right.
    + rewrite (IH _ _ _ Hmk). apply files_of_insert_dir. by left.
Qed.

Section Placing.
Variable U : unicode_tables.
Variable W : world.
Variable reg_dir : path.
Variable f0 : gmap path node.

Lemma placing_same (st st' : state) :
  event_subdirs st' = event_subdirs st → fs st' = fs st → saved st' = saved st →
  placing_invariant U reg_dir f0 st → placing_invariant U reg_dir f0 st'.
Proof. unfold placing_invariant. by intros -> -> ->. Qed.

Lemma placing_remember_subdir (st : state) (key event_name date_str : str) :
  placing_invariant U reg_dir f0 st →
  placing_invariant U reg_dir f0
    (remember_subdir key (reg_dir ++ [event_dir_name U event_name date_str]) st).
Proof.
  intros (Hdirs & Hfiles & Hcount). unfold placing_invariant. simpl.
  split; [| done]. intros k d Hk.
  destruct (decide (key = k)) as [<- | Hne].
  - rewrite lookup_insert_eq in Hk. injection Hk as <-. by eexists _, _.
  - rewrite lookup_insert_ne in Hk by done. by eapply Hdirs.
Qed.

Lemma placing_mkdir (st : state) (d : path) (g : gmap path node) :
  mkdir (fs st) d = Some g →
  placing_invariant U reg_dir f0 st → placing_invariant U reg_dir f0 (with_fs g st).
Proof.
  intros Hmk (Hdirs & Hfiles & Hcount). unfold placing_invariant. simpl.
  split; [done |]. split.
  - intros p t Hp. apply Hfiles. by eapply mkdir_parents_files.
  - by rewrite (mkdir_parents_files_of _ _ _ _ Hmk).
Qed.

Lemma placing_write (st : state) (p : path) (t : str) :
  path_exists (fs st) p = false → team_file U reg_dir p →
  placing_invariant U reg_dir f0 st → placing_invariant U reg_dir f0 (write_team p t st).
Proof.
  intros Hnew Hp (Hdirs & Hfiles & Hcount). unfold placing_invariant. simpl.
  split; [done |]. split.
  - intros q t' Hq. destruct (decide (p = q)) as [<- | Hne]; [by right |].
    rewrite lookup_insert_ne in Hq by done. by apply Hfiles.
  - unfold path_exists in Hnew. destruct (fs st !! p) eqn:E; [done |].
    rewrite (files_of_insert_file _ _ _ E). simpl. lia.
Qed.

Lemma placing_cut_short (st : state) :
  placing_invariant U reg_dir f0 st → cut_short_placing U reg_dir f0 st.
Proof. intros (_ & Hfiles & Hcount). split; [done | lia]. Qed.

Lemma placing_broken (st : state) (p : path) (rest : str) :
  path_exists (fs st) p = false → team_file U reg_dir p →
  placing_invariant U reg_dir f0 st →
  cut_short_placing U reg_dir f0 (with_fs (<[p := File rest]> (fs st)) st).
Proof.
  intros Hnew Hp (Hdirs & Hfiles & Hcount). unfold cut_short_placing. simpl. split.
  - intros q t' Hq. destruct (decide (p = q)) as [<- | Hne]; [by right |].
    rewrite lookup_insert_ne in Hq by done. by apply Hfiles.
  - unfold path_exists in Hnew. destruct (fs st !! p) eqn:E; [done |].
    rewrite (files_of_insert_file _ _ _ E). simpl. lia.
Qed.

Lemma process_row_placing (c : columns) (st : state) (row : list str) :
  placing_invariant U reg_dir f0 st →
  ends_with (placing_invariant U reg_dir f0) (cut_short_placing U reg_dir f0)
    (process_row U W reg_dir c st row).
Proof.
  intros Hinv. unfold process_row.
  repeat case_match; cbn [ends_with].
  all: try match goal with
           | Hw : file_write W _ _ = Broken _ |- _ => idtac
           | |- cut_short_placing _ _ _ _ => apply placing_cut_short
           end.
  all: try exact Hinv; try (by eapply placing_same; [| | | exact Hinv]).
  all: assert (Hinv1 : placing_invariant U reg_dir f0
                          (remember_team ltac:(match goal with
                                               | H : fetch_pokepaste_raw _ _ _ = Some ?t |- _ => exact t
                                               end) st))
         by (by eapply placing_same; [| | | exact Hinv]).
  all: try match goal with
           | |- context [remember_subdir ?k (reg_dir ++ [event_dir_name U ?e ?d]) _] =>
               pose proof (placing_remember_subdir _ k e d Hinv1) as Hinv2
           end.
  all: try exact Hinv2.
  all: try (eapply placing_mkdir; [eassumption |]; first [exact Hinv2 | exact Hinv1]).
  all: try (eapply placing_same;
            [| | | eapply placing_mkdir; [eassumption |]; first [exact Hinv2 | exact Hinv1]];
            done).
  all: first [apply placing_write | eapply placing_broken];
         [ assumption
         |
         | eapply placing_mkdir; [eassumption |]; first [exact Hinv2 | exact Hinv1] ].
  all: first
         [ match goal with
           | Hk : event_subdirs _ !! _ = Some _ |- _ =>
               rewrite Hk; destruct Hinv1 as (Hdirs & _);
               apply Hdirs in Hk as (e & dt & ->); cbv [default id];
               match goal with
               | Hp : placement_to_filename U ?pl = ?n :: ?r,
                 Hd : negb (isdigit U ?n) = false |- _ =>
                   exists e, dt, pl, n, r; rewrite Hp, <- app_assoc;
                   apply negb_false_iff in Hd; done
               end
           end
         | cbn [event_subdirs remember_subdir]; rewrite lookup_insert_eq;
           cbv [default id];
           match goal with
           | Hp : placement_to_filename U ?pl = ?n :: ?r,
             Hd : negb (isdigit U ?n) = false |- _ =>
               eexists _, _, pl, n, r; rewrite Hp, <- app_assoc;
               apply negb_false_iff in Hd; done
           end ].
Qed.

Lemma placing_initial (f : gmap path node) :
  (∀ p t, f !! p = Some (File t) → f0 !! p = Some (File t)) →
  files_of f ≡ₚ files_of f0 →
  placing_invariant U reg_dir f0 (initial f).
Proof.
  intros Hf Hcount. unfold placing_invariant. simpl. split; [done |].
  split; [intros p t Hp; left; by apply Hf |]. rewrite Hcount. lia.
Qed.

End Placing.

Lemma scrape_regulation_placing (U : unicode_tables) (W : world) (regulation : str)
    (f : gmap path node) :
  ends_with (placing_invariant U (reg_dir_of U regulation) f)
    (cut_short_placing U (reg_dir_of U regulation) f)
    (scrape_regulation U W regulation f).
Proof.
  apply scrape_regulation_ends.
  - apply placing_cut_short.
  - intros c st row. apply process_row_placing.
  - apply placing_cut_short. by apply placing_initial.
  - intros f1 Hmk. apply placing_initial.
    + intros p t Hp. by eapply mkdir_parents_files.
    + by eapply mkdir_parents_files_of.
Qed.

(** X20: a file found after a run either was there before the run with
    the same content, or is a team file: it lies in
    [data/teams/reg<x>/<event directory>/], and its name is a placement
    name that starts with a digit, followed by [.txt]. *)
Theorem new_files_are_placed (U : unicode_tables) (W : world) (regulation : str)
    (f : gmap path node) (p : path) (t : str) :
  fs (state_of (scrape_regulation U W regulation f)) !! p = Some (File t) →
  f !! p = Some (File t) ∨ team_file U (reg_dir_of U regulation) p.
Proof.
  intros Hp. pose proof (scrape_regulation_placing U W regulation f) as Hinv.
  destruct (scrape_regulation U W regulation f) as [st | st]; simpl in *.
  - destruct Hinv as (_ & Hfiles & _). by apply Hfiles.
  - destruct Hinv as (Hfiles & _). by apply Hfiles.
Qed.

(** X21: the number of teams a run reports as saved is the number of
    files it has added.  In a run that an exception has cut short, the
    counter is the number of files added or one less: [saved] is counted
    after the write, so a write that fails after it has created its file
    leaves one file that is not counted. *)
Theorem saved_counts_new_files (U : unicode_tables) (W : world) (regulation : str)
    (f : gmap path node) :
  let o := scrape_regulation U W regulation f in
  let before := length (files_of f) in
  let after := length (files_of (fs (state_of o))) in
  (∀ st, o = Next st → after = before + saved st)
  ∧ (∀ st, o = Raised st → before + saved st ≤ after ≤ before + saved st + 1).
Proof.
  intros o before after. subst before after.
  pose proof (scrape_regulation_placing U W regulation f) as Hinv. fold o in Hinv.
  split; intros st Ho; rewrite Ho in *; simpl in *.
  - by destruct Hinv as (_ & _ & Hcount).
  - by destruct Hinv as (_ & Hcount).
Qed.

Lemma saved_counts_new_files_witness :
  let st := state_of (scrape_regulation unicode_excerpt (sample_world two_winners)
                        (u "G") ∅) in
  length (files_of (fs st)) = length (files_of (∅ : gmap path node)) + saved st.
Proof.
  intros st.
  apply (proj1 (saved_counts_new_files unicode_excerpt (sample_world two_winners)
                  (u "G") ∅) st).
  vm_compute. reflexivity.
Defined.

Lemma new_files_are_placed_witness :
  (∅ : gmap path node) !! [u "data"; u "teams"; u "regg"; u "portland_2024"; u "1st.txt"]
    = Some (File (u "Pikachu-aaa" ++ nl ++ u "Ability: Static" ++ nl))
  ∨ team_file unicode_excerpt (reg_dir_of unicode_excerpt (u "G"))
      [u "data"; u "teams"; u "regg"; u "portland_2024"; u "1st.txt"].
Proof.
  apply (new_files_are_placed unicode_excerpt (sample_world two_winners) (u "G")).
  vm_compute. reflexivity.
Defined.

(** ** The paste a link names *)

Lemma rstrip_by_app_all (p : N → bool) (x y : str) :
  Forall (fun c => p c = true) y → rstrip_by p (x ++ y) = rstrip_by p x.
Proof.
  intros Hy. induction x as [| c x IH]; simpl; [by apply rstrip_by_all | by rewrite IH].
Qed.

Lemma rstrip_by_none (p : N → bool) (s : str) :
  Forall (fun c => p c = false) s → rstrip_by p s = s.
Proof.
  induction 1 as [| c t Hc Ht IH]; simpl; [done |]. rewrite IH, Hc. by destruct t.
Qed.

Lemma split_on_none (sep : N) (s : str) :
  sep ∉ s → split_on sep s = [s].
Proof.
  induction s as [| c t IH]; simpl; [done |]. intros Hs.
  apply not_elem_of_cons in Hs as [Hc Ht].
  destruct (N.eqb_spec c sep) as [-> | _]; [done |]. by rewrite IH.
Qed.

Lemma split_on_last_segment (sep : N) (id : str) : ∀ a : str,
  sep ∉ id → ∃ first rest, split_on sep (a ++ sep :: id) = first :: rest ++ [id].
Proof.
  intros a Hid. induction a as [| c a (first & rest & IH)]; simpl.
  - rewrite N.eqb_refl, split_on_none by done. by exists [], [].
  - rewrite IH. destruct (c =? sep)%N.
    + by exists [], (first :: rest).
    + by exists (c :: first), rest.
Qed.

Section PasteId.
Variable U : unicode_tables.
Variable W : world.

(** X22: the paste fetched for a link is the one named by what follows
    the last [/] of the link, once the [/] at its end are dropped:
    whatever comes before that part, and any number of [/] after it, make
    no difference. *)
Theorem paste_is_last_segment (base id slashes : str) :
  id ≠ [] → 47%N ∉ id → Forall (fun c => c = 47%N) slashes →
  fetch_pokepaste_raw U W (base ++ u "/" ++ id ++ slashes)
  = normalize_team_text U <$> paste_text W id.
Proof.
  intros Hne Hid Hsl. unfold fetch_pokepaste_raw.
  replace (base ++ u "/" ++ id ++ slashes) with ((base ++ 47%N :: id) ++ slashes)
    by (by rewrite <- app_assoc).
  rewrite rstrip_by_app_all
    by (eapply Forall_impl; [exact Hsl |]; by intros c ->).
  replace (base ++ 47%N :: id) with ((base ++ [47%N]) ++ id) by (by rewrite <- app_assoc).
  rewrite rstrip_by_app; [| done |].
  - rewrite <- app_assoc. simpl.
    destruct (split_on_last_segment 47 id base Hid) as (first & rest & ->).
    rewrite app_comm_cons, List.last_last. done.
  - apply rstrip_by_none. apply Forall_forall. intros c Hc.
    destruct (N.eqb_spec 47 c) as [<- | _]; done.
Qed.

End PasteId.

Lemma paste_is_last_segment_witness :
  fetch_pokepaste_raw unicode_excerpt (sample_world [])
    (u "https://pokepast.es" ++ u "/" ++ u "a1b2c3" ++ u "//")
  = normalize_team_text unicode_excerpt
      <$> paste_text (sample_world []) (u "a1b2c3").
Proof.
  apply (paste_is_last_segment unicode_excerpt (sample_world [])
           (u "https://pokepast.es") (u "a1b2c3") (u "//")).
  - discriminate.
  - vm_compute. intros H. repeat (apply elem_of_cons in H as [H | H]; [discriminate |]).
    by apply elem_of_nil in H.
  - vm_compute. repeat constructor.
Defined.

(** ** The characters of a directory name *)

Lemma search_go_groups (r : re) (m : rmatch) : ∀ rest b,
  search_go r b rest = Some m →
  ∃ pre post e, rest = pre ++ post ∧ match_here r (rev pre ++ b) post = Some e
                ∧ m_groups m = ms_groups e.
Proof.
  induction rest as [| c t IH]; intros b; simpl.
  - destruct (match_here r b []) as [e |] eqn:He; [| done].
    intros [= <-]. by exists [], [], e.
  - destruct (match_here r b (c :: t)) as [e |] eqn:He.
    + intros [= <-]. by exists [], (c :: t), e.
    + intros H. destruct (IH _ H) as (pre & post & e & -> & He' & Hg).
      exists (c :: pre), post, e. split; [done |]. split; [| done].
      simpl. by rewrite <- app_assoc.
Qed.

Section DirName.
Variable U : unicode_tables.

Lemma year_20xx_group (b rest : str) (e : mstate) :
  match_here (year_20xx U) b rest = Some e →
  ∃ c d, lookup_group 1 (ms_groups e) = Some [50; 48; c; d]%N
         ∧ isdecimal U c = true ∧ isdecimal U d = true.
Proof.
  unfold match_here, year_20xx, start_state.
  rewrite mk_seqs_cons. unfold wordb at 1, word_boundary. rewrite mk_assert_if.
  destruct (xorb _ _); [| done].
  rewrite mk_seqs_cons, mk_group, mk_seq, lit_chrs.
  change {| ms_before := b; ms_rest := rest; ms_groups := [] |} with (at_state b rest []).
  intros H. apply mk_chrs_Some in H as (text & tl & -> & Htext & H). revert H.
  apply Forall2_cons_inv_l in Htext as (c1 & t1 & Hc1 & Htext & ->).
  apply Forall2_cons_inv_l in Htext as (c2 & t2 & Hc2 & Htext & ->).
  apply Forall2_nil_inv_l in Htext as ->.
  assert (E1 : c1 = 50%N) by (apply N.eqb_eq in Hc1; by rewrite <- Hc1).
  assert (E2 : c2 = 48%N) by (apply N.eqb_eq in Hc2; by rewrite <- Hc2).
  clear Hc1 Hc2. subst c1 c2.
  cbn [times]. unfold digit. rewrite mk_seq, mk_chr. cbn [at_state ms_rest].
  destruct tl as [| c tl]; [done |]. destruct (isdecimal U c) eqn:Hc; [| done].
  rewrite mk_seq, mk_chr. cbn [advance at_state ms_before ms_rest ms_groups tail].
  destruct tl as [| d tl]; [done |]. destruct (isdecimal U d) eqn:Hd; [| done].
  cbn [mk seqs]. unfold wordb, word_boundary. rewrite mk_assert_if.
  destruct (xorb _ _); [| done].
  intros [= <-]. exists c, d. split; [| done].
  unfold capture, consumed.
  cbn [advance at_state ms_before ms_rest ms_groups tail lookup_group Nat.eqb app].
  assert (Hn : length (50 :: 48 :: c :: d :: tl)%N - length tl = 4) by (simpl; lia).
  by rewrite Hn.
Qed.

Lemma str_of_N_digits (n : N) : Forall (fun c => ascii_digit c = true) (str_of_N n).
Proof.
  unfold str_of_N. induction (N.to_uint n) as [| d IH | d IH | d IH | d IH | d IH
                                               | d IH | d IH | d IH | d IH | d IH];
    simpl; [constructor | by constructor ..].
Qed.

Lemma ascii_digit_decimal (c : N) : ascii_digit c = true → isdecimal U c = true.
Proof.
  intros Hc. unfold isdecimal, decimal_value. rewrite Hc.
  assert (Ha : is_ascii c = true); [| by rewrite Ha].
  unfold ascii_digit, in_range in Hc. unfold is_ascii.
  apply andb_true_iff in Hc as [_ Hc]. apply N.leb_le in Hc.
  first [apply N.ltb_lt | apply N.leb_le]; lia.
Qed.

(** X23: the name of an event directory is made of lower-case ASCII
    letters, decimal digits and [_]; it holds neither [/] nor [.], so it
    is one path component, and not [.] or [..]. *)
Theorem event_dir_name_chars (event_name date_str : str) :
  let name := event_dir_name U event_name date_str in
  Forall (fun c => slug_char c = true ∨ c = 95%N ∨ isdecimal U c = true) name
  ∧ (47%N ∉ name) ∧ (46%N ∉ name).
Proof.
  intros name.
  assert (Hchars : Forall (fun c => slug_char c = true ∨ c = 95%N ∨ isdecimal U c = true)
                     name).
  { subst name. unfold event_dir_name.
    set (a := slugify U _). set (b := slugify U _).
    assert (Hbase : Forall (fun c => slug_char c = true ∨ c = 95%N ∨ isdecimal U c = true)
                      (str_or a (str_or b (u "event")))).
    { assert (Hs : ∀ t, Forall (fun c => slug_char c = true ∨ c = 95%N
                                         ∨ isdecimal U c = true) (slugify U t)).
      { intros t. pose proof (slugify_chars U t) as H.
        eapply Forall_impl; [exact H |]. intros c [? | ?]; [by left | right; by left]. }
      pose proof (Hs _ : Forall _ a) as Ha. pose proof (Hs _ : Forall _ b) as Hb.
      clearbody a b. destruct a; [| exact Ha]. destruct b; [| exact Hb].
      simpl. repeat (constructor; [by left |]). constructor. }
    destruct (re_search (year_20xx U) event_name) as [m |] eqn:Em.
    - apply Forall_app. split; [exact Hbase |]. apply Forall_app.
      split; [by repeat constructor; right; left |].
      apply search_go_groups in Em as (pre & post & e & _ & He & Hg).
      apply year_20xx_group in He as (c & d & Hl & Hc & Hd).
      unfold group. rewrite Hg, Hl. simpl.
      repeat (constructor; [right; right; first [done | by apply ascii_digit_decimal] |]).
      constructor.
    - destruct (parse_event_date U date_str) as [dt |]; [| exact Hbase].
      apply Forall_app. split; [exact Hbase |]. apply Forall_app.
      split; [by repeat constructor; right; left |].
      eapply Forall_impl; [apply str_of_N_digits |].
      intros c Hc. right. right. by apply ascii_digit_decimal. }
  split; [exact Hchars |].
  rewrite Forall_forall in Hchars.
  split; intros Hin; apply Hchars in Hin as [H | [H | H]]; discriminate.
Qed.

End DirName.

(** ** Dates with blanks around them *)

Lemma lstrip_by_app_all (p : N → bool) (w s : str) :
  Forall (fun c => p c = true) w → lstrip_by p (w ++ s) = lstrip_by p s.
Proof. induction 1 as [| c w Hc Hw IH]; simpl; [done |]. by rewrite Hc. Qed.

Lemma rstrip_by_all_app (p : N → bool) (w s : str) :
  Forall (fun c => p c = true) w →
  lstrip_by p (rstrip_by p (w ++ s)) = lstrip_by p (rstrip_by p s).
Proof.
  induction 1 as [| c w Hc Hw IH]; [done |].
  change ((c :: w) ++ s) with (c :: (w ++ s)). cbn [rstrip_by].
  destruct (rstrip_by p (w ++ s)) as [| d r] eqn:E.
  - rewrite Hc. by rewrite <- IH.
  - rewrite <- IH. simpl. by rewrite Hc.
Qed.

Lemma strip_by_padding (p : N → bool) (w1 s w2 : str) :
  Forall (fun c => p c = true) w1 → Forall (fun c => p c = true) w2 →
  strip_by p (w1 ++ s ++ w2) = strip_by p s.
Proof.
  intros H1 H2. unfold strip_by.
  by rewrite app_assoc, rstrip_by_app_all, rstrip_by_all_app.
Qed.

Section Dates.
Variable U : unicode_tables.

(** X24: whitespace around a date makes no difference to how it is
    read. *)
Theorem parse_event_date_padding (w1 date_str w2 : str) :
  Forall (fun c => isspace c = true) w1 → Forall (fun c => isspace c = true) w2 →
  parse_event_date U (w1 ++ date_str ++ w2) = parse_event_date U date_str.
Proof.
  intros H1 H2. unfold parse_event_date, strip. by rewrite strip_by_padding.
Qed.

End Dates.

Lemma parse_event_date_padding_witness :
  parse_event_date unicode_excerpt (u "  " ++ u "15 Jan 2024" ++ [32; 10]%N)
  = parse_event_date unicode_excerpt (u "15 Jan 2024").
Proof.
  apply (parse_event_date_padding unicode_excerpt (u "  ") (u "15 Jan 2024") [32; 10]%N);
    vm_compute; repeat constructor.
Defined.
